(** * Speech playback controller and AudioPlayer state machine

    A shallow embedding of [services/geminiService.ts] (the text-to-speech
    controller: availability probe, remote playback through an
    [HTMLAudioElement], local playback through [speechSynthesis]) and of the
    stateful part of the [AudioPlayer] React component.

    The host (browser) is modelled as explicit state: a heap of audio
    elements, a heap of utterances with the synthesizer queue, the blob URL
    table and the log of network requests.  An [async] function is cut at its
    [await]s: every segment between two suspension points is one atomic
    transition, and the event loop may run anything between two segments. *)

From Stdlib Require Import String Ascii List Bool Arith Lia QArith.
From stdpp Require Import base list.
Import ListNotations.

Local Open Scope string_scope.
Local Open Scope list_scope.
Local Open Scope nat_scope.

(** ** Strings as the code uses them *)

Module Str.

(** [String.prototype.toLowerCase], on the ASCII range: the keyword tables
    of the source are plain ASCII, a byte outside [A-Z] is left as it is. *)
Definition lowerAscii (c : ascii) : ascii :=
  let n := nat_of_ascii c in
  if (65 <=? n) && (n <=? 90) then ascii_of_nat (n + 32) else c.

Fixpoint toLowerCase (s : string) : string :=
  match s with
  | EmptyString => EmptyString
  | String c s' => String (lowerAscii c) (toLowerCase s')
  end.

Fixpoint startsWith (s k : string) : bool :=
  match k, s with
  | EmptyString, _ => true
  | String a k', String b s' => Ascii.eqb a b && startsWith s' k'
  | String _ _, EmptyString => false
  end.

(** [String.prototype.includes]: [k] occurs in [s] at some offset. *)
Fixpoint includes (s k : string) : bool :=
  startsWith s k ||
  match s with
  | EmptyString => false
  | String _ s' => includes s' k
  end.

End Str.

(** ** Voices and local voice selection ([playBrowserTts], lines 153-174) *)

Record SpeechSynthesisVoice := mkVoice { name : string; lang : string }.

Module Voices.

Definition femaleKeywords : list string :=
  ["Aria"; "Natural"; "Zira"; "Google US English"; "female"].
Definition maleKeywords : list string :=
  ["Guy"; "Natural"; "David"; "male"].
Definition lecturerKeywords : list string :=
  ["Guy"; "Christopher"; "Roger"; "Natural"; "male"].
Definition duoKeywords : list string :=
  ["Aria"; "Natural"; "Google US English"].

(** [availableVoices.filter(v => v.lang === 'en-US')] *)
Definition usVoices (availableVoices : list SpeechSynthesisVoice) :=
  List.filter (fun v => String.eqb (lang v) "en-US") availableVoices.

(** [usVoices.length > 0 ? usVoices : availableVoices] *)
Definition pool (availableVoices : list SpeechSynthesisVoice) :=
  match usVoices availableVoices with
  | [] => availableVoices
  | us => us
  end.

(** [keywords.some(k => v.name.toLowerCase().includes(k.toLowerCase()))] *)
Definition matchesAny (keywords : list string) (v : SpeechSynthesisVoice) : bool :=
  existsb (fun k => Str.includes (Str.toLowerCase (name v)) (Str.toLowerCase k))
          keywords.

(** [pool.find(v => ...)] *)
Definition findVoice (p : list SpeechSynthesisVoice) (keywords : list string)
  : option SpeechSynthesisVoice :=
  List.find (matchesAny keywords) p.

(** The keyword table consulted for a [speakerType]; [None] is the case in
    which no branch of the [if ... else if] chain is taken. *)
Definition keywordsFor (speakerType : string) : option (list string) :=
  if String.eqb speakerType "female" then Some femaleKeywords
  else if String.eqb speakerType "male" then Some maleKeywords
  else if String.eqb speakerType "lecturer" then Some lecturerKeywords
  else if String.eqb speakerType "duo" then Some duoKeywords
  else None.

(** The value of [selectedVoice] once line 174 has run; [None] is
    [undefined]. *)
Definition selectVoice (availableVoices : list SpeechSynthesisVoice)
           (speakerType : string) : option SpeechSynthesisVoice :=
  let p := pool availableVoices in
  let selectedVoice :=
    match keywordsFor speakerType with
    | Some keywords => findVoice p keywords
    | None => None
    end in
  match selectedVoice with
  | Some v => Some v
  | None => head p
  end.

End Voices.

(** ** The host and the module state *)

(** A lifecycle callback of one [playNativeTts] invocation, as recorded in the
    trace of the run. *)
Inductive Lifecycle := Started | Ended.

(** A request handed to [fetch]. *)
Inductive Request :=
| GetHealth
| PostTts (text speaker : string).

(** How an awaited promise settles. *)
Inductive Settlement :=
| Response (status : nat)   (* a [fetch] fulfilled with this HTTP status *)
| Value                     (* fulfilled with a value the code does not inspect *)
| Rejection.                (* rejected: network error, timeout, decode failure *)

(** [response.ok] *)
Definition ok (status : nat) : bool := (200 <=? status) && (status <=? 299).

(** Where an invocation of [playNativeTts] is suspended. *)
Inductive TaskState :=
| AwaitMemo (b : bool)   (* line 203, the probe answered from the memo *)
| AwaitHealth            (* line 39, [fetch] of [/health] in flight *)
| AwaitTts               (* line 81, [fetch] of [/tts] in flight *)
| AwaitBlob              (* line 96, [response.blob()] *)
| AwaitPlay (a : nat)    (* line 120, [audioElement.play()] *)
| Resolved
| Rejected.

(** What a segment of an [async] function does when it stops running. *)
Inductive Completion :=
| Suspended (st : TaskState)
| Returned
| Threw.

Section Controller.

(** The state the caller's callbacks act on. *)
Context {C : Type}.

(** The pair of closures passed to [playNativeTts]; [call] identifies the
    invocation they were passed to. *)
Record Callbacks := mkCallbacks {
  call : nat;
  onStart : C -> C;
  onEnd : C -> C
}.

(** An [HTMLAudioElement] created at line 100.  [dispatchedPlay] and
    [finished] are the host's record of the events it has fired at the
    element. *)
Record HTMLAudioElement := mkAudio {
  src : nat;
  paused : bool;
  currentTime : nat;
  handlers : Callbacks;
  dispatchedPlay : bool;
  finished : bool
}.

(** A [SpeechSynthesisUtterance] created at line 149; [voice = None] is the
    synthesizer's default voice.  [queued] says whether it is in the
    synthesizer's queue. *)
Record SpeechSynthesisUtterance := mkUtterance {
  text : string;
  rate : Q;
  pitch : Q;
  voice : option SpeechSynthesisVoice;
  listeners : Callbacks;
  queued : bool;
  dispatchedStart : bool;
  dispatchedEnd : bool
}.

Record Task := mkTask {
  t_text : string;
  t_speakerType : string;
  t_callbacks : Callbacks;
  t_state : TaskState
}.

(** The module's variables ([audioElement], [isEdgeTtsAvailable],
    [availableVoices]; [voicesLoaded] is written and never read), the host
    objects and the run's history. *)
Record World := mkWorld {
  client : C;
  audioElement : option nat;
  isEdgeTtsAvailable : option bool;
  availableVoices : list SpeechSynthesisVoice;
  hasSpeechSynthesis : bool;          (* ['speechSynthesis' in window] *)
  hostVoices : list SpeechSynthesisVoice;   (* [speechSynthesis.getVoices()] *)
  audios : list HTMLAudioElement;
  objectUrls : list bool;             (* [true]: not revoked *)
  utterances : list SpeechSynthesisUtterance;
  requests : list Request;
  trace : list (nat * Lifecycle);
  tasks : list Task
}.

Definition set_client (f : C -> C) (w : World) : World :=
  mkWorld (f (client w)) (audioElement w) (isEdgeTtsAvailable w)
          (availableVoices w) (hasSpeechSynthesis w) (hostVoices w) (audios w)
          (objectUrls w) (utterances w) (requests w) (trace w) (tasks w).
Definition set_audioElement (x : option nat) (w : World) : World :=
  mkWorld (client w) x (isEdgeTtsAvailable w)
          (availableVoices w) (hasSpeechSynthesis w) (hostVoices w) (audios w)
          (objectUrls w) (utterances w) (requests w) (trace w) (tasks w).
Definition set_isEdgeTtsAvailable (x : option bool) (w : World) : World :=
  mkWorld (client w) (audioElement w) x
          (availableVoices w) (hasSpeechSynthesis w) (hostVoices w) (audios w)
          (objectUrls w) (utterances w) (requests w) (trace w) (tasks w).
Definition set_availableVoices (x : list SpeechSynthesisVoice) (w : World) : World :=
  mkWorld (client w) (audioElement w) (isEdgeTtsAvailable w)
          x (hasSpeechSynthesis w) (hostVoices w) (audios w)
          (objectUrls w) (utterances w) (requests w) (trace w) (tasks w).
Definition set_hostVoices (x : list SpeechSynthesisVoice) (w : World) : World :=
  mkWorld (client w) (audioElement w) (isEdgeTtsAvailable w)
          (availableVoices w) (hasSpeechSynthesis w) x (audios w)
          (objectUrls w) (utterances w) (requests w) (trace w) (tasks w).
Definition set_audios (f : list HTMLAudioElement -> list HTMLAudioElement)
           (w : World) : World :=
  mkWorld (client w) (audioElement w) (isEdgeTtsAvailable w)
          (availableVoices w) (hasSpeechSynthesis w) (hostVoices w) (f (audios w))
          (objectUrls w) (utterances w) (requests w) (trace w) (tasks w).
Definition set_objectUrls (f : list bool -> list bool) (w : World) : World :=
  mkWorld (client w) (audioElement w) (isEdgeTtsAvailable w)
          (availableVoices w) (hasSpeechSynthesis w) (hostVoices w) (audios w)
          (f (objectUrls w)) (utterances w) (requests w) (trace w) (tasks w).
Definition set_utterances
           (f : list SpeechSynthesisUtterance -> list SpeechSynthesisUtterance)
           (w : World) : World :=
  mkWorld (client w) (audioElement w) (isEdgeTtsAvailable w)
          (availableVoices w) (hasSpeechSynthesis w) (hostVoices w) (audios w)
          (objectUrls w) (f (utterances w)) (requests w) (trace w) (tasks w).
Definition set_requests (f : list Request -> list Request) (w : World) : World :=
  mkWorld (client w) (audioElement w) (isEdgeTtsAvailable w)
          (availableVoices w) (hasSpeechSynthesis w) (hostVoices w) (audios w)
          (objectUrls w) (utterances w) (f (requests w)) (trace w) (tasks w).
Definition set_trace (f : list (nat * Lifecycle) -> list (nat * Lifecycle))
           (w : World) : World :=
  mkWorld (client w) (audioElement w) (isEdgeTtsAvailable w)
          (availableVoices w) (hasSpeechSynthesis w) (hostVoices w) (audios w)
          (objectUrls w) (utterances w) (requests w) (f (trace w)) (tasks w).
Definition set_tasks (f : list Task -> list Task) (w : World) : World :=
  mkWorld (client w) (audioElement w) (isEdgeTtsAvailable w)
          (availableVoices w) (hasSpeechSynthesis w) (hostVoices w) (audios w)
          (objectUrls w) (utterances w) (requests w) (trace w) (f (tasks w)).

(** Calling one of the caller's closures. *)
Definition invoke (cb : Callbacks) (ev : Lifecycle) (w : World) : World :=
  let f := match ev with Started => onStart cb | Ended => onEnd cb end in
  set_trace (fun t => t ++ [(call cb, ev)]) (set_client f w).

(** *** Host primitives *)

(** [audio.pause()] *)
Definition pause (x : HTMLAudioElement) : HTMLAudioElement :=
  mkAudio (src x) true (currentTime x) (handlers x) (dispatchedPlay x) (finished x).
(** [audio.currentTime = t] *)
Definition seek (t : nat) (x : HTMLAudioElement) : HTMLAudioElement :=
  mkAudio (src x) (paused x) t (handlers x) (dispatchedPlay x) (finished x).
(** [audio.play()]: the element leaves the paused state. *)
Definition play (x : HTMLAudioElement) : HTMLAudioElement :=
  mkAudio (src x) false (currentTime x) (handlers x) (dispatchedPlay x) (finished x).
Definition markPlay (x : HTMLAudioElement) : HTMLAudioElement :=
  mkAudio (src x) (paused x) (currentTime x) (handlers x) true (finished x).
Definition markFinished (x : HTMLAudioElement) : HTMLAudioElement :=
  mkAudio (src x) (paused x) (currentTime x) (handlers x) (dispatchedPlay x) true.

Definition dequeue (u : SpeechSynthesisUtterance) : SpeechSynthesisUtterance :=
  mkUtterance (text u) (rate u) (pitch u) (voice u) (listeners u)
              false (dispatchedStart u) (dispatchedEnd u).
Definition markStart (u : SpeechSynthesisUtterance) : SpeechSynthesisUtterance :=
  mkUtterance (text u) (rate u) (pitch u) (voice u) (listeners u)
              (queued u) true (dispatchedEnd u).
Definition markEnd (u : SpeechSynthesisUtterance) : SpeechSynthesisUtterance :=
  mkUtterance (text u) (rate u) (pitch u) (voice u) (listeners u)
              false (dispatchedStart u) true.

(** [window.speechSynthesis.cancel()]: the queue is emptied. *)
Definition cancel (w : World) : World :=
  set_utterances (fmap dequeue) w.

(** [URL.revokeObjectURL(url)] *)
Definition revokeObjectURL (url : nat) (w : World) : World :=
  set_objectUrls (fun us => <[url := false]> us) w.

(** *** The module's functions *)

(** [loadVoices], lines 16-21 *)
Definition loadVoices (w : World) : World :=
  if hasSpeechSynthesis w then set_availableVoices (hostVoices w) w else w.

(** [stopNativeTts], lines 56-68 *)
Definition stopNativeTts (w : World) : World :=
  let w1 :=
    match audioElement w with
    | Some a =>
        set_audioElement None
          (set_audios (fun l => alter (fun x => seek 0 (pause x)) a l) w)
    | None => w
    end in
  if hasSpeechSynthesis w1 then cancel w1 else w1.

(** [checkEdgeTtsAvailability], lines 33-42: up to the [await]. *)
Definition checkEdgeTtsAvailability (w : World) : World * TaskState :=
  match isEdgeTtsAvailable w with
  | Some b => (w, AwaitMemo b)
  | None => (set_requests (fun r => r ++ [GetHealth]) w, AwaitHealth)
  end.

(** [checkEdgeTtsAvailability], lines 43-50: once the [fetch] has settled; it
    is rejected on a network error and when [AbortSignal.timeout(2000)] fires.
    [None]: this promise never settles that way. *)
Definition checkEdgeTtsAvailability_settled (s : Settlement) (w : World)
  : option (World * bool) :=
  match s with
  | Response status => Some (set_isEdgeTtsAvailable (Some (ok status)) w, ok status)
  | Rejection => Some (set_isEdgeTtsAvailable (Some false) w, false)
  | Value => None
  end.

(** [playEdgeTts], lines 81-90: the request is issued. *)
Definition playEdgeTts (text speakerType : string) (w : World)
  : World * Completion :=
  (set_requests (fun r => r ++ [PostTts text speakerType]) w, Suspended AwaitTts).

(** [playEdgeTts], lines 92-96 *)
Definition playEdgeTts_response (s : Settlement) (w : World)
  : option (World * Completion) :=
  match s with
  | Response status =>
      if negb (ok status) then Some (w, Threw) else Some (w, Suspended AwaitBlob)
  | Rejection => Some (w, Threw)
  | Value => None
  end.

(** [playEdgeTts], lines 97-120: the blob is wrapped in an object URL, the
    element is created, stored in the module variable and started. *)
Definition playEdgeTts_blob (cb : Callbacks) (s : Settlement) (w : World)
  : option (World * Completion) :=
  match s with
  | Value =>
      let audioUrl := length (objectUrls w) in
      let w := set_objectUrls (fun us => us ++ [true]) w in
      let a := length (audios w) in
      let w := set_audios (fun l => l ++ [mkAudio audioUrl true 0 cb false false]) w in
      let w := set_audioElement (Some a) w in
      match audioElement w with
      | Some e => Some (set_audios (fun l => alter play e l) w, Suspended (AwaitPlay e))
      | None => Some (w, Threw)
      end
  | Rejection => Some (w, Threw)
  | Response _ => None
  end.

(** [playEdgeTts], lines 120-125 *)
Definition playEdgeTts_played (s : Settlement) (w : World)
  : option (World * Completion) :=
  match s with
  | Value => Some (w, Returned)
  | Rejection => Some (w, Threw)
  | Response _ => None
  end.

(** The handlers installed at lines 102-117. *)
Definition onplay (x : HTMLAudioElement) (w : World) : World :=
  invoke (handlers x) Started w.
Definition onended (x : HTMLAudioElement) (w : World) : World :=
  invoke (handlers x) Ended (set_audioElement None (revokeObjectURL (src x) w)).
Definition onerror (x : HTMLAudioElement) (w : World) : World :=
  invoke (handlers x) Ended (set_audioElement None (revokeObjectURL (src x) w)).

(** [playBrowserTts], lines 131-188 *)
Definition playBrowserTts (text speakerType : string) (cb : Callbacks) (w : World)
  : World :=
  if negb (hasSpeechSynthesis w) then invoke cb Ended w
  else
    let w := cancel w in
    let w := if length (availableVoices w) =? 0
             then set_availableVoices (hostVoices w) w else w in
    let selectedVoice := Voices.selectVoice (availableVoices w) speakerType in
    let utterance :=
      mkUtterance text (9 # 10) (1 # 1) selectedVoice cb true false false in
    set_utterances (fun q => q ++ [utterance]) w.

Definition withState (st : TaskState) (t : Task) : Task :=
  mkTask (t_text t) (t_speakerType t) (t_callbacks t) st.

Definition set_state (task : nat) (st : TaskState) (w : World) : World :=
  set_tasks (fun l => alter (withState st) task l) w.

(** [playNativeTts], lines 205-215, around a segment of [playEdgeTts]: a
    suspension or a return is passed on, a throw is caught at line 208. *)
Definition tryEdge (task : nat) (t : Task) (r : World * Completion) : World :=
  match r with
  | (w, Suspended st) => set_state task st w
  | (w, Returned) => set_state task Resolved w
  | (w, Threw) =>
      set_state task Resolved
        (playBrowserTts (t_text t) (t_speakerType t) (t_callbacks t) w)
  end.

(** [playNativeTts], lines 205-215, once [useEdgeTts] is known. *)
Definition playNativeTts_dispatch (task : nat) (t : Task) (useEdgeTts : bool)
           (w : World) : World :=
  if useEdgeTts then tryEdge task t (playEdgeTts (t_text t) (t_speakerType t) w)
  else set_state task Resolved
         (playBrowserTts (t_text t) (t_speakerType t) (t_callbacks t) w).

(** [playNativeTts], lines 199-203: up to the first [await]. *)
Definition playNativeTts (text speakerType : string) (onStart onEnd : C -> C)
           (w : World) : World :=
  let w := stopNativeTts w in
  let '(w, st) := checkEdgeTtsAvailability w in
  let cb := mkCallbacks (length (tasks w)) onStart onEnd in
  set_tasks (fun l => l ++ [mkTask text speakerType cb st]) w.

(** The continuation of an invocation when the promise it awaits settles. *)
Definition resume (task : nat) (s : Settlement) (w : World) : option World :=
  t ← tasks w !! task;
  match t_state t with
  | AwaitMemo b =>
      match s with
      | Value => Some (playNativeTts_dispatch task t b w)
      | _ => None
      end
  | AwaitHealth =>
      '(w, b) ← checkEdgeTtsAvailability_settled s w;
      Some (playNativeTts_dispatch task t b w)
  | AwaitTts => tryEdge task t <$> playEdgeTts_response s w
  | AwaitBlob => tryEdge task t <$> playEdgeTts_blob (t_callbacks t) s w
  | AwaitPlay _ => tryEdge task t <$> playEdgeTts_played s w
  | Resolved | Rejected => None
  end.

End Controller.

Arguments Callbacks : clear implicits.
Arguments HTMLAudioElement : clear implicits.
Arguments SpeechSynthesisUtterance : clear implicits.
Arguments Task : clear implicits.
Arguments World : clear implicits.

(** ** The event loop *)

(** What the host may do between two segments of the program. *)
Inductive HostEvent :=
| Settle (task : nat) (s : Settlement)   (* the promise [task] awaits settles *)
| VoicesChanged (vs : list SpeechSynthesisVoice)
| AudioPlay (a : nat)          (* [play] is fired at element [a] *)
| AudioEnded (a : nat)         (* [ended] *)
| AudioError (a : nat)         (* [error] *)
| AudioTimeUpdate (a : nat) (t : nat)
| UttStart (u : nat)           (* [start] is fired at utterance [u] *)
| UttEnd (u : nat)             (* [end] *)
| UttError (u : nat).          (* [error] *)

Section EventLoop.

Context {C : Type}.

(** A host event with the handler the module installed for it.  The host
    fires [play] at most once at an element ([play()] is called once),
    [ended] only at an element that is playing, and at most one of [ended]
    and [error]; [start] only at a queued utterance, and at most one of [end]
    and [error] at an utterance.  Nothing else is assumed of it: an [error]
    may reach an element that was paused, and a cancelled utterance may still
    report its end.  [None]: the event cannot happen here. *)
Definition hostStep (h : HostEvent) (w : World C) : option (World C) :=
  match h with
  | Settle task s => resume task s w
  | VoicesChanged vs =>
      if hasSpeechSynthesis w then Some (loadVoices (set_hostVoices vs w)) else None
  | AudioPlay a =>
      x ← audios w !! a;
      if negb (dispatchedPlay x)
      then Some (onplay x (set_audios (fun l => alter markPlay a l) w))
      else None
  | AudioEnded a =>
      x ← audios w !! a;
      if dispatchedPlay x && negb (paused x) && negb (finished x)
      then Some (onended x (set_audios (fun l => alter markFinished a l) w))
      else None
  | AudioError a =>
      x ← audios w !! a;
      if negb (finished x)
      then Some (onerror x (set_audios (fun l => alter markFinished a l) w))
      else None
  | AudioTimeUpdate a t =>
      x ← audios w !! a;
      if dispatchedPlay x && negb (paused x) && negb (finished x)
      then Some (set_audios (fun l => alter (seek t) a l) w)
      else None
  | UttStart u =>
      x ← utterances w !! u;
      if queued x && negb (dispatchedStart x) && negb (dispatchedEnd x)
      then Some (invoke (listeners x) Started
                        (set_utterances (fun l => alter markStart u l) w))
      else None
  | UttEnd u =>
      x ← utterances w !! u;
      if dispatchedStart x && negb (dispatchedEnd x)
      then Some (invoke (listeners x) Ended
                        (set_utterances (fun l => alter markEnd u l) w))
      else None
  | UttError u =>
      x ← utterances w !! u;
      if negb (dispatchedEnd x)
      then Some (invoke (listeners x) Ended
                        (set_utterances (fun l => alter markEnd u l) w))
      else None
  end.

(** A caller of the module's two exports, or the host. *)
Inductive Event :=
| Call (text speakerType : string) (onStart onEnd : C -> C)
| Stop
| Host (h : HostEvent).

Definition step (e : Event) (w : World C) : option (World C) :=
  match e with
  | Call text speakerType onStart onEnd =>
      Some (playNativeTts text speakerType onStart onEnd w)
  | Stop => Some (stopNativeTts w)
  | Host h => hostStep h w
  end.

Fixpoint run (es : list Event) (w : World C) : option (World C) :=
  match es with
  | [] => Some w
  | e :: es' => w' ← step e w; run es' w'
  end.

(** The module as loaded (lines 7-28) in a host with or without
    [speechSynthesis], whose voice list is [vs] at load time. *)
Definition init (c : C) (hasSpeechSynthesis : bool)
           (vs : list SpeechSynthesisVoice) : World C :=
  loadVoices (mkWorld c None None [] hasSpeechSynthesis vs [] [] [] [] [] []).

End EventLoop.

(** ** The AudioPlayer component *)

Module Player.

(** The props [text] and [speakerType], the three state variables, and the
    number of times the prop [onAudioEnd] has been called.  State is read as
    it stands when a handler runs: React renders between two events.  The
    cleanup of lines 17-21 runs when the component is gone and is left out. *)
Record AudioPlayer := mkPlayer {
  props_text : string;
  props_speakerType : string;
  isPlaying : bool;
  hasPlayed : bool;
  isLoading : bool;
  audioEnds : nat
}.

Definition setIsPlaying (b : bool) (p : AudioPlayer) : AudioPlayer :=
  mkPlayer (props_text p) (props_speakerType p) b (hasPlayed p) (isLoading p)
           (audioEnds p).
Definition setHasPlayed (b : bool) (p : AudioPlayer) : AudioPlayer :=
  mkPlayer (props_text p) (props_speakerType p) (isPlaying p) b (isLoading p)
           (audioEnds p).
Definition setIsLoading (b : bool) (p : AudioPlayer) : AudioPlayer :=
  mkPlayer (props_text p) (props_speakerType p) (isPlaying p) (hasPlayed p) b
           (audioEnds p).
Definition onAudioEnd (p : AudioPlayer) : AudioPlayer :=
  mkPlayer (props_text p) (props_speakerType p) (isPlaying p) (hasPlayed p)
           (isLoading p) (S (audioEnds p)).
Definition setText (t : string) (p : AudioPlayer) : AudioPlayer :=
  mkPlayer t (props_speakerType p) (isPlaying p) (hasPlayed p) (isLoading p)
           (audioEnds p).

(** The state the component shows (status bar, lines 110-126). *)
Inductive PlaybackState := Idle | Loading | Speaking | Finished.

Definition playbackState (p : AudioPlayer) : PlaybackState :=
  if isLoading p then Loading
  else if isPlaying p then Speaking
  else if hasPlayed p then Finished
  else Idle.

(** The closures of lines 40-50. *)
Definition handleStart (p : AudioPlayer) : AudioPlayer :=
  setIsPlaying true (setIsLoading false p).
Definition handleEnd (p : AudioPlayer) : AudioPlayer :=
  onAudioEnd (setHasPlayed true (setIsPlaying false p)).
(** The [catch] of lines 52-56. *)
Definition handleRejected (p : AudioPlayer) : AudioPlayer :=
  setIsPlaying false (setIsLoading false p).
(** The state updates of the effect of lines 23-29. *)
Definition resetState (p : AudioPlayer) : AudioPlayer :=
  setIsLoading false (setIsPlaying false (setHasPlayed false p)).

(** [handlePlay], lines 31-51: up to the [await]. *)
Definition handlePlay (w : World AudioPlayer) : World AudioPlayer :=
  let p := client w in
  if isPlaying p || isLoading p then w
  else
    playNativeTts (props_text p) (props_speakerType p) handleStart handleEnd
                  (set_client (setIsLoading true) w).

(** The effect of lines 23-29, run when the prop [text] changes. *)
Definition textChanged (t : string) (w : World AudioPlayer) : World AudioPlayer :=
  stopNativeTts (set_client (fun p => resetState (setText t p)) w).

(** [handlePlay] after the [await]: a rejection of [playNativeTts] runs the
    [catch]. *)
Definition afterAwait (h : HostEvent) (w : World AudioPlayer) : World AudioPlayer :=
  match h with
  | Settle task _ =>
      match t_state <$> tasks w !! task with
      | Some Rejected => set_client handleRejected w
      | _ => w
      end
  | _ => w
  end.

Inductive UiEvent :=
| Click                      (* the play button or the replay link *)
| TextChange (t : string)    (* the parent passes a new [text] *)
| FromHost (h : HostEvent).

Definition uiStep (e : UiEvent) (w : World AudioPlayer) : option (World AudioPlayer) :=
  match e with
  | Click => Some (handlePlay w)
  | TextChange t => Some (textChanged t w)
  | FromHost h => afterAwait h <$> hostStep h w
  end.

Fixpoint uiRun (es : list UiEvent) (w : World AudioPlayer)
  : option (World AudioPlayer) :=
  match es with
  | [] => Some w
  | e :: es' => w' ← uiStep e w; uiRun es' w'
  end.

(** The component as mounted: [useState(false)] three times. *)
Definition mount (text speakerType : string) (hasSpeechSynthesis : bool)
           (vs : list SpeechSynthesisVoice) : World AudioPlayer :=
  init (mkPlayer text speakerType false false false 0) hasSpeechSynthesis vs.

End Player.

(** ** Observations on a run *)

Fixpoint count {A : Type} (p : A -> bool) (l : list A) : nat :=
  match l with
  | [] => 0
  | x :: l' => (if p x then 1 else 0) + count p l'
  end.

Definition isLifecycle (task : nat) (ev : Lifecycle) (x : nat * Lifecycle) : bool :=
  (fst x =? task) &&
  match ev, snd x with
  | Started, Started | Ended, Ended => true
  | _, _ => false
  end.

Definition isGetHealth (r : Request) : bool :=
  match r with GetHealth => true | PostTts _ _ => false end.

Definition isAwaitHealth (st : TaskState) : bool :=
  match st with AwaitHealth => true | _ => false end.

Definition isAwaitPlay (st : TaskState) : bool :=
  match st with AwaitPlay _ => true | _ => false end.

(** The invocation has not created its audio element yet. *)
Definition isEarly (st : TaskState) : bool :=
  match st with
  | AwaitMemo _ | AwaitHealth | AwaitTts | AwaitBlob => true
  | AwaitPlay _ | Resolved | Rejected => false
  end.

Section Observations.

Context {C : Type}.

(** How often [onStart] and [onEnd] of invocation [task] have been called. *)
Definition starts (task : nat) (w : World C) : nat :=
  count (isLifecycle task Started) (trace w).
Definition ends (task : nat) (w : World C) : nat :=
  count (isLifecycle task Ended) (trace w).

(** An element that is producing sound: started and neither paused, ended nor
    failed. *)
Definition live (x : HTMLAudioElement C) : bool :=
  negb (paused x) && negb (finished x).
Definition liveHandles (w : World C) : nat := count live (audios w).

(** Blob URLs created and not revoked. *)
Definition liveUrls (w : World C) : nat := count (fun b : bool => b) (objectUrls w).

(** Requests to [/health] issued so far. *)
Definition healthRequests (w : World C) : nat := count isGetHealth (requests w).

(** Some invocation has its [/health] request in flight. *)
Definition probing (w : World C) : bool :=
  existsb (fun t => isAwaitHealth (t_state t)) (tasks w).

(** No [playNativeTts] call of the run starts while a probe is in flight. *)
Fixpoint probesDoNotOverlap (es : list (Event (C:=C))) (w : World C) : bool :=
  match es with
  | [] => true
  | e :: es' =>
      match e with
      | Call _ _ _ _ => negb (probing w)
      | _ => true
      end &&
      match step e w with
      | Some w' => probesDoNotOverlap es' w'
      | None => true
      end
  end.

(** The event rejects the [audioElement.play()] promise of invocation
    [task], that is, after its element has been created. *)
Definition rejectsPlay (task : nat) (e : Event (C:=C)) (w : World C) : bool :=
  match e with
  | Host (Settle t Rejection) =>
      (t =? task) &&
      match tasks w !! t with
      | Some x => isAwaitPlay (t_state x)
      | None => false
      end
  | _ => false
  end.

(** No event of the run rejects the [play()] promise of [task]. *)
Fixpoint playNeverRejected (task : nat) (es : list (Event (C:=C))) (w : World C)
  : bool :=
  match es with
  | [] => true
  | e :: es' =>
      negb (rejectsPlay task e w) &&
      match step e w with
      | Some w' => playNeverRejected task es' w'
      | None => true
      end
  end.

(** A remote attempt at stage [st] fails when its promise settles as [s]. *)
Definition remoteFailure (st : TaskState) (s : Settlement) : bool :=
  match st, s with
  | AwaitTts, Response status => negb (ok status)
  | AwaitTts, Rejection => true
  | AwaitBlob, Rejection => true
  | AwaitPlay _, Rejection => true
  | _, _ => false
  end.

End Observations.

(** ** Voice selection as the specification words it

    Keywords are tried in the order of the role's list, over every voice of
    the system; only when no keyword matches is a voice tagged [en-US]
    preferred, and the first voice of the list is the last resort. *)

Module SpecVoices.

Definition nameContains (k : string) (v : SpeechSynthesisVoice) : bool :=
  Str.includes (Str.toLowerCase (name v)) (Str.toLowerCase k).

Fixpoint firstByKeyword (keywords : list string) (voices : list SpeechSynthesisVoice)
  : option SpeechSynthesisVoice :=
  match keywords with
  | [] => None
  | k :: ks =>
      match List.find (nameContains k) voices with
      | Some v => Some v
      | None => firstByKeyword ks voices
      end
  end.

Definition selectVoice (voices : list SpeechSynthesisVoice) (speakerType : string)
  : option SpeechSynthesisVoice :=
  let byKeyword :=
    match Voices.keywordsFor speakerType with
    | Some keywords => firstByKeyword keywords voices
    | None => None
    end in
  match byKeyword with
  | Some v => Some v
  | None =>
      match List.find (fun v => String.eqb (lang v) "en-US") voices with
      | Some v => Some v
      | None => head voices
      end
  end.

End SpecVoices.

(** ** Concrete hosts and runs *)

Module Scenario.

Definition zira : SpeechSynthesisVoice :=
  mkVoice "Microsoft Zira - English (United States)" "en-US".
Definition aria : SpeechSynthesisVoice :=
  mkVoice "Microsoft Aria Online (Natural) - English (United States)" "en-US".
Definition ukFemale : SpeechSynthesisVoice :=
  mkVoice "Google UK English Female" "en-GB".
Definition samantha : SpeechSynthesisVoice := mkVoice "Samantha" "en-US".

(** Callbacks that count their own invocations: ([onStart] calls,
    [onEnd] calls). *)
Definition countStart (c : nat * nat) : nat * nat := (S (fst c), snd c).
Definition countEnd (c : nat * nat) : nat * nat := (fst c, S (snd c)).

Definition counting : Callbacks (nat * nat) := mkCallbacks 0 countStart countEnd.

Definition freshHost : World (nat * nat) := init (0, 0) true [zira].

(** Two calls in quick succession: the second is issued while the first is
    still waiting for the probe; the server answers every request. *)
Definition twoQuickCalls : list (Event (C:=nat * nat)) :=
  [ Call "first passage" "female" countStart countEnd;
    Call "second passage" "female" countStart countEnd;
    Host (Settle 0 (Response 200)); Host (Settle 1 (Response 200));
    Host (Settle 0 (Response 200)); Host (Settle 1 (Response 200));
    Host (Settle 0 Value); Host (Settle 1 Value);
    Host (AudioPlay 0); Host (AudioPlay 1);
    Host (Settle 0 Value); Host (Settle 1 Value) ].

Definition bothPlayToTheEnd : list (Event (C:=nat * nat)) :=
  twoQuickCalls ++ [ Host (AudioEnded 0); Host (AudioEnded 1) ].

(** One call; the server answers [/health] and [/tts], the payload cannot be
    decoded: the element fires [play], then [error], and its [play()] promise
    is rejected.
    The local synthesizer then speaks the passage to its end. *)
Definition undecodablePayload : list (Event (C:=nat * nat)) :=
  [ Call "passage" "female" countStart countEnd;
    Host (Settle 0 (Response 200));
    Host (Settle 0 (Response 200));
    Host (Settle 0 Value);
    Host (AudioPlay 0);
    Host (AudioError 0);
    Host (Settle 0 Rejection);
    Host (UttStart 0);
    Host (UttEnd 0) ].

(** The same failure under the component: one click on the play button. *)
Definition clickUndecodable : list Player.UiEvent :=
  [ Player.Click;
    Player.FromHost (Settle 0 (Response 200));
    Player.FromHost (Settle 0 (Response 200));
    Player.FromHost (Settle 0 Value);
    Player.FromHost (AudioPlay 0);
    Player.FromHost (AudioError 0);
    Player.FromHost (Settle 0 Rejection);
    Player.FromHost (UttStart 0);
    Player.FromHost (UttEnd 0) ].

(** A passage is requested, the parent moves on to the next passage while the
    first request is in flight, and the new passage is requested as well. *)
Definition clickChangeClick : list Player.UiEvent :=
  [ Player.Click;
    Player.FromHost (Settle 0 (Response 200));
    Player.TextChange "next passage";
    Player.Click;
    Player.FromHost (Settle 1 Value);
    Player.FromHost (Settle 0 (Response 200)); Player.FromHost (Settle 1 (Response 200));
    Player.FromHost (Settle 0 Value); Player.FromHost (Settle 1 Value);
    Player.FromHost (AudioPlay 0); Player.FromHost (AudioPlay 1) ].

(** A host with the synthesizer and no voice at all. *)
Definition voicelessHost : World (nat * nat) := init (0, 0) true [].

(** A host without [speechSynthesis]. *)
Definition muteHost : World (nat * nat) := init (0, 0) false [].

(** One call with the server down. *)
Definition serverDown : list (Event (C:=nat * nat)) :=
  [ Call "passage" "female" countStart countEnd; Host (Settle 0 Rejection) ].

(** One call, [/health] answers and [/tts] answers 500. *)
Definition tts500 : list (Event (C:=nat * nat)) :=
  [ Call "passage" "female" countStart countEnd;
    Host (Settle 0 (Response 200));
    Host (Settle 0 (Response 500)) ].

(** Two calls one after the other, the second once the first is playing. *)
Definition twoCallsInTurn : list (Event (C:=nat * nat)) :=
  [ Call "first passage" "female" countStart countEnd;
    Host (Settle 0 (Response 200));
    Host (Settle 0 (Response 200));
    Host (Settle 0 Value);
    Host (AudioPlay 0);
    Host (Settle 0 Value);
    Call "second passage" "male" countStart countEnd;
    Host (Settle 1 Value);
    Host (Settle 1 (Response 200)) ].

End Scenario.

(** ** Invariants *)

(** Every callback held by a suspended invocation, an audio element or an
    utterance satisfies [P]. *)
Definition callbacksSatisfy {C : Type} (P : Callbacks C -> Prop) (w : World C) : Prop :=
  Forall (fun t => P (t_callbacks t)) (tasks w) ∧
  Forall (fun x => P (handlers x)) (audios w) ∧
  Forall (fun u => P (listeners u)) (utterances w).

(** No invocation of [playNativeTts] has been rejected. *)
Definition noneRejected {C : Type} (w : World C) : Prop :=
  Forall (fun t => t_state t ≠ Rejected) (tasks w).

Module PlayerInv.

Import Player.

(** [isLoading] and [isPlaying] are not both set. *)
Definition flagsExclusive (p : AudioPlayer) : Prop :=
  ¬ (isLoading p = true ∧ isPlaying p = true).

(** The callbacks are the closures [handlePlay] builds. *)
Definition fromPlayer (cb : Callbacks AudioPlayer) : Prop :=
  onStart cb = handleStart ∧ onEnd cb = handleEnd.

(** Every callback the controller or the host holds comes from the
    component. *)
Definition ownedByPlayer (w : World AudioPlayer) : Prop :=
  callbacksSatisfy fromPlayer w.

Definition wellFormed (w : World AudioPlayer) : Prop :=
  ownedByPlayer w ∧ flagsExclusive (client w).

End PlayerInv.

(** ** Accounting for the callbacks of one invocation *)

Definition callIs {C : Type} (k : nat) (cb : Callbacks C) : bool := call cb =? k.

(** What the heaps and the trace hold for invocation [k]: the calls of its
    callbacks, the elements and utterances created for it, the events the host
    has fired at them, and where the invocation stands. *)
Record Tally := mkTally {
  n_starts : nat;
  n_ends : nat;
  n_audios : nat;
  n_utterances : nat;
  a_starts : nat;
  a_ends : nat;
  u_starts : nat;
  u_ends : nat;
  k_state : option TaskState
}.

Definition tally {C : Type} (k : nat) (w : World C) : Tally :=
  mkTally
    (starts k w) (ends k w)
    (count (fun x => callIs k (handlers x)) (audios w))
    (count (fun u => callIs k (listeners u)) (utterances w))
    (count (fun x => callIs k (handlers x) && dispatchedPlay x) (audios w))
    (count (fun x => callIs k (handlers x) && finished x) (audios w))
    (count (fun u => callIs k (listeners u) && dispatchedStart u) (utterances w))
    (count (fun u => callIs k (listeners u) && dispatchedEnd u) (utterances w))
    (t_state <$> tasks w !! k).

(** The invocation was resolved by the local path of a host without
    [speechSynthesis]: nothing was created for it. *)
Definition endedSilently (y : Tally) : nat :=
  match k_state y with
  | Some Resolved => if (n_audios y =? 0) && (n_utterances y =? 0) then 1 else 0
  | _ => 0
  end.

(** Before the element is created nothing exists for the invocation; while
    [play()] is pending no utterance does. *)
Definition phase (y : Tally) : Prop :=
  match k_state y with
  | Some Resolved | Some Rejected => True
  | Some (AwaitPlay _) => n_utterances y = 0
  | _ => n_audios y = 0 ∧ n_utterances y = 0
  end.

(** Every call of a callback is matched by an event fired at an element or an
    utterance of the invocation, or by the silent end; at most one element or
    utterance exists for it. *)
Definition balanced (y : Tally) : Prop :=
  n_starts y ≤ a_starts y + u_starts y ∧
  n_ends y ≤ a_ends y + u_ends y + endedSilently y ∧
  n_audios y + n_utterances y ≤ 1 ∧
  phase y.

(** The callbacks of invocation [i] carry the number [i]. *)
Definition indexed {C : Type} (w : World C) : Prop :=
  ∀ i t, tasks w !! i = Some t → call (t_callbacks t) = i.

(** The state a completion leaves the invocation in. *)
Definition stateAfter (c : Completion) : TaskState :=
  match c with Suspended st => st | Returned | Threw => Resolved end.

(** The invariant a set of callbacks [P] carries for the caller's state [Q]. *)
Definition callbackInvariant {C : Type} (P : Callbacks C -> Prop) (Q : C -> Prop)
           (w : World C) : Prop :=
  callbacksSatisfy P w ∧ Q (client w).

(** The same account with the invocation at another point. *)
Definition atState (ks : option TaskState) (y : Tally) : Tally :=
  mkTally (n_starts y) (n_ends y) (n_audios y) (n_utterances y)
          (a_starts y) (a_ends y) (u_starts y) (u_ends y) ks.

(** Not called yet, or called and still before the creation of its element. *)
Definition earlyOrAbsent (ks : option TaskState) : Prop :=
  match ks with
  | None => True
  | Some st => isEarly st = true
  end.

(** ** What the component renders (lines 63-135) *)

Module View.

Import Player.

(** Line 73: the play button is rendered unless the audio is playing. *)
Definition playButtonRendered (p : AudioPlayer) : bool := negb (isPlaying p).

(** Line 76: [disabled={isLoading}] *)
Definition playButtonDisabled (p : AudioPlayer) : bool := isLoading p.

(** Line 128: the replay link. *)
Definition replayRendered (p : AudioPlayer) : bool :=
  hasPlayed p && negb (isPlaying p) && negb (isLoading p).

(** Line 69: the prop passed to the visualizer. *)
Definition visualizerPlaying (p : AudioPlayer) : bool := isPlaying p.

(** Lines 110-126: the text of the status bar. *)
Definition statusText (p : AudioPlayer) : string :=
  if isLoading p then "Loading Edge TTS..."
  else if isPlaying p then "Speaking (Edge TTS)..."
  else if hasPlayed p then "Audio finished"
  else "Click play to start".

(** Some control that runs [handlePlay] can be clicked. *)
Definition playOffered (p : AudioPlayer) : bool :=
  (playButtonRendered p && negb (playButtonDisabled p)) || replayRendered p.

End View.

(** ** More observations and invariants *)

Definition isPostTts (r : Request) : bool :=
  match r with PostTts _ _ => true | GetHealth => false end.

(** The invocation is still waiting for the answer of the probe. *)
Definition awaitsProbe (st : TaskState) : bool :=
  match st with AwaitMemo _ | AwaitHealth => true | _ => false end.

Section MoreObservations.

Context {C : Type}.

(** Utterances in the synthesizer's queue. *)
Definition queuedUtterances (w : World C) : nat := count queued (utterances w).

(** Every audio element owns the blob URL of its own number, and that URL is
    revoked exactly when the element has ended or failed. *)
Definition urlsAccounted (w : World C) : Prop :=
  length (objectUrls w) = length (audios w) ∧
  ∀ a x, audios w !! a = Some x →
         src x = a ∧ objectUrls w !! a = Some (negb (finished x)).

(** When the module variable is set, it holds the element created last, and
    that element is playing. *)
Definition currentIsNewest (w : World C) : Prop :=
  ∀ a, audioElement w = Some a →
       S a = length (audios w) ∧ ∃ x, audios w !! a = Some x ∧ live x = true.

(** Every [/tts] request carries the text and speaker type of an invocation,
    and the invocations still waiting for the probe have sent none. *)
Definition requestsAccounted (w : World C) : Prop :=
  count isPostTts (requests w) + count (fun t => awaitsProbe (t_state t)) (tasks w)
  ≤ length (tasks w) ∧
  Forall (fun r => match r with
                   | GetHealth => True
                   | PostTts text speaker =>
                       ∃ i t, tasks w !! i = Some t ∧
                              t_text t = text ∧ t_speakerType t = speaker
                   end) (requests w).

(** The host answers a request with a status in 200-299. *)
Definition answersOk (e : Event (C:=C)) : bool :=
  match e with
  | Host (Settle _ (Response status)) => ok status
  | _ => false
  end.

(** The remote path has never been entered. *)
Definition localOnly (w : World C) : Prop :=
  isEdgeTtsAvailable w ≠ Some true ∧
  Forall (fun t => t_state t = AwaitMemo false ∨ t_state t = AwaitHealth ∨
                   t_state t = Resolved) (tasks w) ∧
  Forall (fun r => r = GetHealth) (requests w) ∧
  audios w = [].

(** On a host without [speechSynthesis] whose server never answers, the trace
    holds one [Ended] for every resolved invocation and nothing else. *)
Definition endedOnce (k : nat) (w : World C) : Prop :=
  starts k w = 0 ∧
  ends k w = match t_state <$> tasks w !! k with
             | Some Resolved => 1
             | _ => 0
             end.

End MoreObservations.

(** What holds of a host without [speechSynthesis] while the server does not
    answer. *)
Definition muteInvariant {C : Type} (w : World C) : Prop :=
  localOnly w ∧ hasSpeechSynthesis w = false ∧ utterances w = [] ∧ indexed w ∧
  ∀ k, endedOnce k w.

(** How often the component has been told that the audio ended. *)
Definition endedCalls (tr : list (nat * Lifecycle)) : nat :=
  count (fun x => match snd x with Ended => true | Started => false end) tr.

(** * Properties *)

(** ** Strings *)

Lemma startsWith_spec (s k : string) :
  Str.startsWith s k = true ↔ ∃ post, s = (k ++ post)%string.
Proof.
  revert s. induction k as [|a k IH]; intros s; simpl.
  - split; [intros _; exists s; reflexivity | intros _; destruct s; reflexivity].
  - destruct s as [|b s]; simpl.
    + split; [discriminate | intros [post H]; discriminate H].
    + rewrite andb_true_iff, IH. split.
      * intros [Hab [post ->]]. apply Ascii.eqb_eq in Hab as ->.
        exists post. reflexivity.
      * intros [post H]. injection H as -> ->. split; [apply Ascii.eqb_refl|].
        exists post. reflexivity.
Qed.

(** [includes] is the substring test. *)
Lemma includes_spec (s k : string) :
  Str.includes s k = true ↔ ∃ pre post, s = (pre ++ k ++ post)%string.
Proof.
  induction s as [|c s IH]; cbn [Str.includes].
  - rewrite orb_false_r, startsWith_spec. split.
    + intros [post H]. exists EmptyString, post. exact H.
    + intros [pre [post H]]. destruct pre; simpl in H; [|discriminate H].
      exists post. exact H.
  - rewrite orb_true_iff, startsWith_spec, IH. split.
    + intros [[post H]|[pre [post H]]].
      * exists EmptyString, post. exact H.
      * exists (String c pre), post. simpl. rewrite H. reflexivity.
    + intros [pre [post H]]. destruct pre as [|d pre]; simpl in H.
      * left. exists post. exact H.
      * right. injection H as -> ->. exists pre, post. reflexivity.
Qed.

(** ** Voice selection *)

Lemma find_first {A : Type} (p : A -> bool) (l : list A) :
  (∃ l1 v l2, l = l1 ++ v :: l2 ∧ Forall (fun x => p x = false) l1 ∧
              p v = true ∧ List.find p l = Some v) ∨
  (Forall (fun x => p x = false) l ∧ List.find p l = None).
Proof.
  induction l as [|x l IH]; simpl.
  - right. split; [constructor | reflexivity].
  - destruct (p x) eqn:Hx.
    + left. exists [], x, l. repeat split; [constructor | exact Hx].
    + destruct IH as [(l1 & v & l2 & -> & Hl1 & Hv & Hf)|[Hl Hf]].
      * left. exists (x :: l1), v, l2. repeat split; try assumption.
        constructor; assumption.
      * right. split; [constructor; assumption | exact Hf].
Qed.

Lemma matchesAny_spec (keywords : list string) (v : SpeechSynthesisVoice) :
  Voices.matchesAny keywords v = true ↔
  ∃ k pre post, In k keywords ∧
    Str.toLowerCase (name v) = (pre ++ Str.toLowerCase k ++ post)%string.
Proof.
  unfold Voices.matchesAny. rewrite existsb_exists. split.
  - intros [k [Hin H]]. apply includes_spec in H as [pre [post H]].
    exists k, pre, post. split; assumption.
  - intros (k & pre & post & Hin & H). exists k. split; [exact Hin|].
    apply includes_spec. exists pre, post. exact H.
Qed.

Lemma pool_spec (voices : list SpeechSynthesisVoice) :
  Voices.pool voices =
  if existsb (fun v => String.eqb (lang v) "en-US") voices
  then List.filter (fun v => String.eqb (lang v) "en-US") voices
  else voices.
Proof.
  unfold Voices.pool, Voices.usVoices.
  induction voices as [|v vs IH]; simpl; [reflexivity|].
  destruct (String.eqb (lang v) "en-US"); simpl; [reflexivity|].
  destruct (List.filter _ vs) as [|u us] eqn:Hf.
  - destruct (existsb _ vs) eqn:He; [|reflexivity].
    apply existsb_exists in He as [x [Hin Hx]].
    assert (In x (List.filter (fun v => String.eqb (lang v) "en-US") vs)) as Hx'
      by (apply filter_In; split; assumption).
    rewrite Hf in Hx'. destruct Hx'.
  - destruct (existsb _ vs) eqn:He; [reflexivity|].
    assert (In u (List.filter (fun v => String.eqb (lang v) "en-US") vs)) as Hu
      by (rewrite Hf; left; reflexivity).
    apply filter_In in Hu as [Hin Hu].
    assert (existsb (fun v => String.eqb (lang v) "en-US") vs = true) as He'
      by (apply existsb_exists; exists u; split; assumption).
    congruence.
Qed.

Lemma keywordsFor_other (speakerType : string) :
  speakerType ≠ "female" → speakerType ≠ "male" →
  speakerType ≠ "lecturer" → speakerType ≠ "duo" →
  Voices.keywordsFor speakerType = None.
Proof.
  intros H1 H2 H3 H4. unfold Voices.keywordsFor.
  apply String.eqb_neq in H1, H2, H3, H4. rewrite H1, H2, H3, H4. reflexivity.
Qed.

(** C4 (as amended): the pool is restricted to the voices tagged [en-US]
    before any keyword is looked at (all voices when none is tagged so); in
    that pool the first voice, in the order of the pool, whose lower-cased name
    contains any keyword of the role is selected, whatever the keyword's rank
    in the list; when no voice of the pool matches, the first voice of the pool
    is selected.  A voice matches when its lower-cased name has a lower-cased
    keyword as a substring.  With the single voice "Microsoft Zira - English (United
    States)", role female selects it through the keyword "Zira" and role male,
    for which no keyword matches, falls back to it as the first of the pool. *)
Theorem selectVoice_first_in_pool_matching_any_keyword :
  ∀ (voices : list SpeechSynthesisVoice) (speakerType : string),
    let p := Voices.pool voices in
    p = (if existsb (fun v => String.eqb (lang v) "en-US") voices
         then List.filter (fun v => String.eqb (lang v) "en-US") voices
         else voices) ∧
    match Voices.keywordsFor speakerType with
    | Some keywords =>
        (∃ l1 v l2, p = l1 ++ v :: l2 ∧
                    Forall (fun x => Voices.matchesAny keywords x = false) l1 ∧
                    Voices.matchesAny keywords v = true ∧
                    Voices.selectVoice voices speakerType = Some v) ∨
        (Forall (fun x => Voices.matchesAny keywords x = false) p ∧
         Voices.selectVoice voices speakerType = head p)
    | None => Voices.selectVoice voices speakerType = head p
    end ∧
    (∀ keywords v,
        Voices.matchesAny keywords v = true ↔
        ∃ k pre post, In k keywords ∧
          Str.toLowerCase (name v) = (pre ++ Str.toLowerCase k ++ post)%string) ∧
    Voices.selectVoice [Scenario.zira] "female" = Some Scenario.zira ∧
    Str.includes (Str.toLowerCase (name Scenario.zira)) (Str.toLowerCase "Zira") = true ∧
    Voices.matchesAny Voices.maleKeywords Scenario.zira = false ∧
    Voices.selectVoice [Scenario.zira] "male" = head (Voices.pool [Scenario.zira]) ∧
    head (Voices.pool [Scenario.zira]) = Some Scenario.zira.
Proof.
  intros voices speakerType p. split; [apply pool_spec|].
  split; [|split; [exact matchesAny_spec | repeat split; vm_compute; reflexivity]].
  unfold Voices.selectVoice. fold p.
  destruct (Voices.keywordsFor speakerType) as [keywords|]; [|reflexivity].
  unfold Voices.findVoice.
  destruct (find_first (Voices.matchesAny keywords) p)
    as [(l1 & v & l2 & Hp & Hl1 & Hv & Hf)|[Hl Hf]]; rewrite Hf.
  - left. exists l1, v, l2. repeat split; assumption.
  - right. split; [assumption | reflexivity].
Qed.

(** C4, the claim as stated fails: a voice that matches a keyword loses to an
    [en-US] voice that matches none, and among two matching voices the one
    earlier in the list wins over the one with the better-ranked keyword. *)
Lemma selectVoice_not_keyword_first :
  ¬ (∀ voices speakerType,
        Voices.selectVoice voices speakerType = SpecVoices.selectVoice voices speakerType)
  ∧ Voices.matchesAny Voices.femaleKeywords Scenario.ukFemale = true
  ∧ Voices.matchesAny Voices.femaleKeywords Scenario.samantha = false
  ∧ Voices.selectVoice [Scenario.ukFemale; Scenario.samantha] "female"
    = Some Scenario.samantha
  ∧ SpecVoices.selectVoice [Scenario.ukFemale; Scenario.samantha] "female"
    = Some Scenario.ukFemale
  ∧ Voices.selectVoice [Scenario.zira; Scenario.aria] "female" = Some Scenario.zira
  ∧ SpecVoices.selectVoice [Scenario.zira; Scenario.aria] "female" = Some Scenario.aria.
Proof.
  split; [|repeat split; vm_compute; reflexivity].
  intros H. specialize (H [Scenario.ukFemale; Scenario.samantha] "female").
  vm_compute in H. discriminate H.
Qed.

(** ** Local synthesis *)

Section LocalSynthesis.

Context {C : Type}.
Implicit Types (w : World C) (cb : Callbacks C).

(** The voice list [playBrowserTts] works with (lines 145-147). *)
Lemma playBrowserTts_speaks w (text speakerType : string) cb :
  hasSpeechSynthesis w = true →
  let voices := if length (availableVoices w) =? 0
                then hostVoices w else availableVoices w in
  let w' := playBrowserTts text speakerType cb w in
  trace w' = trace w ∧ client w' = client w ∧ audios w' = audios w ∧
  tasks w' = tasks w ∧ requests w' = requests w ∧
  audioElement w' = audioElement w ∧
  utterances w' =
    (dequeue <$> utterances w) ++
    [mkUtterance text (9 # 10) (1 # 1) (Voices.selectVoice voices speakerType)
                 cb true false false].
Proof.
  intros Hcap. unfold playBrowserTts. rewrite Hcap. simpl.
  destruct (length (availableVoices w) =? 0); simpl; repeat split; reflexivity.
Qed.

Lemma playBrowserTts_mute w (text speakerType : string) cb :
  hasSpeechSynthesis w = false →
  playBrowserTts text speakerType cb w = invoke cb Ended w.
Proof. intros Hcap. unfold playBrowserTts. rewrite Hcap. reflexivity. Qed.

(** C10: for a [speakerType] that is none of female, male, lecturer and duo,
    no keyword list is consulted; the utterance is given the first voice of the
    pool (the first voice tagged [en-US] when there is one, the first voice of
    the list otherwise), rate 0.9 and pitch 1.0, and is handed to the
    synthesizer: no callback is called to report a failure. *)
Theorem unknown_speakerType_speaks_with_first_of_pool :
  ∀ w (text speakerType : string) cb,
    speakerType ≠ "female" → speakerType ≠ "male" →
    speakerType ≠ "lecturer" → speakerType ≠ "duo" →
    hasSpeechSynthesis w = true →
    let voices := if length (availableVoices w) =? 0
                  then hostVoices w else availableVoices w in
    let firstOfPool :=
      match Voices.usVoices voices with
      | v :: _ => Some v
      | [] => head voices
      end in
    let w' := playBrowserTts text speakerType cb w in
    Voices.keywordsFor speakerType = None ∧
    Voices.selectVoice voices speakerType = firstOfPool ∧
    utterances w' =
      (dequeue <$> utterances w) ++
      [mkUtterance text (9 # 10) (1 # 1) firstOfPool cb true false false] ∧
    trace w' = trace w ∧ client w' = client w.
Proof.
  intros w text speakerType cb H1 H2 H3 H4 Hcap voices firstOfPool w'.
  pose proof (keywordsFor_other speakerType H1 H2 H3 H4) as Hk.
  assert (Voices.selectVoice voices speakerType = firstOfPool) as Hsel.
  { unfold Voices.selectVoice. rewrite Hk. unfold Voices.pool, firstOfPool.
    destruct (Voices.usVoices voices); reflexivity. }
  destruct (playBrowserTts_speaks w text speakerType cb Hcap)
    as (Ht & Hc & _ & _ & _ & _ & Hu).
  fold voices in Hu. rewrite Hsel in Hu.
  repeat split; assumption.
Qed.

(** C5 (as amended): without [speechSynthesis] the attempt ends at once,
    [onEnd] is called and nothing is handed to any synthesizer; with
    [speechSynthesis] and no voice at all the utterance is still handed to the
    synthesizer, with no voice set, and [onEnd] is called only when the host
    reports the end or the failure of that utterance. *)
Theorem playBrowserTts_without_synthesis_or_voices :
  ∀ w (text speakerType : string) cb,
    (hasSpeechSynthesis w = false →
     let w' := playBrowserTts text speakerType cb w in
     trace w' = trace w ++ [(call cb, Ended)] ∧
     client w' = onEnd cb (client w) ∧
     utterances w' = utterances w ∧ audios w' = audios w) ∧
    (hasSpeechSynthesis w = true → availableVoices w = [] → hostVoices w = [] →
     let w' := playBrowserTts text speakerType cb w in
     let u := length (utterances w) in
     trace w' = trace w ∧ client w' = client w ∧
     utterances w' =
       (dequeue <$> utterances w) ++
       [mkUtterance text (9 # 10) (1 # 1) None cb true false false] ∧
     (∃ w1, hostStep (UttError u) w' = Some w1 ∧
            trace w1 = trace w ++ [(call cb, Ended)]) ∧
     (∃ w1 w2, hostStep (UttStart u) w' = Some w1 ∧
               hostStep (UttEnd u) w1 = Some w2 ∧
               trace w2 = trace w ++ [(call cb, Started); (call cb, Ended)])).
Proof.
  intros w text speakerType cb. split.
  - intros Hcap. rewrite (playBrowserTts_mute _ _ _ _ Hcap). simpl.
    repeat split; reflexivity.
  - intros Hcap Hav Hhost w' u.
    destruct (playBrowserTts_speaks w text speakerType cb Hcap)
      as (Ht & Hc & _ & _ & _ & _ & Hu).
    fold w' in Ht, Hc, Hu. rewrite Hav, Hhost in Hu. simpl in Hu.
    assert (Voices.selectVoice [] speakerType = None) as Hnone.
    { unfold Voices.selectVoice, Voices.findVoice.
      destruct (Voices.keywordsFor speakerType); reflexivity. }
    rewrite Hnone in Hu.
    assert (utterances w' !! u =
            Some (mkUtterance text (9 # 10) (1 # 1) None cb true false false)) as Hlook.
    { rewrite Hu. unfold u. rewrite lookup_app_r by (rewrite length_fmap; lia).
      rewrite length_fmap, Nat.sub_diag. reflexivity. }
    repeat split; try assumption.
    + eexists. split.
      * simpl. rewrite Hlook. simpl. reflexivity.
      * simpl. rewrite Ht. reflexivity.
    + eexists. eexists. split; [|split].
      * simpl. rewrite Hlook. simpl. reflexivity.
      * simpl. rewrite list_lookup_alter_eq, Hlook. simpl. reflexivity.
      * simpl. rewrite Ht, <- app_assoc. reflexivity.
Qed.

End LocalSynthesis.

(** Witness for C10: the speaker type "narrator" on a host whose voices are
    the UK voice and Zira. *)
Lemma unknown_speakerType_witness :
  utterances (playBrowserTts "passage" "narrator" Scenario.counting
                (init (0, 0) true [Scenario.ukFemale; Scenario.zira])) =
  [mkUtterance "passage" (9 # 10) (1 # 1) (Some Scenario.zira) Scenario.counting
               true false false].
Proof.
  refine (proj1 (proj2 (proj2
    (unknown_speakerType_speaks_with_first_of_pool
       (init (0, 0) true [Scenario.ukFemale; Scenario.zira])
       "passage" "narrator" Scenario.counting _ _ _ _ _))));
    try discriminate; reflexivity.
Defined.

(** Witness for C5: a host without [speechSynthesis], and a host with it and
    without voices. *)
Lemma playBrowserTts_without_synthesis_or_voices_witness :
  trace (playBrowserTts "passage" "female" Scenario.counting Scenario.muteHost)
  = [(0, Ended)] ∧
  trace (playBrowserTts "passage" "female" Scenario.counting Scenario.voicelessHost)
  = [].
Proof.
  split.
  - exact (proj1 (proj1 (playBrowserTts_without_synthesis_or_voices
                           Scenario.muteHost "passage" "female" Scenario.counting)
                        eq_refl)).
  - exact (proj1 (proj2 (playBrowserTts_without_synthesis_or_voices
                           Scenario.voicelessHost "passage" "female" Scenario.counting)
                        eq_refl eq_refl eq_refl)).
Defined.

(** C5, the claim as stated fails: with [speechSynthesis] present and an empty
    voice list, [onEnd] is not called when the attempt is made; the utterance
    waits in the synthesizer's queue. *)
Lemma empty_voice_list_does_not_end_at_once :
  ¬ (∀ (w : World (nat * nat)) (text speakerType : string) cb,
        availableVoices w = [] → hostVoices w = [] →
        ends (call cb) (playBrowserTts text speakerType cb w) = S (ends (call cb) w))
  ∧ (∃ w, run Scenario.serverDown Scenario.voicelessHost = Some w ∧
          trace w = [] ∧ client w = (0, 0) ∧
          (queued <$> utterances w) = [true] ∧ (voice <$> utterances w) = [None]).
Proof.
  split.
  - intros H.
    specialize (H Scenario.voicelessHost "passage" "female" Scenario.counting
                  eq_refl eq_refl).
    vm_compute in H. discriminate H.
  - eexists. split; [vm_compute; reflexivity|]. repeat split.
Qed.

(** ** What each function of the module touches *)

Section Frames.

Context {C : Type}.
Implicit Types (w : World C) (cb : Callbacks C).

Lemma stopNativeTts_spec w :
  let w' := stopNativeTts w in
  audioElement w' = None ∧
  audios w' = match audioElement w with
              | Some a => alter (fun x => seek 0 (pause x)) a (audios w)
              | None => audios w
              end ∧
  utterances w' = (if hasSpeechSynthesis w then dequeue <$> utterances w
                   else utterances w) ∧
  client w' = client w ∧ trace w' = trace w ∧ tasks w' = tasks w ∧
  requests w' = requests w ∧ isEdgeTtsAvailable w' = isEdgeTtsAvailable w ∧
  objectUrls w' = objectUrls w ∧ hasSpeechSynthesis w' = hasSpeechSynthesis w ∧
  availableVoices w' = availableVoices w ∧ hostVoices w' = hostVoices w.
Proof.
  unfold stopNativeTts.
  destruct (audioElement w) eqn:Ha; simpl;
    destruct (hasSpeechSynthesis w) eqn:Hcap; simpl;
    repeat split; auto.
Qed.

Lemma playNativeTts_spec w (text speakerType : string) (s e : C -> C) :
  let w' := playNativeTts text speakerType s e w in
  let st := match isEdgeTtsAvailable w with
            | Some b => AwaitMemo b
            | None => AwaitHealth
            end in
  tasks w' = tasks w ++
             [mkTask text speakerType (mkCallbacks (length (tasks w)) s e) st] ∧
  requests w' = requests w ++ match isEdgeTtsAvailable w with
                              | Some _ => []
                              | None => [GetHealth]
                              end ∧
  audioElement w' = None ∧
  audios w' = audios (stopNativeTts w) ∧
  utterances w' = utterances (stopNativeTts w) ∧
  client w' = client w ∧ trace w' = trace w ∧
  isEdgeTtsAvailable w' = isEdgeTtsAvailable w ∧
  objectUrls w' = objectUrls w ∧ hasSpeechSynthesis w' = hasSpeechSynthesis w.
Proof.
  destruct (stopNativeTts_spec w)
    as (Ha & _ & _ & Hc & Ht & Hk & Hr & He & Ho & Hh & _ & _).
  unfold playNativeTts, checkEdgeTtsAvailability. rewrite He.
  destruct (isEdgeTtsAvailable w); simpl; rewrite ?Hk, ?Hr, ?app_nil_r;
    repeat split; auto.
Qed.

(** *** Invariants carried by the callbacks *)

Section CallbackInvariant.

Variable P : Callbacks C -> Prop.
Variable Q : C -> Prop.
Hypothesis P_onStart : ∀ cb c, P cb → Q c → Q (onStart cb c).
Hypothesis P_onEnd : ∀ cb c, P cb → Q c → Q (onEnd cb c).

Local Abbreviation G := (callbackInvariant P Q).

Lemma G_invoke cb ev w : P cb → G w → G (invoke cb ev w).
Proof.
  intros Hcb [Hw Hq]. split; [exact Hw|]. simpl.
  destruct ev; [apply P_onStart | apply P_onEnd]; assumption.
Qed.

Lemma G_cancel w : G w → G (cancel w).
Proof.
  intros [(Ht & Ha & Hu) Hq]. split; [|exact Hq]. repeat split; simpl; auto.
  apply Forall_fmap. exact Hu.
Qed.

Lemma G_stopNativeTts w : G w → G (stopNativeTts w).
Proof.
  intros [(Ht & Ha & Hu) Hq].
  destruct (stopNativeTts_spec w)
    as (_ & Ha' & Hu' & Hc & _ & Hk & _).
  split; [|rewrite Hc; exact Hq]. unfold callbacksSatisfy.
  rewrite Hk, Ha', Hu'. repeat split; [exact Ht | |].
  - destruct (audioElement w); [|exact Ha].
    apply Forall_alter; [exact Ha | intros x _ Hx; exact Hx].
  - destruct (hasSpeechSynthesis w); [|exact Hu].
    apply Forall_fmap. exact Hu.
Qed.

Lemma G_playBrowserTts w (text speakerType : string) cb :
  P cb → G w → G (playBrowserTts text speakerType cb w).
Proof.
  intros Hcb Hw. unfold playBrowserTts.
  destruct (hasSpeechSynthesis w); simpl; [|apply G_invoke; assumption].
  destruct Hw as [(Ht & Ha & Hu) Hq].
  destruct (length (availableVoices w) =? 0); simpl;
    (split; [|exact Hq]); repeat split; simpl; auto;
    apply Forall_app; (split; [apply Forall_fmap; exact Hu|]);
    constructor; [exact Hcb | constructor | exact Hcb | constructor].
Qed.

Lemma G_set_state task st w : G w → G (set_state task st w).
Proof.
  intros [(Ht & Ha & Hu) Hq]. split; [|exact Hq]. repeat split; simpl; auto.
  apply Forall_alter; [exact Ht | intros x _ Hx; exact Hx].
Qed.

Lemma G_tryEdge task (t : Task C) (r : World C * Completion) :
  P (t_callbacks t) → G r.1 → G (tryEdge task t r).
Proof.
  intros Hcb Hw. destruct r as [w [st| |]]; simpl in *;
    apply G_set_state; [assumption | assumption |].
  apply G_playBrowserTts; assumption.
Qed.

Lemma G_dispatch task (t : Task C) (b : bool) w :
  P (t_callbacks t) → G w → G (playNativeTts_dispatch task t b w).
Proof.
  intros Hcb Hw. unfold playNativeTts_dispatch. destruct b.
  - apply G_tryEdge; [exact Hcb|]. simpl.
    destruct Hw as [Hw Hq]. split; [exact Hw | exact Hq].
  - apply G_set_state, G_playBrowserTts; assumption.
Qed.

Lemma G_response (s : Settlement) w r :
  G w → playEdgeTts_response s w = Some r → G r.1.
Proof.
  intros Hw. destruct s as [status| |]; simpl; try discriminate.
  - destruct (negb (ok status)); intros [= <-]; exact Hw.
  - intros [= <-]. exact Hw.
Qed.

Lemma G_blob cb (s : Settlement) w r :
  P cb → G w → playEdgeTts_blob cb s w = Some r → G r.1.
Proof.
  intros Hcb Hw. destruct s; simpl; try discriminate; intros [= <-]; [|exact Hw].
  destruct Hw as [(Ht & Ha & Hu) Hq]. split; [|exact Hq].
  repeat split; simpl; auto.
  apply Forall_alter; [|intros x _ Hx; exact Hx].
  apply Forall_app. split; [exact Ha|]. constructor; [exact Hcb | constructor].
Qed.

Lemma G_played (s : Settlement) w r :
  G w → playEdgeTts_played s w = Some r → G r.1.
Proof.
  intros Hw. destruct s; simpl; try discriminate; intros [= <-]; exact Hw.
Qed.

Lemma G_resume task (s : Settlement) w w' :
  G w → resume task s w = Some w' → G w'.
Proof.
  intros Hw. unfold resume.
  destruct (tasks w !! task) as [t|] eqn:Hlook; simpl; [|discriminate].
  assert (P (t_callbacks t)) as Hcb.
  { destruct Hw as [(Ht & _) _].
    exact (Forall_lookup_1 _ _ _ _ Ht Hlook). }
  destruct (t_state t) eqn:Hst.
  - destruct s; try discriminate. intros [= <-]. apply G_dispatch; assumption.
  - destruct (checkEdgeTtsAvailability_settled s w) as [[w1 b]|] eqn:Hs;
      simpl; [|discriminate].
    intros [= <-]. apply G_dispatch; [assumption|].
    destruct s; simpl in Hs; inversion Hs; subst; exact Hw.
  - destruct (playEdgeTts_response s w) as [r|] eqn:Hr; simpl; [|discriminate].
    intros [= <-]. apply G_tryEdge; [assumption|]. exact (G_response _ _ _ Hw Hr).
  - destruct (playEdgeTts_blob (t_callbacks t) s w) as [r|] eqn:Hr;
      simpl; [|discriminate].
    intros [= <-]. apply G_tryEdge; [assumption|]. exact (G_blob _ _ _ _ Hcb Hw Hr).
  - destruct (playEdgeTts_played s w) as [r|] eqn:Hr; simpl; [|discriminate].
    intros [= <-]. apply G_tryEdge; [assumption|]. exact (G_played _ _ _ Hw Hr).
  - discriminate.
  - discriminate.
Qed.

Lemma G_hostStep (h : HostEvent) w w' : G w → hostStep h w = Some w' → G w'.
Proof.
  intros Hw. destruct h as [task s|vs|a|a|a|a t|u|u|u]; simpl.
  - apply G_resume. exact Hw.
  - destruct (hasSpeechSynthesis w) eqn:Hcap; [|discriminate]. intros [= <-].
    unfold loadVoices. simpl. rewrite Hcap. exact Hw.
  - destruct (audios w !! a) as [x|] eqn:Hlook; simpl; [|discriminate].
    destruct (negb (dispatchedPlay x)); [|discriminate]. intros [= <-].
    destruct Hw as [(Ht & Ha & Hu) Hq].
    apply G_invoke; [exact (Forall_lookup_1 _ _ _ _ Ha Hlook)|].
    split; [|exact Hq]. repeat split; simpl; auto.
    apply Forall_alter; [exact Ha | intros y _ Hy; exact Hy].
  - destruct (audios w !! a) as [x|] eqn:Hlook; simpl; [|discriminate].
    destruct (dispatchedPlay x && negb (paused x) && negb (finished x));
      [|discriminate]. intros [= <-].
    destruct Hw as [(Ht & Ha & Hu) Hq].
    apply G_invoke; [exact (Forall_lookup_1 _ _ _ _ Ha Hlook)|].
    split; [|exact Hq]. repeat split; simpl; auto.
    apply Forall_alter; [exact Ha | intros y _ Hy; exact Hy].
  - destruct (audios w !! a) as [x|] eqn:Hlook; simpl; [|discriminate].
    destruct (negb (finished x)); [|discriminate]. intros [= <-].
    destruct Hw as [(Ht & Ha & Hu) Hq].
    apply G_invoke; [exact (Forall_lookup_1 _ _ _ _ Ha Hlook)|].
    split; [|exact Hq]. repeat split; simpl; auto.
    apply Forall_alter; [exact Ha | intros y _ Hy; exact Hy].
  - destruct (audios w !! a) as [x|] eqn:Hlook; simpl; [|discriminate].
    destruct (dispatchedPlay x && negb (paused x) && negb (finished x));
      [|discriminate]. intros [= <-].
    destruct Hw as [(Ht & Ha & Hu) Hq].
    split; [|exact Hq]. repeat split; simpl; auto.
    apply Forall_alter; [exact Ha | intros y _ Hy; exact Hy].
  - destruct (utterances w !! u) as [x|] eqn:Hlook; simpl; [|discriminate].
    destruct (queued x && negb (dispatchedStart x) && negb (dispatchedEnd x));
      [|discriminate]. intros [= <-].
    destruct Hw as [(Ht & Ha & Hu) Hq].
    apply G_invoke; [exact (Forall_lookup_1 _ _ _ _ Hu Hlook)|].
    split; [|exact Hq]. repeat split; simpl; auto.
    apply Forall_alter; [exact Hu | intros y _ Hy; exact Hy].
  - destruct (utterances w !! u) as [x|] eqn:Hlook; simpl; [|discriminate].
    destruct (dispatchedStart x && negb (dispatchedEnd x)); [|discriminate].
    intros [= <-].
    destruct Hw as [(Ht & Ha & Hu) Hq].
    apply G_invoke; [exact (Forall_lookup_1 _ _ _ _ Hu Hlook)|].
    split; [|exact Hq]. repeat split; simpl; auto.
    apply Forall_alter; [exact Hu | intros y _ Hy; exact Hy].
  - destruct (utterances w !! u) as [x|] eqn:Hlook; simpl; [|discriminate].
    destruct (negb (dispatchedEnd x)); [|discriminate]. intros [= <-].
    destruct Hw as [(Ht & Ha & Hu) Hq].
    apply G_invoke; [exact (Forall_lookup_1 _ _ _ _ Hu Hlook)|].
    split; [|exact Hq]. repeat split; simpl; auto.
    apply Forall_alter; [exact Hu | intros y _ Hy; exact Hy].
Qed.

Lemma G_playNativeTts w (text speakerType : string) (s e : C -> C) :
  (∀ n, P (mkCallbacks n s e)) → G w → G (playNativeTts text speakerType s e w).
Proof.
  intros Hcb Hw. apply G_stopNativeTts in Hw. destruct Hw as [(Ht & Ha & Hu) Hq].
  destruct (playNativeTts_spec w text speakerType s e)
    as (Hk & _ & _ & Ha' & Hu' & Hc & _).
  destruct (stopNativeTts_spec w) as (_ & _ & _ & Hc0 & _ & Hk0 & _).
  split; [|rewrite Hc, <- Hc0; exact Hq].
  unfold callbacksSatisfy. rewrite Hk, Ha', Hu'. repeat split; auto.
  apply Forall_app. split; [rewrite <- Hk0; exact Ht|].
  constructor; [apply Hcb | constructor].
Qed.

End CallbackInvariant.

End Frames.

(** ** The component *)

Module PlayerFacts.

Import Player PlayerInv.

(** C7: a play action is taken only in the states Idle and Finished: the
    component then shows Loading and the controller is invoked once, for the
    current text and speaker type, without any callback having run; in the
    states Loading and Speaking the action changes nothing at all, so no
    request is queued and the controller is not invoked. *)
Theorem handlePlay_only_when_idle_or_finished :
  ∀ w : World AudioPlayer,
    match playbackState (client w) with
    | Idle | Finished =>
        playbackState (client (handlePlay w)) = Loading ∧
        (∃ s e st,
            tasks (handlePlay w) =
            tasks w ++ [mkTask (props_text (client w)) (props_speakerType (client w))
                               (mkCallbacks (length (tasks w)) s e) st]) ∧
        trace (handlePlay w) = trace w
    | Loading | Speaking => handlePlay w = w
    end.
Proof.
  intros w.
  destruct (playNativeTts_spec (set_client (setIsLoading true) w)
              (props_text (client w)) (props_speakerType (client w))
              handleStart handleEnd)
    as (Hk & _ & _ & _ & _ & Hc & Ht & _).
  unfold handlePlay. unfold playbackState at 1.
  destruct (isLoading (client w)) eqn:Hl; [rewrite orb_true_r; reflexivity|].
  destruct (isPlaying (client w)) eqn:Hp; simpl; [reflexivity|].
  destruct (hasPlayed (client w)) eqn:Hh;
    (split; [unfold playbackState; rewrite Hc; reflexivity|]);
    (split; [|exact Ht]); rewrite Hk; simpl; eauto.
Qed.

(** C8: when the text changes, the effect stops the controller and resets the
    component in one step of the event loop: the three flags are cleared, the
    state shown is Idle, the module holds no audio element, the element it
    held is paused and rewound, the synthesizer's queue is empty; no playback
    request is made and no callback runs in that step. *)
Theorem textChanged_stops_and_resets :
  ∀ (t : string) (w : World AudioPlayer),
    let w' := textChanged t w in
    isPlaying (client w') = false ∧ isLoading (client w') = false ∧
    hasPlayed (client w') = false ∧ playbackState (client w') = Idle ∧
    props_text (client w') = t ∧
    w' = stopNativeTts (set_client (fun p => resetState (setText t p)) w) ∧
    audioElement w' = None ∧
    (∀ a x, audioElement w = Some a → audios w !! a = Some x →
            ∃ x', audios w' !! a = Some x' ∧ paused x' = true ∧ currentTime x' = 0) ∧
    (hasSpeechSynthesis w = true → Forall (fun u => queued u = false) (utterances w')) ∧
    tasks w' = tasks w ∧ requests w' = requests w ∧ trace w' = trace w.
Proof.
  intros t w w'. unfold w', textChanged.
  destruct (stopNativeTts_spec (set_client (fun p => resetState (setText t p)) w))
    as (Ha & Hau & Hu & Hc & Ht & Hk & Hr & _).
  rewrite Hc, Ha, Hau, Hu, Hk, Hr, Ht. simpl.
  repeat split.
  - intros a x Hcur Hlook. rewrite Hcur, list_lookup_alter_eq, Hlook. simpl.
    eexists. repeat split.
  - intros ->. apply Forall_fmap, Forall_forall. intros u _. reflexivity.
Qed.

(** *** The two flags *)

Lemma handleStart_exclusive p : flagsExclusive (handleStart p).
Proof. intros [H _]. discriminate H. Qed.

Lemma handleEnd_exclusive p : flagsExclusive p → flagsExclusive (handleEnd p).
Proof. intros _ [_ H]. discriminate H. Qed.

Lemma handleRejected_exclusive p : flagsExclusive (handleRejected p).
Proof. intros [H _]. discriminate H. Qed.

Lemma resetState_exclusive p : flagsExclusive (resetState p).
Proof. intros [H _]. discriminate H. Qed.

Lemma fromPlayer_onStart cb p :
  fromPlayer cb → flagsExclusive p → flagsExclusive (onStart cb p).
Proof. intros [-> _] _. apply handleStart_exclusive. Qed.

Lemma fromPlayer_onEnd cb p :
  fromPlayer cb → flagsExclusive p → flagsExclusive (onEnd cb p).
Proof. intros [_ ->]. apply handleEnd_exclusive. Qed.

Lemma handlePlay_wellFormed w : wellFormed w → wellFormed (handlePlay w).
Proof.
  intros Hw. unfold handlePlay.
  destruct (isPlaying (client w) || isLoading (client w)) eqn:Hbusy; [exact Hw|].
  apply orb_false_iff in Hbusy as [Hp Hl].
  apply (G_playNativeTts fromPlayer flagsExclusive).
  - intros n. split; reflexivity.
  - destruct Hw as [Hown _]. split; [exact Hown|].
    simpl. intros [_ H]. simpl in H. congruence.
Qed.

Lemma textChanged_wellFormed t w : wellFormed w → wellFormed (textChanged t w).
Proof.
  intros [Hown _]. unfold textChanged.
  apply (G_stopNativeTts fromPlayer flagsExclusive).
  split; [exact Hown|]. simpl. intros [H _]. discriminate H.
Qed.

Lemma afterAwait_wellFormed h w : wellFormed w → wellFormed (afterAwait h w).
Proof.
  intros Hw. unfold afterAwait. destruct h; try exact Hw.
  destruct (t_state <$> tasks w !! task) as [[]|]; try exact Hw.
  destruct Hw as [Hown _]. split; [exact Hown|]. apply handleRejected_exclusive.
Qed.

Lemma uiStep_wellFormed e w w' : wellFormed w → uiStep e w = Some w' → wellFormed w'.
Proof.
  intros Hw. destruct e as [|t|h]; simpl.
  - intros [= <-]. apply handlePlay_wellFormed, Hw.
  - intros [= <-]. apply textChanged_wellFormed, Hw.
  - destruct (hostStep h w) as [w1|] eqn:Hh; simpl; [|discriminate].
    intros [= <-]. apply afterAwait_wellFormed.
    exact (G_hostStep fromPlayer flagsExclusive fromPlayer_onStart fromPlayer_onEnd
                      h w w1 Hw Hh).
Qed.

Lemma uiRun_wellFormed es w w' : wellFormed w → uiRun es w = Some w' → wellFormed w'.
Proof.
  revert w. induction es as [|e es IH]; intros w Hw; simpl.
  - intros [= <-]. exact Hw.
  - destruct (uiStep e w) as [w1|] eqn:He; simpl; [|discriminate].
    apply IH. exact (uiStep_wellFormed _ _ _ Hw He).
Qed.

Lemma mount_wellFormed text speakerType has vs :
  wellFormed (mount text speakerType has vs).
Proof.
  unfold mount, init, loadVoices. simpl.
  destruct has; simpl; (split; [repeat split; constructor|]);
    intros [H _]; discriminate H.
Qed.

(** C9: [isLoading] and [isPlaying] are never both true.  They are both false
    when the component is mounted, each of the five places that write them
    (the play action, the start and end callbacks, the rejection handler, the
    reset on a text change) keeps them exclusive, and so does every run of the
    component against any behaviour of the host. *)
Theorem isLoading_isPlaying_exclusive :
  ∀ (text speakerType : string) (has : bool) (vs : list SpeechSynthesisVoice)
    (es : list UiEvent) (w : World AudioPlayer),
    uiRun es (mount text speakerType has vs) = Some w →
    flagsExclusive (client w) ∧
    flagsExclusive (client (mount text speakerType has vs)) ∧
    flagsExclusive (client (handlePlay w)) ∧
    flagsExclusive (handleStart (client w)) ∧
    flagsExclusive (handleEnd (client w)) ∧
    flagsExclusive (handleRejected (client w)) ∧
    (∀ t, flagsExclusive (client (textChanged t w))).
Proof.
  intros text speakerType has vs es w Hrun.
  pose proof (uiRun_wellFormed es _ w (mount_wellFormed text speakerType has vs) Hrun)
    as Hw.
  split; [exact (proj2 Hw)|].
  split; [exact (proj2 (mount_wellFormed text speakerType has vs))|].
  split; [exact (proj2 (handlePlay_wellFormed w Hw))|].
  split; [apply handleStart_exclusive|].
  split; [apply handleEnd_exclusive; exact (proj2 Hw)|].
  split; [apply handleRejected_exclusive|].
  intros t. exact (proj2 (textChanged_wellFormed t w Hw)).
Qed.

(** Witness for C9: a passage is requested twice around a change of text. *)
Lemma isLoading_isPlaying_exclusive_witness :
  ∃ w, uiRun Scenario.clickChangeClick
             (mount "passage" "female" true [Scenario.zira]) = Some w ∧
       flagsExclusive (client w).
Proof.
  eexists. split; [vm_compute; reflexivity|].
  refine (proj1 (isLoading_isPlaying_exclusive
                   "passage" "female" true [Scenario.zira]
                   Scenario.clickChangeClick _ _)).
  vm_compute. reflexivity.
Defined.

End PlayerFacts.

(** ** Fallback from the remote to the local path *)

Section Fallback.

Context {C : Type}.
Implicit Types (w : World C) (cb : Callbacks C).

Lemma playBrowserTts_frame w (text speakerType : string) cb :
  let w' := playBrowserTts text speakerType cb w in
  tasks w' = tasks w ∧ audios w' = audios w ∧ requests w' = requests w ∧
  audioElement w' = audioElement w ∧ objectUrls w' = objectUrls w ∧
  isEdgeTtsAvailable w' = isEdgeTtsAvailable w ∧
  hasSpeechSynthesis w' = hasSpeechSynthesis w.
Proof.
  unfold playBrowserTts. destruct (hasSpeechSynthesis w) eqn:Hcap; simpl.
  - destruct (length (availableVoices w) =? 0); simpl; repeat split; auto.
  - repeat split; auto.
Qed.

Lemma set_state_lookup task st w t :
  tasks w !! task = Some t →
  tasks (set_state task st w) !! task = Some (withState st t).
Proof. intros H. simpl. rewrite list_lookup_alter_eq, H. reflexivity. Qed.

(** A failed remote attempt runs [playBrowserTts] and the invocation is
    resolved. *)
Lemma resume_remoteFailure w task (t : Task C) (s : Settlement) :
  tasks w !! task = Some t → remoteFailure (t_state t) s = true →
  resume task s w =
  Some (set_state task Resolved
          (playBrowserTts (t_text t) (t_speakerType t) (t_callbacks t) w)).
Proof.
  intros Hlook Hfail. unfold resume. rewrite Hlook. simpl.
  destruct (t_state t); destruct s as [status| |]; simpl in *;
    try discriminate; try reflexivity.
  rewrite Hfail. reflexivity.
Qed.

Lemma noneRejected_set_state task st w :
  st ≠ Rejected → noneRejected w → noneRejected (set_state task st w).
Proof.
  intros Hst Hw. unfold noneRejected. simpl.
  apply Forall_alter; [exact Hw | intros x _ _; exact Hst].
Qed.

Lemma noneRejected_tryEdge task (t : Task C) (r : World C * Completion) :
  r.2 ≠ Suspended Rejected → noneRejected r.1 → noneRejected (tryEdge task t r).
Proof.
  intros Hr Hw. destruct r as [w [st| |]]; simpl in *.
  - apply noneRejected_set_state; [congruence | exact Hw].
  - apply noneRejected_set_state; [discriminate | exact Hw].
  - apply noneRejected_set_state; [discriminate|].
    unfold noneRejected.
    rewrite (proj1 (playBrowserTts_frame w (t_text t) (t_speakerType t) (t_callbacks t))).
    exact Hw.
Qed.

Lemma noneRejected_dispatch task (t : Task C) (b : bool) w :
  noneRejected w → noneRejected (playNativeTts_dispatch task t b w).
Proof.
  intros Hw. unfold playNativeTts_dispatch. destruct b.
  - apply noneRejected_tryEdge; [discriminate | exact Hw].
  - apply noneRejected_set_state; [discriminate|].
    unfold noneRejected.
    rewrite (proj1 (playBrowserTts_frame w (t_text t) (t_speakerType t) (t_callbacks t))).
    exact Hw.
Qed.

Lemma noneRejected_resume task (s : Settlement) w w' :
  noneRejected w → resume task s w = Some w' → noneRejected w'.
Proof.
  intros Hw. unfold resume.
  destruct (tasks w !! task) as [t|] eqn:Hlook; simpl; [|discriminate].
  destruct (t_state t) eqn:Hst.
  - destruct s; try discriminate. intros [= <-]. apply noneRejected_dispatch, Hw.
  - destruct (checkEdgeTtsAvailability_settled s w) as [[w1 b]|] eqn:Hs;
      simpl; [|discriminate].
    intros [= <-]. apply noneRejected_dispatch.
    destruct s; simpl in Hs; inversion Hs; subst; exact Hw.
  - destruct (playEdgeTts_response s w) as [r|] eqn:Hr; simpl; [|discriminate].
    intros [= <-]. destruct s as [status| |]; simpl in Hr; try discriminate.
    + destruct (negb (ok status)); inversion Hr; subst;
        apply noneRejected_tryEdge; try discriminate; exact Hw.
    + inversion Hr; subst. apply noneRejected_tryEdge; [discriminate | exact Hw].
  - destruct (playEdgeTts_blob (t_callbacks t) s w) as [r|] eqn:Hr;
      simpl; [|discriminate].
    intros [= <-]. destruct s; simpl in Hr; try discriminate;
      inversion Hr; subst; apply noneRejected_tryEdge; try discriminate; exact Hw.
  - destruct (playEdgeTts_played s w) as [r|] eqn:Hr; simpl; [|discriminate].
    intros [= <-]. destruct s; simpl in Hr; try discriminate;
      inversion Hr; subst; apply noneRejected_tryEdge; try discriminate; exact Hw.
  - discriminate.
  - discriminate.
Qed.

Lemma noneRejected_step (e : Event) w w' :
  noneRejected w → step e w = Some w' → noneRejected w'.
Proof.
  intros Hw. destruct e as [text speakerType s e| |h]; simpl.
  - intros [= <-]. unfold noneRejected.
    rewrite (proj1 (playNativeTts_spec w text speakerType s e)).
    apply Forall_app. split; [exact Hw|].
    constructor; [|constructor]. simpl. destruct (isEdgeTtsAvailable w); discriminate.
  - intros [= <-]. unfold noneRejected.
    destruct (stopNativeTts_spec w) as (_ & _ & _ & _ & _ & Hk & _).
    rewrite Hk. exact Hw.
  - destruct h as [task s|vs|a|a|a|a t|u|u|u]; simpl.
    + apply noneRejected_resume, Hw.
    + destruct (hasSpeechSynthesis w) eqn:Hcap; [|discriminate]. intros [= <-].
      unfold loadVoices. simpl. rewrite Hcap. exact Hw.
    + destruct (audios w !! a) as [x|]; simpl; [|discriminate].
      destruct (negb (dispatchedPlay x)); [|discriminate]. intros [= <-]. exact Hw.
    + destruct (audios w !! a) as [x|]; simpl; [|discriminate].
      destruct (dispatchedPlay x && negb (paused x) && negb (finished x));
        [|discriminate]. intros [= <-]. exact Hw.
    + destruct (audios w !! a) as [x|]; simpl; [|discriminate].
      destruct (negb (finished x)); [|discriminate]. intros [= <-]. exact Hw.
    + destruct (audios w !! a) as [x|]; simpl; [|discriminate].
      destruct (dispatchedPlay x && negb (paused x) && negb (finished x));
        [|discriminate]. intros [= <-]. exact Hw.
    + destruct (utterances w !! u) as [x|]; simpl; [|discriminate].
      destruct (queued x && negb (dispatchedStart x) && negb (dispatchedEnd x));
        [|discriminate]. intros [= <-]. exact Hw.
    + destruct (utterances w !! u) as [x|]; simpl; [|discriminate].
      destruct (dispatchedStart x && negb (dispatchedEnd x)); [|discriminate].
      intros [= <-]. exact Hw.
    + destruct (utterances w !! u) as [x|]; simpl; [|discriminate].
      destruct (negb (dispatchedEnd x)); [|discriminate]. intros [= <-]. exact Hw.
Qed.

(** [playNativeTts] never rejects, whatever the host does. *)
Lemma playNativeTts_never_rejects (es : list Event) w w' :
  noneRejected w → run es w = Some w' → noneRejected w'.
Proof.
  revert w. induction es as [|e es IH]; intros w Hw; simpl.
  - intros [= <-]. exact Hw.
  - destruct (step e w) as [w1|] eqn:He; simpl; [|discriminate].
    apply IH. exact (noneRejected_step _ _ _ Hw He).
Qed.

Lemma init_noneRejected (c : C) has vs : noneRejected (init c has vs).
Proof. unfold init, loadVoices. simpl. destruct has; constructor. Qed.

(** C3: when the remote attempt of an invocation fails (the [/tts] request is
    rejected or answered with a status outside 200-299, the payload cannot be
    read, or the element's [play()] is rejected), the same invocation runs the
    local synthesis with the same text and speaker type and is resolved: with
    [speechSynthesis] the utterance for that text is queued, without it
    [onEnd] is called.  No invocation is ever rejected. *)
Theorem remote_failure_falls_back_to_local :
  ∀ w task (t : Task C) (s : Settlement),
    tasks w !! task = Some t → remoteFailure (t_state t) s = true →
    ∃ w',
      hostStep (Settle task s) w = Some w' ∧
      w' = set_state task Resolved
             (playBrowserTts (t_text t) (t_speakerType t) (t_callbacks t) w) ∧
      t_state <$> tasks w' !! task = Some Resolved ∧
      (hasSpeechSynthesis w = true →
       let voices := if length (availableVoices w) =? 0
                     then hostVoices w else availableVoices w in
       utterances w' =
         (dequeue <$> utterances w) ++
         [mkUtterance (t_text t) (9 # 10) (1 # 1)
                      (Voices.selectVoice voices (t_speakerType t))
                      (t_callbacks t) true false false] ∧
       trace w' = trace w) ∧
      (hasSpeechSynthesis w = false →
       trace w' = trace w ++ [(call (t_callbacks t), Ended)] ∧
       utterances w' = utterances w) ∧
      (∀ es w0 w1, noneRejected w0 → run es w0 = Some w1 → noneRejected w1).
Proof.
  intros w task t s Hlook Hfail. eexists. split; [|split; [reflexivity|]].
  - simpl. apply resume_remoteFailure; assumption.
  - split; [|split; [|split]].
    + rewrite (set_state_lookup task Resolved _ t); [reflexivity|].
      rewrite (proj1 (playBrowserTts_frame w (t_text t) (t_speakerType t) (t_callbacks t))).
      exact Hlook.
    + intros Hcap voices.
      destruct (playBrowserTts_speaks w (t_text t) (t_speakerType t) (t_callbacks t) Hcap)
        as (Ht & _ & _ & _ & _ & _ & Hu).
      split; simpl; assumption.
    + intros Hcap. simpl.
      rewrite (playBrowserTts_mute w (t_text t) (t_speakerType t) (t_callbacks t) Hcap).
      split; reflexivity.
    + intros es w0 w1. apply playNativeTts_never_rejects.
Qed.

End Fallback.

(** Witness for C3: [/health] answers, [/tts] answers 500. *)
Lemma remote_failure_falls_back_to_local_witness :
  ∃ w w', run [ Call "passage" "female" Scenario.countStart Scenario.countEnd;
                Host (Settle 0 (Response 200)) ] Scenario.freshHost = Some w ∧
          hostStep (Settle 0 (Response 500)) w = Some w' ∧
          t_state <$> tasks w' !! 0 = Some Resolved ∧
          text <$> utterances w' = ["passage"].
Proof.
  eexists.
  destruct (remote_failure_falls_back_to_local
              (default Scenario.freshHost
                 (run [ Call "passage" "female" Scenario.countStart Scenario.countEnd;
                        Host (Settle 0 (Response 200)) ] Scenario.freshHost))
              0
              (mkTask "passage" "female" Scenario.counting AwaitTts)
              (Response 500) eq_refl eq_refl)
    as (w' & Hstep & Hw' & Hres & Hcap & _).
  exists w'. split; [vm_compute; reflexivity|].
  split; [exact Hstep|]. split; [exact Hres|].
  rewrite (proj1 (Hcap eq_refl)). vm_compute. reflexivity.
Defined.

(** ** The availability probe *)

Lemma count_app {A : Type} (p : A -> bool) (l1 l2 : list A) :
  count p (l1 ++ l2) = count p l1 + count p l2.
Proof. induction l1 as [|x l1 IH]; simpl; [reflexivity|]. rewrite IH. lia. Qed.

Lemma existsb_alter_same {A : Type} (p : A -> bool) (f : A -> A) (l : list A) i x :
  l !! i = Some x → p (f x) = p x → existsb p (alter f i l) = existsb p l.
Proof.
  revert i. induction l as [|y l IH]; intros [|i]; simpl; try discriminate.
  - intros [= ->] ->. reflexivity.
  - intros Hl Hp. f_equal. exact (IH i Hl Hp).
Qed.

Section Probe.

Context {C : Type}.
Implicit Types (w : World C) (cb : Callbacks C).

Lemma tryEdge_frame task (t : Task C) (r : World C * Completion) :
  let w' := tryEdge task t r in
  tasks w' = alter (withState (stateAfter r.2)) task (tasks r.1) ∧
  requests w' = requests r.1 ∧
  isEdgeTtsAvailable w' = isEdgeTtsAvailable r.1.
Proof.
  destruct r as [w [st| |]]; simpl; repeat split; auto;
    destruct (playBrowserTts_frame w (t_text t) (t_speakerType t) (t_callbacks t))
      as (Hk & _ & Hr & _ & _ & He & _); simpl; congruence.
Qed.

Lemma dispatch_frame task (t : Task C) (b : bool) w :
  let w' := playNativeTts_dispatch task t b w in
  tasks w' = alter (withState (if b then AwaitTts else Resolved)) task (tasks w) ∧
  healthRequests w' = healthRequests w ∧
  isEdgeTtsAvailable w' = isEdgeTtsAvailable w.
Proof.
  unfold playNativeTts_dispatch. destruct b.
  - unfold healthRequests. simpl. rewrite count_app. simpl.
    repeat split; auto; lia.
  - destruct (playBrowserTts_frame w (t_text t) (t_speakerType t) (t_callbacks t))
      as (Hk & _ & Hr & _ & _ & He & _).
    unfold healthRequests. simpl. rewrite Hk, Hr, He. repeat split; auto.
Qed.

Lemma probing_alter task st w (t : Task C) :
  tasks w !! task = Some t →
  isAwaitHealth (t_state t) = false → isAwaitHealth st = false →
  existsb (fun x => isAwaitHealth (t_state x)) (alter (withState st) task (tasks w))
  = probing w.
Proof.
  intros Hlook Hold Hnew. unfold probing.
  apply (existsb_alter_same _ _ _ _ t Hlook). simpl. congruence.
Qed.

(** What a settlement does to the probe's state. *)
Lemma resume_probe task (s : Settlement) w w' (t : Task C) :
  tasks w !! task = Some t → resume task s w = Some w' →
  healthRequests w' = healthRequests w ∧
  (isAwaitHealth (t_state t) = true → isEdgeTtsAvailable w' ≠ None) ∧
  (isAwaitHealth (t_state t) = false →
   isEdgeTtsAvailable w' = isEdgeTtsAvailable w ∧ probing w' = probing w).
Proof.
  intros Hlook. unfold resume. rewrite Hlook. simpl.
  destruct (t_state t) eqn:Hst.
  - destruct s; try discriminate. intros [= <-].
    destruct (dispatch_frame task t b w) as (Hk & Hr & He).
    split; [exact Hr|]. split; [discriminate|]. intros _. split; [exact He|].
    unfold probing at 1. rewrite Hk. apply (probing_alter _ _ _ t Hlook).
    + rewrite Hst. reflexivity.
    + destruct b; reflexivity.
  - destruct (checkEdgeTtsAvailability_settled s w) as [[w1 b]|] eqn:Hs;
      simpl; [|discriminate].
    intros [= <-]. destruct (dispatch_frame task t b w1) as (Hk & Hr & He).
    rewrite Hr, He.
    destruct s; simpl in Hs; inversion Hs; subst; simpl;
      (split; [reflexivity|]); (split; [discriminate|]); discriminate.
  - destruct (playEdgeTts_response s w) as [r|] eqn:Hr; simpl; [|discriminate].
    intros [= <-]. destruct (tryEdge_frame task t r) as (Hk & Hq & He).
    unfold healthRequests, probing at 1. rewrite Hk, Hq, He.
    assert (r.1 = w ∧ isAwaitHealth (stateAfter r.2) = false) as [-> Hnew].
    { destruct s as [status| |]; simpl in Hr; try discriminate.
      - destruct (negb (ok status)); inversion Hr; subst; split; reflexivity.
      - inversion Hr; subst; split; reflexivity. }
    split; [reflexivity|]. split; [discriminate|]. intros _. split; [reflexivity|].
    apply (probing_alter _ _ _ t Hlook); [rewrite Hst; reflexivity | exact Hnew].
  - destruct (playEdgeTts_blob (t_callbacks t) s w) as [r|] eqn:Hr;
      simpl; [|discriminate].
    intros [= <-]. destruct (tryEdge_frame task t r) as (Hk & Hq & He).
    unfold healthRequests, probing at 1. rewrite Hk, Hq, He.
    assert (tasks r.1 = tasks w ∧ requests r.1 = requests w ∧
            isEdgeTtsAvailable r.1 = isEdgeTtsAvailable w ∧
            isAwaitHealth (stateAfter r.2) = false) as (-> & -> & -> & Hnew).
    { destruct s; simpl in Hr; try discriminate; inversion Hr; subst;
        repeat split; reflexivity. }
    split; [reflexivity|]. split; [discriminate|]. intros _. split; [reflexivity|].
    apply (probing_alter _ _ _ t Hlook); [rewrite Hst; reflexivity | exact Hnew].
  - destruct (playEdgeTts_played s w) as [r|] eqn:Hr; simpl; [|discriminate].
    intros [= <-]. destruct (tryEdge_frame task t r) as (Hk & Hq & He).
    unfold healthRequests, probing at 1. rewrite Hk, Hq, He.
    assert (r.1 = w ∧ isAwaitHealth (stateAfter r.2) = false) as [-> Hnew].
    { destruct s; simpl in Hr; try discriminate; inversion Hr; subst;
        split; reflexivity. }
    split; [reflexivity|]. split; [discriminate|]. intros _. split; [reflexivity|].
    apply (probing_alter _ _ _ t Hlook); [rewrite Hst; reflexivity | exact Hnew].
  - discriminate.
  - discriminate.
Qed.

(** A host event other than a settlement leaves the probe's state alone. *)
Lemma hostStep_probe (h : HostEvent) w w' :
  (∀ task s, h ≠ Settle task s) → hostStep h w = Some w' →
  requests w' = requests w ∧ isEdgeTtsAvailable w' = isEdgeTtsAvailable w ∧
  tasks w' = tasks w.
Proof.
  intros Hh. destruct h as [task s|vs|a|a|a|a t|u|u|u]; simpl.
  - destruct (Hh task s). reflexivity.
  - destruct (hasSpeechSynthesis w) eqn:Hcap; [|discriminate]. intros [= <-].
    unfold loadVoices. simpl. rewrite Hcap. repeat split.
  - destruct (audios w !! a) as [x|]; simpl; [|discriminate].
    destruct (negb (dispatchedPlay x)); [|discriminate]. intros [= <-]. repeat split.
  - destruct (audios w !! a) as [x|]; simpl; [|discriminate].
    destruct (dispatchedPlay x && negb (paused x) && negb (finished x));
      [|discriminate]. intros [= <-]. repeat split.
  - destruct (audios w !! a) as [x|]; simpl; [|discriminate].
    destruct (negb (finished x)); [|discriminate]. intros [= <-]. repeat split.
  - destruct (audios w !! a) as [x|]; simpl; [|discriminate].
    destruct (dispatchedPlay x && negb (paused x) && negb (finished x));
      [|discriminate]. intros [= <-]. repeat split.
  - destruct (utterances w !! u) as [x|]; simpl; [|discriminate].
    destruct (queued x && negb (dispatchedStart x) && negb (dispatchedEnd x));
      [|discriminate]. intros [= <-]. repeat split.
  - destruct (utterances w !! u) as [x|]; simpl; [|discriminate].
    destruct (dispatchedStart x && negb (dispatchedEnd x)); [|discriminate].
    intros [= <-]. repeat split.
  - destruct (utterances w !! u) as [x|]; simpl; [|discriminate].
    destruct (negb (dispatchedEnd x)); [|discriminate]. intros [= <-]. repeat split.
Qed.

(** The effect of one event on the probe's state. *)
Lemma step_probe (e : Event) w w' :
  step e w = Some w' →
  (isEdgeTtsAvailable w ≠ None →
   healthRequests w' = healthRequests w ∧ isEdgeTtsAvailable w' ≠ None) ∧
  (isEdgeTtsAvailable w = None →
   match e with
   | Call _ _ _ _ => healthRequests w' = S (healthRequests w) ∧ probing w' = true ∧
                     isEdgeTtsAvailable w' = None
   | _ => healthRequests w' = healthRequests w ∧
          (isEdgeTtsAvailable w' = None → probing w' = probing w)
   end).
Proof.
  destruct e as [text speakerType s e| |h]; simpl.
  - intros [= <-].
    destruct (playNativeTts_spec w text speakerType s e)
      as (Hk & Hr & _ & _ & _ & _ & _ & He & _).
    unfold healthRequests, probing. rewrite Hk, Hr, He, count_app, existsb_app.
    destruct (isEdgeTtsAvailable w); simpl; split; intros H; try congruence.
    + split; [lia | discriminate].
    + rewrite orb_true_r. repeat split; lia.
  - intros [= <-].
    destruct (stopNativeTts_spec w) as (_ & _ & _ & _ & _ & Hk & Hr & He & _).
    unfold healthRequests, probing. rewrite Hk, Hr, He.
    split; intros H; repeat split; auto.
  - destruct h as [task s|vs|a|a|a|a t|u|u|u];
      try (intros Hstep;
           apply hostStep_probe in Hstep as (Hr & He & Hk); [|discriminate];
           unfold healthRequests, probing; rewrite Hr, He, Hk;
           split; intros H; repeat split; auto).
    simpl. intros Hres.
    destruct (tasks w !! task) as [t|] eqn:Hlook;
      [|unfold resume in Hres; rewrite Hlook in Hres; discriminate Hres].
    destruct (resume_probe task s w w' t Hlook Hres) as (Hr & Hset & Hkeep).
    destruct (isAwaitHealth (t_state t)) eqn:Hst.
    + specialize (Hset eq_refl). split; intros H; [split; assumption|].
      split; [exact Hr|]. intros H'. contradiction.
    + destruct (Hkeep eq_refl) as [He Hp].
      split; intros H; (split; [exact Hr|]); [congruence | intros _; exact Hp].
Qed.

(** Once the flag is set, no request to [/health] is issued any more. *)
Lemma memoized_probe_is_silent (es : list Event) w w' :
  isEdgeTtsAvailable w ≠ None → run es w = Some w' →
  healthRequests w' = healthRequests w ∧ isEdgeTtsAvailable w' ≠ None.
Proof.
  revert w. induction es as [|e es IH]; intros w Hset; simpl.
  - intros [= <-]. split; [reflexivity | exact Hset].
  - destruct (step e w) as [w1|] eqn:He; simpl; [|discriminate].
    intros Hrun. destruct (proj1 (step_probe e w w1 He) Hset) as [Hr Hset1].
    destruct (IH w1 Hset1 Hrun) as [Hr' Hset']. split; [congruence | exact Hset'].
Qed.

Lemma probe_once_when_sequential (es : list Event) w w' :
  run es w = Some w' → probesDoNotOverlap es w = true →
  healthRequests w ≤ 1 →
  (isEdgeTtsAvailable w = None → probing w = false → healthRequests w = 0) →
  healthRequests w' ≤ 1.
Proof.
  revert w. induction es as [|e es IH]; intros w; simpl.
  - intros [= <-] _ H _. exact H.
  - destruct (step e w) as [w1|] eqn:He; simpl; [|discriminate].
    intros Hrun Hseq Hle Hzero. apply andb_true_iff in Hseq as [Hcall Hseq].
    destruct (step_probe e w w1 He) as [Hset Hunset].
    destruct (isEdgeTtsAvailable w) as [b|] eqn:Hflag.
    + destruct Hset as [Hr Hset1]; [discriminate|].
      destruct (memoized_probe_is_silent es w1 w' Hset1 Hrun) as [Hr' _]. lia.
    + specialize (Hunset eq_refl). apply (IH w1 Hrun Hseq).
      * destruct e as [text speakerType s e| |h].
        -- destruct Hunset as (Hr & _ & _).
           apply negb_true_iff in Hcall. rewrite (Hzero eq_refl Hcall) in Hr. lia.
        -- destruct Hunset as [Hr _]. lia.
        -- destruct Hunset as [Hr _]. lia.
      * intros Hnone Hidle. destruct e as [text speakerType s e| |h].
        -- destruct Hunset as (_ & Hp & _). congruence.
        -- destruct Hunset as [Hr Hp]. rewrite Hr. apply (Hzero eq_refl).
           rewrite <- (Hp Hnone). exact Hidle.
        -- destruct Hunset as [Hr Hp]. rewrite Hr. apply (Hzero eq_refl).
           rewrite <- (Hp Hnone). exact Hidle.
Qed.

(** C2 (as amended): in a run in which no [playNativeTts] call starts while a
    probe is in flight, at most one request to [/health] is issued; once the
    flag is set it is never unknown again, no later call issues a request,
    whatever the run, and the probe answers with the memoized value; the
    settlement of the first probe sets the flag to the response's [ok], and to
    unavailable on a rejection (timeout or network failure). *)
Theorem probe_memoized_after_first_settlement :
  ∀ (c : C) (has : bool) (vs : list SpeechSynthesisVoice) (es : list Event) w,
    run es (init c has vs) = Some w →
    probesDoNotOverlap es (init c has vs) = true →
    healthRequests w ≤ 1 ∧
    (∀ b es' w',
        isEdgeTtsAvailable w = Some b → run es' w = Some w' →
        checkEdgeTtsAvailability w = (w, AwaitMemo b) ∧
        healthRequests w' = healthRequests w ∧ isEdgeTtsAvailable w' ≠ None) ∧
    (∀ status,
        isEdgeTtsAvailable
          <$> (fst <$> checkEdgeTtsAvailability_settled (Response status) w)
        = Some (Some (ok status))) ∧
    isEdgeTtsAvailable <$> (fst <$> checkEdgeTtsAvailability_settled Rejection w)
    = Some (Some false).
Proof.
  intros c has vs es w Hrun Hseq. split; [|split; [|split; [intros status|]]].
  - apply (probe_once_when_sequential es (init c has vs) w Hrun Hseq).
    + unfold init, loadVoices, healthRequests. simpl. destruct has; simpl; lia.
    + intros _ _. unfold init, loadVoices, healthRequests. simpl.
      destruct has; reflexivity.
  - intros b es' w' Hflag Hrun'.
    split; [unfold checkEdgeTtsAvailability; rewrite Hflag; reflexivity|].
    apply (memoized_probe_is_silent es'); [congruence | exact Hrun'].
  - reflexivity.
  - reflexivity.
Qed.

End Probe.

(** Witness for C2: two calls, the second once the first is playing. *)
Lemma probe_memoized_witness :
  ∃ w, run Scenario.twoCallsInTurn Scenario.freshHost = Some w ∧
       healthRequests w ≤ 1.
Proof.
  eexists. split; [vm_compute; reflexivity|].
  refine (proj1 (probe_memoized_after_first_settlement
                   (0, 0) true [Scenario.zira] Scenario.twoCallsInTurn _ _ _)).
  - vm_compute. reflexivity.
  - vm_compute. reflexivity.
Defined.

(** C2, the claim as stated fails: two calls issued before the first probe
    has settled send two requests to [/health]. *)
Lemma overlapping_calls_probe_twice :
  ¬ (∀ (es : list (Event (C:=nat * nat))) w,
        run es Scenario.freshHost = Some w → healthRequests w ≤ 1)
  ∧ (∃ w, run [ Call "first passage" "female" Scenario.countStart Scenario.countEnd;
                Call "second passage" "female" Scenario.countStart Scenario.countEnd ]
              Scenario.freshHost = Some w ∧
          requests w = [GetHealth; GetHealth]).
Proof.
  split.
  - intros H.
    specialize (H [ Call "first passage" "female" Scenario.countStart Scenario.countEnd;
                    Call "second passage" "female" Scenario.countStart Scenario.countEnd ]
                  _ eq_refl).
    vm_compute in H. lia.
  - eexists. split; vm_compute; reflexivity.
Qed.

(** ** One handle at a time *)

Section Release.

Context {C : Type}.
Implicit Types (w : World C).

(** [playNativeTts] starts by releasing what the module holds: the element in
    [audioElement] is paused and rewound, the variable is cleared and the
    synthesizer's queue is emptied. *)
Lemma playNativeTts_releases_current w (text speakerType : string) (s e : C -> C) :
  let w' := playNativeTts text speakerType s e w in
  audioElement w' = None ∧
  (∀ a x, audioElement w = Some a → audios w !! a = Some x →
          ∃ x', audios w' !! a = Some x' ∧ paused x' = true ∧ currentTime x' = 0) ∧
  (hasSpeechSynthesis w = true → Forall (fun u => queued u = false) (utterances w')).
Proof.
  destruct (playNativeTts_spec w text speakerType s e)
    as (_ & _ & Ha & Hau & Hu & _).
  destruct (stopNativeTts_spec w) as (_ & Hau0 & Hu0 & _).
  simpl. rewrite Ha, Hau, Hu, Hau0, Hu0. repeat split.
  - intros a x Hcur Hlook. rewrite Hcur, list_lookup_alter_eq, Hlook. simpl.
    eexists. repeat split.
  - intros ->. apply Forall_fmap, Forall_forall. intros u _. reflexivity.
Qed.

End Release.

(** C1, at the failing input: two calls in quick succession, each answered by
    the server.  Both elements play at once, [onStart] and [onEnd] are each
    called twice, the module variable knows the second element only, so that
    [stopNativeTts] leaves the first one playing; the same happens under the
    component when the text changes while a request is in flight.  And a call
    made in turn pauses the previous element without revoking its blob URL. *)
Theorem two_quick_calls_play_over_each_other :
  (∃ w, run Scenario.twoQuickCalls Scenario.freshHost = Some w ∧
        liveHandles w = 2 ∧ liveUrls w = 2 ∧ audioElement w = Some 1 ∧
        trace w = [(0, Started); (1, Started)] ∧
        liveHandles (stopNativeTts w) = 1) ∧
  (∃ w, run Scenario.bothPlayToTheEnd Scenario.freshHost = Some w ∧
        trace w = [(0, Started); (1, Started); (0, Ended); (1, Ended)] ∧
        client w = (2, 2)) ∧
  (∃ w, Player.uiRun Scenario.clickChangeClick
                     (Player.mount "passage" "female" true [Scenario.zira]) = Some w ∧
        liveHandles w = 2 ∧
        PostTts "passage" "female" ∈ requests w ∧
        PostTts "next passage" "female" ∈ requests w) ∧
  (∃ w, run Scenario.twoCallsInTurn Scenario.freshHost = Some w ∧
        liveHandles w = 0 ∧ audioElement w = None ∧ liveUrls w = 1).
Proof.
  repeat split.
  - eexists. split; [vm_compute; reflexivity|]. repeat split.
  - eexists. split; [vm_compute; reflexivity|]. repeat split.
  - eexists. split; [vm_compute; reflexivity|]. repeat split.
    + apply list_elem_of_In. simpl. tauto.
    + apply list_elem_of_In. simpl. tauto.
  - eexists. split; [vm_compute; reflexivity|]. repeat split.
Qed.

(** ** The lifecycle callbacks *)

(** C6, at the failing input: the server's payload cannot be decoded.  The
    element fires [play] and [error], so [onStart] and [onEnd] are called; the
    rejected [play()] then sends the same invocation to the local path, whose
    utterance calls both again.  One invocation, four lifecycle events, [onEnd]
    twice; under the component one click reports the end of the audio to the
    parent twice. *)
Theorem undecodable_payload_ends_twice :
  (∃ w, run Scenario.undecodablePayload Scenario.freshHost = Some w ∧
        length (tasks w) = 1 ∧
        trace w = [(0, Started); (0, Ended); (0, Started); (0, Ended)] ∧
        starts 0 w = 2 ∧ ends 0 w = 2 ∧ client w = (2, 2)) ∧
  (∃ w, Player.uiRun Scenario.clickUndecodable
                     (Player.mount "passage" "female" true [Scenario.zira]) = Some w ∧
        length (tasks w) = 1 ∧ ends 0 w = 2 ∧
        Player.audioEnds (client w) = 2).
Proof.
  split.
  - eexists. split; [vm_compute; reflexivity|]. repeat split.
  - eexists. split; [vm_compute; reflexivity|]. repeat split.
Qed.

(** *** Each callback at most once, unless [play()] is rejected *)

Lemma count_alter_same {A : Type} (p : A -> bool) (f : A -> A) (l : list A) i :
  (∀ x, p (f x) = p x) → count p (alter f i l) = count p l.
Proof.
  intros H. revert i. induction l as [|y l IH]; intros [|i]; simpl; auto.
  - rewrite H. reflexivity.
  - f_equal. exact (IH i).
Qed.

Lemma count_alter_flip {A : Type} (p : A -> bool) (f : A -> A) (l : list A) i x :
  l !! i = Some x → p x = false → p (f x) = true →
  count p (alter f i l) = S (count p l).
Proof.
  revert i. induction l as [|y l IH]; intros [|i]; simpl; try discriminate.
  - intros [= ->] -> ->. reflexivity.
  - intros Hl Hx Hfx. change (list_alter f i l) with (alter f i l).
    rewrite (IH i Hl Hx Hfx). lia.
Qed.

Lemma count_alter_keep {A : Type} (p : A -> bool) (f : A -> A) (l : list A) i x :
  l !! i = Some x → p (f x) = p x → count p (alter f i l) = count p l.
Proof.
  revert i. induction l as [|y l IH]; intros [|i]; simpl; try discriminate.
  - intros [= ->] ->. reflexivity.
  - intros Hl Hx. f_equal. exact (IH i Hl Hx).
Qed.

Lemma count_fmap_same {A : Type} (p : A -> bool) (f : A -> A) (l : list A) :
  (∀ x, p (f x) = p x) → count p (f <$> l) = count p l.
Proof.
  intros H. induction l as [|y l IH]; simpl; [reflexivity|].
  rewrite H. f_equal. exact IH.
Qed.

Lemma count_le_count {A : Type} (p q : A -> bool) (l : list A) :
  (∀ x, p x = true → q x = true) → count p l ≤ count q l.
Proof.
  intros H. induction l as [|y l IH]; simpl; [lia|].
  destruct (p y) eqn:Hp; [rewrite (H y Hp)|].
  - lia.
  - destruct (q y); lia.
Qed.

Lemma count_snoc {A : Type} (p : A -> bool) (l : list A) (x : A) :
  count p (l ++ [x]) = count p l + (if p x then 1 else 0).
Proof. rewrite count_app. simpl. lia. Qed.

Lemma lookup_withState_eq {C : Type} (st : TaskState) (l : list (Task C)) k t :
  l !! k = Some t → t_state <$> alter (withState st) k l !! k = Some st.
Proof. intros H. rewrite list_lookup_alter_eq, H. reflexivity. Qed.

Lemma lookup_withState_ne {C : Type} (st : TaskState) (l : list (Task C)) task k :
  task ≠ k → t_state <$> alter (withState st) task l !! k = t_state <$> l !! k.
Proof. intros H. rewrite list_lookup_alter_ne by exact H. reflexivity. Qed.

Section Accounting.

Context {C : Type}.
Variable k : nat.
Implicit Types (w : World C).

Lemma tally_bounds w :
  a_starts (tally k w) ≤ n_audios (tally k w) ∧
  a_ends (tally k w) ≤ n_audios (tally k w) ∧
  u_starts (tally k w) ≤ n_utterances (tally k w) ∧
  u_ends (tally k w) ≤ n_utterances (tally k w).
Proof.
  simpl. repeat split; apply count_le_count; intros x H;
    apply andb_true_iff in H as [H _]; exact H.
Qed.

Lemma balanced_at_most_once w :
  balanced (tally k w) → starts k w ≤ 1 ∧ ends k w ≤ 1.
Proof.
  intros (Hs & He & Hn & _).
  destruct (tally_bounds w) as (Has & Hae & Hus & Hue).
  change (starts k w) with (n_starts (tally k w)).
  change (ends k w) with (n_ends (tally k w)).
  unfold endedSilently in He. revert Hs He Hn Has Hae Hus Hue.
  generalize (tally k w). intros y Hs He Hn Has Hae Hus Hue.
  split; [lia|].
  destruct (k_state y) as [[]|]; try lia.
  destruct (n_audios y =? 0) eqn:Ha; [|simpl in He; lia].
  destruct (n_utterances y =? 0) eqn:Hu; [|simpl in He; lia].
  apply Nat.eqb_eq in Ha, Hu. simpl in He. lia.
Qed.

(** A step that leaves the invocation where it stands and matches every new
    call of a callback by an event fired at one of its elements or utterances
    keeps the account balanced. *)
Lemma balanced_matched (y y' : Tally) :
  balanced y →
  k_state y' = k_state y → n_audios y' = n_audios y →
  n_utterances y' = n_utterances y →
  n_starts y' + a_starts y + u_starts y ≤ n_starts y + a_starts y' + u_starts y' →
  n_ends y' + a_ends y + u_ends y ≤ n_ends y + a_ends y' + u_ends y' →
  balanced y'.
Proof.
  intros (Hs & He & Hn & Hp) Hk Ha Hu Hs' He'.
  unfold balanced, phase, endedSilently in *. rewrite Hk, Ha, Hu.
  repeat split; try lia. exact Hp.
Qed.

Lemma tally_stopNativeTts w : tally k (stopNativeTts w) = tally k w.
Proof.
  destruct (stopNativeTts_spec w) as (_ & Ha & Hu & _ & Ht & Hk & _).
  unfold tally, starts, ends. rewrite Ha, Hu, Ht, Hk.
  assert (∀ p : HTMLAudioElement C → bool,
             (∀ x, p (seek 0 (pause x)) = p x) →
             count p (match audioElement w with
                      | Some a => alter (fun x => seek 0 (pause x)) a (audios w)
                      | None => audios w
                      end) = count p (audios w)) as HA.
  { intros p Hp. destruct (audioElement w); [|reflexivity].
    apply count_alter_same. exact Hp. }
  assert (∀ p : SpeechSynthesisUtterance C → bool,
             (∀ u, p (dequeue u) = p u) →
             count p (if hasSpeechSynthesis w then dequeue <$> utterances w
                      else utterances w) = count p (utterances w)) as HU.
  { intros p Hp. destruct (hasSpeechSynthesis w); [|reflexivity].
    apply count_fmap_same. exact Hp. }
  rewrite !HA, !HU by reflexivity. reflexivity.
Qed.

(** The local path, as a settlement runs it. *)
Lemma local_shape task (t : Task C) w :
  let w' := set_state task Resolved
              (playBrowserTts (t_text t) (t_speakerType t) (t_callbacks t) w) in
  audios w' = audios w ∧
  tasks w' = alter (withState Resolved) task (tasks w) ∧
  ((trace w' = trace w ∧
    ∃ u, utterances w' = (dequeue <$> utterances w) ++ [u] ∧
         listeners u = t_callbacks t ∧
         dispatchedStart u = false ∧ dispatchedEnd u = false) ∨
   (trace w' = trace w ++ [(call (t_callbacks t), Ended)] ∧
    utterances w' = utterances w)).
Proof.
  destruct (playBrowserTts_frame w (t_text t) (t_speakerType t) (t_callbacks t))
    as (Hk & Ha & _).
  simpl. rewrite Hk, Ha. split; [reflexivity|]. split; [reflexivity|].
  destruct (hasSpeechSynthesis w) eqn:Hcap.
  - left.
    destruct (playBrowserTts_speaks w (t_text t) (t_speakerType t) (t_callbacks t) Hcap)
      as (Ht & _ & _ & _ & _ & _ & Hu).
    split; [exact Ht|]. eexists. split; [exact Hu|]. repeat split.
  - right. rewrite (playBrowserTts_mute w _ _ _ Hcap). split; reflexivity.
Qed.

(** What a settlement does: the invocation advances, runs the local path, or
    creates its audio element. *)
Lemma resume_cases task (s : Settlement) w w' (t : Task C) :
  tasks w !! task = Some t → resume task s w = Some w' →
  (trace w' = trace w ∧ audios w' = audios w ∧ utterances w' = utterances w ∧
   ∃ st, tasks w' = alter (withState st) task (tasks w) ∧
         (st = Resolved ∨ (isEarly (t_state t) = true ∧ isEarly st = true)))
  ∨
  (audios w' = audios w ∧
   tasks w' = alter (withState Resolved) task (tasks w) ∧
   (isEarly (t_state t) = true ∨ (isAwaitPlay (t_state t) = true ∧ s = Rejection)) ∧
   ((trace w' = trace w ∧
     ∃ u, utterances w' = (dequeue <$> utterances w) ++ [u] ∧
          listeners u = t_callbacks t ∧
          dispatchedStart u = false ∧ dispatchedEnd u = false) ∨
    (trace w' = trace w ++ [(call (t_callbacks t), Ended)] ∧
     utterances w' = utterances w)))
  ∨
  (trace w' = trace w ∧ utterances w' = utterances w ∧ isEarly (t_state t) = true ∧
   ∃ x n, audios w' = alter play n (audios w ++ [x]) ∧
          handlers x = t_callbacks t ∧
          dispatchedPlay x = false ∧ finished x = false ∧
          tasks w' = alter (withState (AwaitPlay n)) task (tasks w)).
Proof.
  intros Hlook. unfold resume. rewrite Hlook. simpl.
  assert (∀ w1, audios w1 = audios w → tasks w1 = tasks w → trace w1 = trace w →
                utterances w1 = utterances w →
                (isEarly (t_state t) = true ∨
                 (isAwaitPlay (t_state t) = true ∧ s = Rejection)) →
                w' = set_state task Resolved
                       (playBrowserTts (t_text t) (t_speakerType t) (t_callbacks t) w1) →
                audios w' = audios w ∧
                tasks w' = alter (withState Resolved) task (tasks w) ∧
                (isEarly (t_state t) = true ∨
                 (isAwaitPlay (t_state t) = true ∧ s = Rejection)) ∧
                ((trace w' = trace w ∧
                  ∃ u, utterances w' = (dequeue <$> utterances w) ++ [u] ∧
                       listeners u = t_callbacks t ∧
                       dispatchedStart u = false ∧ dispatchedEnd u = false) ∨
                 (trace w' = trace w ++ [(call (t_callbacks t), Ended)] ∧
                  utterances w' = utterances w))) as Hlocal.
  { intros w1 Ha Hk Ht Hu Hst ->.
    destruct (local_shape task t w1) as (Ha' & Hk' & Hor).
    rewrite Ha', Hk', Ha, Hk. repeat split; [exact Hst|].
    rewrite Ht, Hu in Hor. exact Hor. }
  destruct (t_state t) eqn:Hst; destruct s as [status| |]; simpl;
    try discriminate; intros Hw'.
  - (* memo *)
    injection Hw' as <-. destruct b; simpl.
    + left. repeat split. exists AwaitTts. split; [reflexivity | right; split; reflexivity].
    + right; left. apply (Hlocal w); auto.
  - (* health, response *)
    injection Hw' as <-. destruct (ok status); simpl.
    + left. repeat split. exists AwaitTts. split; [reflexivity | right; split; reflexivity].
    + right; left.
      apply (Hlocal (set_isEdgeTtsAvailable (Some false) w)); auto.
  - (* health, rejection *)
    injection Hw' as <-. right; left.
    apply (Hlocal (set_isEdgeTtsAvailable (Some false) w)); auto.
  - (* tts, response *)
    destruct (negb (ok status)); simpl in Hw'; injection Hw' as <-.
    + right; left. apply (Hlocal w); auto.
    + left. repeat split. exists AwaitBlob.
      split; [reflexivity | right; split; reflexivity].
  - (* tts, rejection *)
    injection Hw' as <-. right; left. apply (Hlocal w); auto.
  - (* blob, value *)
    injection Hw' as <-. right; right. repeat split.
    eexists. exists (length (audios w)). repeat split.
  - (* blob, rejection *)
    injection Hw' as <-. right; left. apply (Hlocal w); auto.
  - (* play, value *)
    injection Hw' as <-. left. repeat split. exists Resolved.
    split; [reflexivity | left; reflexivity].
  - (* play, rejection *)
    injection Hw' as <-. right; left. apply (Hlocal w); auto.
Qed.

Lemma indexed_alter st task (l : list (Task C)) :
  (∀ i t, l !! i = Some t → call (t_callbacks t) = i) →
  ∀ i t, alter (withState st) task l !! i = Some t → call (t_callbacks t) = i.
Proof.
  intros Hl i t. destruct (decide (task = i)) as [->|Hne].
  - rewrite list_lookup_alter_eq. destruct (l !! i) as [x|] eqn:Hx; simpl; [|discriminate].
    intros [= <-]. simpl. exact (Hl i x Hx).
  - rewrite list_lookup_alter_ne by exact Hne. apply Hl.
Qed.

Lemma indexed_step (e : Event) w w' : indexed w → step e w = Some w' → indexed w'.
Proof.
  intros Hw. destruct e as [text speakerType s e| |h]; simpl.
  - intros [= <-]. unfold indexed.
    rewrite (proj1 (playNativeTts_spec w text speakerType s e)).
    intros i t Hi. apply lookup_app_Some in Hi as [Hi|[Hlen Hi]]; [exact (Hw i t Hi)|].
    destruct (i - length (tasks w)) as [|n] eqn:Hn; simpl in Hi; [|discriminate].
    injection Hi as <-. simpl. lia.
  - intros [= <-]. unfold indexed.
    destruct (stopNativeTts_spec w) as (_ & _ & _ & _ & _ & Hk & _).
    rewrite Hk. exact Hw.
  - destruct h as [task s|vs|a|a|a|a t|u|u|u];
      try (intros Hstep; apply hostStep_probe in Hstep as (_ & _ & Hk);
           [|discriminate]; unfold indexed; rewrite Hk; exact Hw).
    simpl. intros Hres.
    destruct (tasks w !! task) as [t|] eqn:Hlook;
      [|unfold resume in Hres; rewrite Hlook in Hres; discriminate Hres].
    unfold indexed.
    destruct (resume_cases task s w w' t Hlook Hres)
      as [(_ & _ & _ & st & -> & _)|[(_ & -> & _)|(_ & _ & _ & x & n & _ & _ & _ & _ & ->)]];
      apply indexed_alter; exact Hw.
Qed.

(** Moving the invocation forward without touching its account. *)
Lemma balanced_atState (y : Tally) (ks : option TaskState) :
  balanced y →
  ks = k_state y ∨ (earlyOrAbsent (k_state y) ∧ earlyOrAbsent ks) ∨ ks = Some Resolved →
  balanced (atState ks y).
Proof.
  intros (Hs & He & Hn & Hp) Hks.
  unfold balanced, phase, endedSilently, earlyOrAbsent in *. simpl.
  destruct Hks as [->|[[Hold Hnew]| ->]].
  - repeat split; assumption.
  - destruct (k_state y) as [[]|]; try discriminate Hold;
      destruct ks as [[]|]; try discriminate Hnew;
      repeat split; try lia; try exact Hp; destruct Hp; assumption.
  - repeat split; try lia.
    destruct (k_state y) as [[]|]; try lia;
      destruct ((n_audios y =? 0) && (n_utterances y =? 0)); lia.
Qed.

Lemma tally_same w w' :
  trace w' = trace w → audios w' = audios w → utterances w' = utterances w →
  tally k w' = atState (t_state <$> tasks w' !! k) (tally k w).
Proof. intros Ht Ha Hu. unfold tally, atState, starts, ends. simpl. rewrite Ht, Ha, Hu. reflexivity. Qed.

Lemma atState_same w : atState (t_state <$> tasks w !! k) (tally k w) = tally k w.
Proof. reflexivity. Qed.

Lemma count_trace_snoc (ev ev' : Lifecycle) (c : nat) (tr : list (nat * Lifecycle)) :
  count (isLifecycle k ev) (tr ++ [(c, ev')]) =
  count (isLifecycle k ev) tr +
  (if (c =? k) && match ev, ev' with
                  | Started, Started | Ended, Ended => true
                  | _, _ => false
                  end then 1 else 0).
Proof. rewrite count_snoc. reflexivity. Qed.

(** An event fired at an audio element. *)
Lemma balanced_audio_event (ev : Lifecycle) (f : HTMLAudioElement C → HTMLAudioElement C)
      a x w w' :
  audios w !! a = Some x →
  (∀ y, handlers (f y) = handlers y) →
  match ev with
  | Started => dispatchedPlay x = false ∧ (∀ y, dispatchedPlay (f y) = true) ∧
               (∀ y, finished (f y) = finished y)
  | Ended => finished x = false ∧ (∀ y, finished (f y) = true) ∧
             (∀ y, dispatchedPlay (f y) = dispatchedPlay y)
  end →
  trace w' = trace w ++ [(call (handlers x), ev)] →
  audios w' = alter f a (audios w) →
  utterances w' = utterances w → tasks w' = tasks w →
  balanced (tally k w) → balanced (tally k w').
Proof.
  intros Hlook Hh Hev Ht Ha Hu Hk Hbal.
  apply (balanced_matched (tally k w)); [exact Hbal |..]; simpl;
    unfold starts, ends; rewrite ?Ht, ?Ha, ?Hu, ?Hk, ?count_trace_snoc; try reflexivity.
  - apply count_alter_same. intros y. rewrite Hh. reflexivity.
  - destruct ev.
    + destruct Hev as (Hx & Hf & Hfin).
      destruct (call (handlers x) =? k) eqn:Hc; simpl.
      * rewrite (count_alter_flip _ f _ a x Hlook).
        -- lia.
        -- unfold callIs. rewrite Hc, Hx. reflexivity.
        -- unfold callIs. rewrite Hh, Hc, Hf. reflexivity.
      * rewrite (count_alter_keep _ f _ a x Hlook).
        -- lia.
        -- unfold callIs. rewrite Hh, Hc. reflexivity.
    + destruct Hev as (Hx & Hf & Hdp).
      rewrite (count_alter_same (fun y => callIs k (handlers y) && dispatchedPlay y))
        by (intros y; rewrite Hh, Hdp; reflexivity).
      simpl. rewrite andb_false_r. lia.
  - destruct ev.
    + destruct Hev as (Hx & Hf & Hfin).
      rewrite (count_alter_same (fun y => callIs k (handlers y) && finished y))
        by (intros y; rewrite Hh, Hfin; reflexivity).
      simpl. rewrite andb_false_r. lia.
    + destruct Hev as (Hx & Hf & Hdp).
      destruct (call (handlers x) =? k) eqn:Hc; simpl.
      * rewrite (count_alter_flip _ f _ a x Hlook).
        -- lia.
        -- unfold callIs. rewrite Hc, Hx. reflexivity.
        -- unfold callIs. rewrite Hh, Hc, Hf. reflexivity.
      * rewrite (count_alter_keep _ f _ a x Hlook).
        -- lia.
        -- unfold callIs. rewrite Hh, Hc. reflexivity.
Qed.

(** An event fired at an utterance. *)
Lemma balanced_utterance_event (ev : Lifecycle)
      (f : SpeechSynthesisUtterance C → SpeechSynthesisUtterance C) u x w w' :
  utterances w !! u = Some x →
  (∀ y, listeners (f y) = listeners y) →
  match ev with
  | Started => dispatchedStart x = false ∧ (∀ y, dispatchedStart (f y) = true) ∧
               (∀ y, dispatchedEnd (f y) = dispatchedEnd y)
  | Ended => dispatchedEnd x = false ∧ (∀ y, dispatchedEnd (f y) = true) ∧
             (∀ y, dispatchedStart (f y) = dispatchedStart y)
  end →
  trace w' = trace w ++ [(call (listeners x), ev)] →
  utterances w' = alter f u (utterances w) →
  audios w' = audios w → tasks w' = tasks w →
  balanced (tally k w) → balanced (tally k w').
Proof.
  intros Hlook Hh Hev Ht Hu Ha Hk Hbal.
  apply (balanced_matched (tally k w)); [exact Hbal |..]; simpl;
    unfold starts, ends; rewrite ?Ht, ?Ha, ?Hu, ?Hk, ?count_trace_snoc; try reflexivity.
  - apply count_alter_same. intros y. rewrite Hh. reflexivity.
  - destruct ev.
    + destruct Hev as (Hx & Hf & Hfin).
      destruct (call (listeners x) =? k) eqn:Hc; simpl.
      * rewrite (count_alter_flip _ f _ u x Hlook).
        -- lia.
        -- unfold callIs. rewrite Hc, Hx. reflexivity.
        -- unfold callIs. rewrite Hh, Hc, Hf. reflexivity.
      * rewrite (count_alter_keep _ f _ u x Hlook).
        -- lia.
        -- unfold callIs. rewrite Hh, Hc. reflexivity.
    + destruct Hev as (Hx & Hf & Hdp).
      rewrite (count_alter_same (fun y => callIs k (listeners y) && dispatchedStart y))
        by (intros y; rewrite Hh, Hdp; reflexivity).
      simpl. rewrite andb_false_r. lia.
  - destruct ev.
    + destruct Hev as (Hx & Hf & Hfin).
      rewrite (count_alter_same (fun y => callIs k (listeners y) && dispatchedEnd y))
        by (intros y; rewrite Hh, Hfin; reflexivity).
      simpl. rewrite andb_false_r. lia.
    + destruct Hev as (Hx & Hf & Hdp).
      destruct (call (listeners x) =? k) eqn:Hc; simpl.
      * rewrite (count_alter_flip _ f _ u x Hlook).
        -- lia.
        -- unfold callIs. rewrite Hc, Hx. reflexivity.
        -- unfold callIs. rewrite Hh, Hc, Hf. reflexivity.
      * rewrite (count_alter_keep _ f _ u x Hlook).
        -- lia.
        -- unfold callIs. rewrite Hh, Hc. reflexivity.
Qed.

(** A host event other than a settlement. *)
Lemma balanced_hostStep (h : HostEvent) w w' :
  (∀ task s, h ≠ Settle task s) → hostStep h w = Some w' →
  balanced (tally k w) → balanced (tally k w').
Proof.
  intros Hh. destruct h as [task s|vs|a|a|a|a t|u|u|u]; simpl.
  - destruct (Hh task s). reflexivity.
  - destruct (hasSpeechSynthesis w) eqn:Hcap; [|discriminate]. intros [= <-].
    unfold loadVoices. simpl. rewrite Hcap. intros H. exact H.
  - destruct (audios w !! a) as [x|] eqn:Hlook; simpl; [|discriminate].
    destruct (dispatchedPlay x) eqn:Hdp; simpl; [discriminate|]. intros [= <-].
    apply (balanced_audio_event Started markPlay a x w); auto.
  - destruct (audios w !! a) as [x|] eqn:Hlook; simpl; [|discriminate].
    destruct (dispatchedPlay x && negb (paused x) && negb (finished x)) eqn:Hg;
      [|discriminate]. intros [= <-].
    apply andb_true_iff in Hg as [_ Hfin]. apply negb_true_iff in Hfin.
    apply (balanced_audio_event Ended markFinished a x w); auto.
  - destruct (audios w !! a) as [x|] eqn:Hlook; simpl; [|discriminate].
    destruct (finished x) eqn:Hfin; simpl; [discriminate|]. intros [= <-].
    apply (balanced_audio_event Ended markFinished a x w); auto.
  - destruct (audios w !! a) as [x|] eqn:Hlook; simpl; [|discriminate].
    destruct (dispatchedPlay x && negb (paused x) && negb (finished x));
      [|discriminate]. intros [= <-] Hbal.
    replace (tally k (set_audios (fun l => alter (seek t) a l) w)) with (tally k w);
      [exact Hbal|].
    unfold tally, starts, ends. simpl.
    rewrite !count_alter_same by reflexivity. reflexivity.
  - destruct (utterances w !! u) as [x|] eqn:Hlook; simpl; [|discriminate].
    destruct (queued x && negb (dispatchedStart x) && negb (dispatchedEnd x)) eqn:Hg;
      [|discriminate]. intros [= <-].
    apply andb_true_iff in Hg as [Hg _]. apply andb_true_iff in Hg as [_ Hds].
    apply negb_true_iff in Hds.
    apply (balanced_utterance_event Started markStart u x w); auto.
  - destruct (utterances w !! u) as [x|] eqn:Hlook; simpl; [|discriminate].
    destruct (dispatchedStart x && negb (dispatchedEnd x)) eqn:Hg; [|discriminate].
    intros [= <-]. apply andb_true_iff in Hg as [_ Hde]. apply negb_true_iff in Hde.
    apply (balanced_utterance_event Ended markEnd u x w); auto.
  - destruct (utterances w !! u) as [x|] eqn:Hlook; simpl; [|discriminate].
    destruct (dispatchedEnd x) eqn:Hde; simpl; [discriminate|]. intros [= <-].
    apply (balanced_utterance_event Ended markEnd u x w); auto.
Qed.

(** Appending an utterance that is not of invocation [k], or one that is. *)
Lemma count_utterance_snoc (p : SpeechSynthesisUtterance C → bool)
      (l : list (SpeechSynthesisUtterance C)) u :
  (∀ y, p (dequeue y) = p y) →
  count p ((dequeue <$> l) ++ [u]) = count p l + (if p u then 1 else 0).
Proof. intros H. rewrite count_snoc, (count_fmap_same _ _ _ H). reflexivity. Qed.

Lemma count_audio_snoc (p : HTMLAudioElement C → bool)
      (l : list (HTMLAudioElement C)) x n :
  (∀ y, p (play y) = p y) →
  count p (alter play n (l ++ [x])) = count p l + (if p x then 1 else 0).
Proof. intros H. rewrite (count_alter_same _ _ _ _ H), count_snoc. reflexivity. Qed.

(** A settlement for another invocation does not touch the account of
    [k]. *)
Lemma tally_resume_other task (s : Settlement) w w' (t : Task C) :
  task ≠ k → call (t_callbacks t) = task →
  tasks w !! task = Some t → resume task s w = Some w' →
  tally k w' = tally k w.
Proof.
  intros Hne Hcall Hlook Hres.
  assert ((call (t_callbacks t) =? k) = false) as Hc
    by (apply Nat.eqb_neq; congruence).
  destruct (resume_cases task s w w' t Hlook Hres)
    as [(Ht & Ha & Hu & st & Hk & _)
       |[(Ha & Hk & _ & [(Ht & u & Hu & Hl & _)|(Ht & Hu)])
        |(Ht & Hu & _ & x & n & Ha & Hh & _ & _ & Hk)]];
    unfold tally, starts, ends; rewrite Ht, Ha, Hu, Hk, (lookup_withState_ne _ _ _ _ Hne).
  - reflexivity.
  - rewrite !count_utterance_snoc by reflexivity.
    unfold callIs. rewrite Hl, Hc. simpl. rewrite !Nat.add_0_r. reflexivity.
  - rewrite !count_trace_snoc, Hc. simpl. rewrite !Nat.add_0_r. reflexivity.
  - rewrite !count_audio_snoc by reflexivity.
    unfold callIs. rewrite Hh, Hc. simpl. rewrite !Nat.add_0_r. reflexivity.
Qed.

(** A settlement for invocation [k] itself, [play()] rejections apart. *)
Lemma balanced_resume_self (s : Settlement) w w' (t : Task C) :
  call (t_callbacks t) = k → tasks w !! k = Some t →
  (isAwaitPlay (t_state t) = true → s ≠ Rejection) →
  resume k s w = Some w' →
  balanced (tally k w) → balanced (tally k w').
Proof.
  intros Hcall Hlook Hnorej Hres Hbal.
  assert (k_state (tally k w) = Some (t_state t)) as Hks
    by (simpl; rewrite Hlook; reflexivity).
  assert ((call (t_callbacks t) =? k) = true) as Hc by (apply Nat.eqb_eq; exact Hcall).
  destruct (resume_cases k s w w' t Hlook Hres)
    as [(Ht & Ha & Hu & st & Hk & Hst)
       |[(Ha & Hk & Hearly & Hlocal)
        |(Ht & Hu & Hearly & x & n & Ha & Hh & Hdp & Hfin & Hk)]].
  - rewrite (tally_same w w' Ht Ha Hu), Hk, (lookup_withState_eq _ _ _ t Hlook).
    apply balanced_atState; [exact Hbal|]. rewrite Hks.
    destruct Hst as [->|[Hold Hnew]]; [right; right; reflexivity|].
    right; left. split; assumption.
  - destruct Hearly as [Hearly|[Hplay ->]]; [|destruct (Hnorej Hplay); reflexivity].
    destruct Hbal as (Hs & He & Hn & Hp).
    unfold phase, endedSilently in *. rewrite Hks in *.
    assert (n_audios (tally k w) = 0 ∧ n_utterances (tally k w) = 0) as [HnA HnU]
      by (destruct (t_state t); try discriminate Hearly; exact Hp).
    assert (n_ends (tally k w) ≤ a_ends (tally k w) + u_ends (tally k w)) as He'
      by (destruct (t_state t); try discriminate Hearly; lia).
    clear He Hp.
    assert (k_state (tally k w') = Some Resolved) as Hks'
      by (simpl; rewrite Hk; apply (lookup_withState_eq _ _ _ t Hlook)).
    destruct Hlocal as [(Ht & u & Hu & Hl & Hds & Hde)|(Ht & Hu)].
    + assert (n_utterances (tally k w') = 1) as HnU'.
      { simpl. rewrite Hu, count_utterance_snoc by reflexivity.
        unfold callIs at 2. rewrite Hl, Hc. simpl in HnU. rewrite HnU. reflexivity. }
      assert (u_starts (tally k w') = u_starts (tally k w)) as Hus.
      { simpl. rewrite Hu, count_utterance_snoc by reflexivity.
        rewrite Hds, andb_false_r. lia. }
      assert (u_ends (tally k w') = u_ends (tally k w)) as Hue.
      { simpl. rewrite Hu, count_utterance_snoc by reflexivity.
        rewrite Hde, andb_false_r. lia. }
      assert (n_starts (tally k w') = n_starts (tally k w) ∧
              n_ends (tally k w') = n_ends (tally k w) ∧
              n_audios (tally k w') = n_audios (tally k w) ∧
              a_starts (tally k w') = a_starts (tally k w) ∧
              a_ends (tally k w') = a_ends (tally k w)) as (Hns & Hne & Hna & Has & Hae)
        by (simpl; unfold starts, ends; rewrite Ht, Ha; repeat split).
      unfold balanced, phase, endedSilently.
      rewrite Hks', HnU', Hus, Hue, Hns, Hne, Hna, Has, Hae, HnA. simpl in *.
      repeat split; lia.
    + assert (n_ends (tally k w') = S (n_ends (tally k w))) as Hne.
      { simpl. unfold ends. rewrite Ht, count_trace_snoc, Hc. simpl. lia. }
      assert (n_starts (tally k w') = n_starts (tally k w)) as Hns.
      { simpl. unfold starts. rewrite Ht, count_trace_snoc, Hc. simpl. lia. }
      assert (n_audios (tally k w') = n_audios (tally k w) ∧
              n_utterances (tally k w') = n_utterances (tally k w) ∧
              a_starts (tally k w') = a_starts (tally k w) ∧
              a_ends (tally k w') = a_ends (tally k w) ∧
              u_starts (tally k w') = u_starts (tally k w) ∧
              u_ends (tally k w') = u_ends (tally k w))
        as (Hna & Hnu & Has & Hae & Hus & Hue)
        by (simpl; rewrite Ha, Hu; repeat split).
      unfold balanced, phase, endedSilently.
      rewrite Hks', Hne, Hns, Hna, Hnu, Has, Hae, Hus, Hue, HnA, HnU. simpl in *.
      repeat split; lia.
  - destruct Hbal as (Hs & He & Hn & Hp).
    unfold phase, endedSilently in *. rewrite Hks in *.
    assert (n_audios (tally k w) = 0 ∧ n_utterances (tally k w) = 0) as [HnA HnU]
      by (destruct (t_state t); try discriminate Hearly; exact Hp).
    assert (n_ends (tally k w) ≤ a_ends (tally k w) + u_ends (tally k w)) as He'
      by (destruct (t_state t); try discriminate Hearly; lia).
    clear He Hp.
    assert (k_state (tally k w') = Some (AwaitPlay n)) as Hks'
      by (simpl; rewrite Hk; apply (lookup_withState_eq _ _ _ t Hlook)).
    assert (n_audios (tally k w') = 1) as HnA'.
    { simpl. rewrite Ha, count_audio_snoc by reflexivity.
      unfold callIs at 2. rewrite Hh, Hc. simpl in HnA. rewrite HnA. reflexivity. }
    assert (a_starts (tally k w') = a_starts (tally k w)) as Has.
    { simpl. rewrite Ha, count_audio_snoc by reflexivity.
      rewrite Hdp, andb_false_r. lia. }
    assert (a_ends (tally k w') = a_ends (tally k w)) as Hae.
    { simpl. rewrite Ha, count_audio_snoc by reflexivity.
      rewrite Hfin, andb_false_r. lia. }
    assert (n_starts (tally k w') = n_starts (tally k w) ∧
            n_ends (tally k w') = n_ends (tally k w) ∧
            n_utterances (tally k w') = n_utterances (tally k w) ∧
            u_starts (tally k w') = u_starts (tally k w) ∧
            u_ends (tally k w') = u_ends (tally k w)) as (Hns & Hne & Hnu & Hus & Hue)
      by (simpl; unfold starts, ends; rewrite Ht, Hu; repeat split).
    unfold balanced, phase, endedSilently.
    rewrite Hks', HnA', Has, Hae, Hns, Hne, Hnu, Hus, Hue, HnU. simpl in *.
    repeat split; lia.
Qed.

Lemma balanced_step (e : Event) w w' :
  indexed w → balanced (tally k w) → rejectsPlay k e w = false →
  step e w = Some w' → balanced (tally k w').
Proof.
  intros Hidx Hbal Hrej. destruct e as [text speakerType s e| |h]; simpl.
  - intros [= <-].
    destruct (playNativeTts_spec w text speakerType s e)
      as (Hk & _ & _ & Ha & Hu & _ & Ht & _).
    destruct (stopNativeTts_spec w) as (_ & _ & _ & _ & Ht0 & _).
    rewrite (tally_same (stopNativeTts w)), tally_stopNativeTts, Hk;
      [|congruence | exact Ha | exact Hu].
    apply balanced_atState; [exact Hbal|].
    destruct (tasks w !! k) as [t|] eqn:Hlook.
    + left. simpl. rewrite (lookup_app_l_Some _ _ _ _ Hlook), Hlook. reflexivity.
    + right; left. simpl. rewrite Hlook. split; [exact I|].
      apply lookup_ge_None in Hlook. rewrite lookup_app_r by exact Hlook.
      destruct (k - length (tasks w)) as [|n]; simpl; [|exact I].
      destruct (isEdgeTtsAvailable w); reflexivity.
  - intros [= <-]. rewrite tally_stopNativeTts. exact Hbal.
  - destruct h as [task s|vs|a|a|a|a t|u|u|u];
      try (intros Hstep; eapply balanced_hostStep; [|exact Hstep | exact Hbal];
           discriminate).
    simpl. intros Hres.
    destruct (tasks w !! task) as [t|] eqn:Hlook;
      [|unfold resume in Hres; rewrite Hlook in Hres; discriminate Hres].
    destruct (decide (task = k)) as [->|Hne].
    + apply (balanced_resume_self s w w' t (Hidx k t Hlook) Hlook);
        [|exact Hres | exact Hbal].
      intros Hplay ->. simpl in Hrej. rewrite Hlook, Hplay, Nat.eqb_refl in Hrej.
      discriminate Hrej.
    + rewrite (tally_resume_other task s w w' t Hne (Hidx task t Hlook) Hlook Hres).
      exact Hbal.
Qed.

Lemma balanced_run (es : list Event) w w' :
  indexed w → balanced (tally k w) → playNeverRejected k es w = true →
  run es w = Some w' → balanced (tally k w').
Proof.
  revert w. induction es as [|e es IH]; intros w Hidx Hbal; simpl.
  - intros _ [= <-]. exact Hbal.
  - intros Hquiet. apply andb_true_iff in Hquiet as [Hrej Hquiet].
    apply negb_true_iff in Hrej.
    destruct (step e w) as [w1|] eqn:He; simpl; [|discriminate].
    apply IH; [exact (indexed_step e w w1 Hidx He) | | exact Hquiet].
    exact (balanced_step e w w1 Hidx Hbal Hrej He).
Qed.

Lemma init_balanced (c : C) has vs :
  indexed (init c has vs) ∧ balanced (tally k (init c has vs)).
Proof.
  assert (tasks (init c has vs) = [] ∧ trace (init c has vs) = [] ∧
          audios (init c has vs) = [] ∧ utterances (init c has vs) = [])
    as (Hk & Ht & Ha & Hu)
    by (unfold init, loadVoices; simpl; destruct has; repeat split).
  split.
  - intros i t Hi. rewrite Hk, lookup_nil in Hi. discriminate Hi.
  - unfold balanced, phase, endedSilently, tally, starts, ends.
    rewrite Hk, Ht, Ha, Hu, lookup_nil. simpl. repeat split; lia.
Qed.

(** In a run in which the [play()] promise of an invocation is never rejected,
    both of its callbacks are called at most once; a rejected [play()] is the
    only way to more. *)
Lemma callbacks_at_most_once_unless_play_rejected
      (c : C) (has : bool) (vs : list SpeechSynthesisVoice) (es : list Event) w :
  run es (init c has vs) = Some w →
  playNeverRejected k es (init c has vs) = true →
  starts k w ≤ 1 ∧ ends k w ≤ 1.
Proof.
  intros Hrun Hquiet. apply balanced_at_most_once.
  destruct (init_balanced c has vs) as [Hidx Hbal].
  exact (balanced_run es _ w Hidx Hbal Hquiet Hrun).
Qed.

End Accounting.

(** One call whose [/tts] request is answered 500: the local synthesizer speaks
    the passage, and each callback is called once. *)
Example fallback_calls_each_callback_once :
  ∃ w, run (Scenario.tts500 ++ [Host (UttStart 0); Host (UttEnd 0)])
           Scenario.freshHost = Some w ∧
       playNeverRejected 0 (Scenario.tts500 ++ [Host (UttStart 0); Host (UttEnd 0)])
                         Scenario.freshHost = true ∧
       starts 0 w = 1 ∧ ends 0 w = 1 ∧ client w = (1, 1).
Proof. eexists. split; [vm_compute; reflexivity|]. repeat split. Qed.

(** * Further properties *)

(** ** Voice selection *)

Lemma string_app_assoc (a b c : string) :
  ((a ++ b) ++ c)%string = (a ++ b ++ c)%string.
Proof. induction a as [|x a IH]; simpl; [reflexivity|]. rewrite IH. reflexivity. Qed.

Lemma pool_In (voices : list SpeechSynthesisVoice) (v : SpeechSynthesisVoice) :
  In v (Voices.pool voices) →
  In v voices ∧ ((∃ u, In u voices ∧ lang u = "en-US") → lang v = "en-US").
Proof.
  unfold Voices.pool, Voices.usVoices.
  destruct (List.filter _ voices) as [|u us] eqn:Hf.
  - intros Hin. split; [exact Hin|]. intros [u [Hu Hlang]].
    assert (In u (List.filter (fun v => String.eqb (lang v) "en-US") voices)) as H
      by (apply filter_In; split; [exact Hu | apply String.eqb_eq; exact Hlang]).
    rewrite Hf in H. destruct H.
  - rewrite <- Hf. intros Hin. apply filter_In in Hin as [Hin Hlang].
    split; [exact Hin|]. intros _. apply String.eqb_eq. exact Hlang.
Qed.

Lemma pool_nil (voices : list SpeechSynthesisVoice) :
  Voices.pool voices = [] → voices = [].
Proof.
  unfold Voices.pool. destruct (Voices.usVoices voices); [tauto | discriminate].
Qed.

Lemma selectVoice_In_pool (voices : list SpeechSynthesisVoice) (speakerType : string) v :
  Voices.selectVoice voices speakerType = Some v → In v (Voices.pool voices).
Proof.
  unfold Voices.selectVoice, Voices.findVoice.
  destruct (Voices.keywordsFor speakerType) as [keywords|].
  - destruct (List.find _ (Voices.pool voices)) as [x|] eqn:Hfind.
    + intros [= <-]. exact (proj1 (find_some _ _ Hfind)).
    + destruct (Voices.pool voices); simpl; [discriminate|].
      intros [= <-]. left. reflexivity.
  - destruct (Voices.pool voices); simpl; [discriminate|].
    intros [= <-]. left. reflexivity.
Qed.

(** The selected voice is one of the voices offered, for every speaker type;
    as soon as one voice is tagged [en-US], the selected voice is tagged
    [en-US] too, whatever the keywords match elsewhere. *)
Theorem selectVoice_is_offered_and_prefers_en_US :
  ∀ (voices : list SpeechSynthesisVoice) (speakerType : string) v,
    Voices.selectVoice voices speakerType = Some v →
    In v voices ∧ ((∃ u, In u voices ∧ lang u = "en-US") → lang v = "en-US").
Proof.
  intros voices speakerType v Hsel.
  apply pool_In. exact (selectVoice_In_pool voices speakerType v Hsel).
Qed.

Lemma selectVoice_is_offered_witness :
  In Scenario.samantha [Scenario.ukFemale; Scenario.samantha] ∧
  lang Scenario.samantha = "en-US".
Proof.
  destruct (selectVoice_is_offered_and_prefers_en_US
              [Scenario.ukFemale; Scenario.samantha] "female" Scenario.samantha
              eq_refl) as [Hin Hus].
  split; [exact Hin|]. apply Hus. exists Scenario.samantha.
  split; [right; left; reflexivity | reflexivity].
Defined.

(** No voice is selected exactly when the voice list is empty: [utterance.voice]
    is left to the host's default only then, for every speaker type. *)
Theorem selectVoice_none_iff_no_voice :
  ∀ (voices : list SpeechSynthesisVoice) (speakerType : string),
    Voices.selectVoice voices speakerType = None ↔ voices = [].
Proof.
  intros voices speakerType. split.
  - intros Hsel. apply pool_nil.
    unfold Voices.selectVoice in Hsel.
    destruct (Voices.pool voices) as [|x p]; [reflexivity|].
    destruct (match Voices.keywordsFor speakerType with
              | Some keywords => Voices.findVoice (x :: p) keywords
              | None => None
              end); discriminate Hsel.
  - intros ->. unfold Voices.selectVoice, Voices.findVoice.
    destruct (Voices.keywordsFor speakerType); reflexivity.
Qed.

Lemma includes_female_male (s : string) :
  Str.includes s "female" = true → Str.includes s "male" = true.
Proof.
  intros H. apply includes_spec in H as (pre & post & ->).
  apply includes_spec. exists (pre ++ "fe")%string, post.
  rewrite string_app_assoc. reflexivity.
Qed.

(** The keyword "male" of the male and lecturer lists is a substring of
    "female": a voice whose name contains "female", in any case, matches both
    lists, and when such a voice is in the pool the voice for role male or
    lecturer is always one found by keyword, never the fallback. *)
Theorem female_voice_matches_male_keywords :
  ∀ (voices : list SpeechSynthesisVoice) (v : SpeechSynthesisVoice),
    Str.includes (Str.toLowerCase (name v)) "female" = true →
    In v (Voices.pool voices) →
    Voices.matchesAny Voices.maleKeywords v = true ∧
    Voices.matchesAny Voices.lecturerKeywords v = true ∧
    (∃ m, Voices.selectVoice voices "male" = Some m ∧
          Voices.matchesAny Voices.maleKeywords m = true) ∧
    (∃ l, Voices.selectVoice voices "lecturer" = Some l ∧
          Voices.matchesAny Voices.lecturerKeywords l = true).
Proof.
  intros voices v Hname Hin.
  apply includes_female_male in Hname.
  assert (Voices.matchesAny Voices.maleKeywords v = true) as Hm.
  { unfold Voices.matchesAny. apply existsb_exists. exists "male".
    split; [simpl; tauto | exact Hname]. }
  assert (Voices.matchesAny Voices.lecturerKeywords v = true) as Hl.
  { unfold Voices.matchesAny. apply existsb_exists. exists "male".
    split; [simpl; tauto | exact Hname]. }
  split; [exact Hm|]. split; [exact Hl|]. split.
  - unfold Voices.selectVoice, Voices.findVoice.
    change (Voices.keywordsFor "male") with (Some Voices.maleKeywords).
    destruct (List.find (Voices.matchesAny Voices.maleKeywords) (Voices.pool voices))
      as [m|] eqn:Hfind.
    + exists m. split; [reflexivity | exact (proj2 (find_some _ _ Hfind))].
    + rewrite (find_none _ _ Hfind v Hin) in Hm. discriminate Hm.
  - unfold Voices.selectVoice, Voices.findVoice.
    change (Voices.keywordsFor "lecturer") with (Some Voices.lecturerKeywords).
    destruct (List.find (Voices.matchesAny Voices.lecturerKeywords) (Voices.pool voices))
      as [l|] eqn:Hfind.
    + exists l. split; [reflexivity | exact (proj2 (find_some _ _ Hfind))].
    + rewrite (find_none _ _ Hfind v Hin) in Hl. discriminate Hl.
Qed.

Lemma female_voice_matches_male_keywords_witness :
  Voices.selectVoice [Scenario.ukFemale] "male" = Some Scenario.ukFemale ∧
  Voices.matchesAny Voices.maleKeywords Scenario.ukFemale = true.
Proof.
  destruct (female_voice_matches_male_keywords
              [Scenario.ukFemale] Scenario.ukFemale eq_refl
              (or_introl eq_refl)) as (Hm & _ & _ & _).
  split; [reflexivity | exact Hm].
Defined.

(** ** The shape of a step *)

Section Shapes.

Context {C : Type}.
Implicit Types (w : World C) (cb : Callbacks C).

(** A property of the module as loaded that every event keeps holds after
    every run. *)
Lemma run_invariant (I : World C → Prop) :
  (∀ e w w', I w → step e w = Some w' → I w') →
  ∀ (es : list Event) w w', I w → run es w = Some w' → I w'.
Proof.
  intros Hstep es. induction es as [|e es IH]; intros w w' Hw; simpl.
  - intros [= <-]. exact Hw.
  - destruct (step e w) as [w1|] eqn:He; simpl; [|discriminate].
    apply IH. exact (Hstep e w w1 Hw He).
Qed.

Lemma playBrowserTts_tasks w (text speakerType : string) cb :
  tasks (playBrowserTts text speakerType cb w) = tasks w.
Proof. exact (proj1 (playBrowserTts_frame w text speakerType cb)). Qed.

Lemma playBrowserTts_audios w (text speakerType : string) cb :
  audios (playBrowserTts text speakerType cb w) = audios w.
Proof. apply (playBrowserTts_frame w text speakerType cb). Qed.

Lemma playBrowserTts_requests w (text speakerType : string) cb :
  requests (playBrowserTts text speakerType cb w) = requests w.
Proof. apply (playBrowserTts_frame w text speakerType cb). Qed.

Lemma playBrowserTts_audioElement w (text speakerType : string) cb :
  audioElement (playBrowserTts text speakerType cb w) = audioElement w.
Proof. apply (playBrowserTts_frame w text speakerType cb). Qed.

Lemma playBrowserTts_objectUrls w (text speakerType : string) cb :
  objectUrls (playBrowserTts text speakerType cb w) = objectUrls w.
Proof. apply (playBrowserTts_frame w text speakerType cb). Qed.

Lemma playBrowserTts_flag w (text speakerType : string) cb :
  isEdgeTtsAvailable (playBrowserTts text speakerType cb w) = isEdgeTtsAvailable w.
Proof. apply (playBrowserTts_frame w text speakerType cb). Qed.

Lemma playBrowserTts_has w (text speakerType : string) cb :
  hasSpeechSynthesis (playBrowserTts text speakerType cb w) = hasSpeechSynthesis w.
Proof. apply (playBrowserTts_frame w text speakerType cb). Qed.

(** A settlement either leaves the audio heap alone or creates the element of
    the invocation, with a fresh blob URL, and stores it in the module
    variable. *)
Lemma resume_heap task (s : Settlement) w w' (t : Task C) :
  tasks w !! task = Some t → resume task s w = Some w' →
  hasSpeechSynthesis w' = hasSpeechSynthesis w ∧
  ((audios w' = audios w ∧ objectUrls w' = objectUrls w ∧
    audioElement w' = audioElement w) ∨
   (objectUrls w' = objectUrls w ++ [true] ∧
    audios w' = alter play (length (audios w))
                      (audios w ++ [mkAudio (length (objectUrls w)) true 0
                                            (t_callbacks t) false false]) ∧
    audioElement w' = Some (length (audios w)))).
Proof.
  intros Hlook. unfold resume. rewrite Hlook. simpl.
  destruct (t_state t) eqn:Hst; destruct s as [status| |]; simpl;
    try discriminate; intros Hw';
    try (destruct (negb (ok status)); simpl in Hw');
    injection Hw' as <-;
    try (destruct b); try (destruct (ok status)); simpl;
    rewrite ?playBrowserTts_has, ?playBrowserTts_audios,
            ?playBrowserTts_objectUrls, ?playBrowserTts_audioElement;
    simpl; (split; [reflexivity|]);
    first [left; repeat split; reflexivity | right; repeat split; reflexivity].
Qed.

(** A settlement moves the invocation past the probe, and sends at most the
    [/tts] request of that invocation, when it leaves the probe for the remote
    path. *)
Lemma resume_requests task (s : Settlement) w w' (t : Task C) :
  tasks w !! task = Some t → resume task s w = Some w' →
  ∃ st, tasks w' = alter (withState st) task (tasks w) ∧
        awaitsProbe st = false ∧
        (requests w' = requests w ∨
         (awaitsProbe (t_state t) = true ∧
          requests w' = requests w ++ [PostTts (t_text t) (t_speakerType t)])).
Proof.
  intros Hlook. unfold resume. rewrite Hlook. simpl.
  destruct (t_state t) eqn:Hst; destruct s as [status| |]; simpl;
    try discriminate; intros Hw';
    try (destruct (negb (ok status)); simpl in Hw');
    injection Hw' as <-;
    try (destruct b); try (destruct (ok status)); simpl;
    rewrite ?playBrowserTts_tasks, ?playBrowserTts_requests; simpl;
    eexists; (split; [reflexivity|]); (split; [reflexivity|]);
    first [left; reflexivity | right; split; reflexivity].
Qed.

(** A host event that is not a settlement touches one heap at most. *)
Lemma hostStep_shape (h : HostEvent) w w' :
  (∀ task s, h ≠ Settle task s) → hostStep h w = Some w' →
  hasSpeechSynthesis w' = hasSpeechSynthesis w ∧
  ((audios w' = audios w ∧ objectUrls w' = objectUrls w ∧
    audioElement w' = audioElement w ∧ utterances w' = utterances w) ∨
   (∃ a x f, audios w !! a = Some x ∧ audios w' = alter f a (audios w) ∧
             (∀ y, src (f y) = src y ∧ paused (f y) = paused y ∧
                   finished (f y) = finished y ∧ handlers (f y) = handlers y) ∧
             objectUrls w' = objectUrls w ∧ audioElement w' = audioElement w ∧
             utterances w' = utterances w) ∨
   (∃ a x, audios w !! a = Some x ∧ finished x = false ∧
           audios w' = alter markFinished a (audios w) ∧
           objectUrls w' = <[src x := false]> (objectUrls w) ∧
           audioElement w' = None ∧ utterances w' = utterances w) ∨
   (∃ u x f, utterances w !! u = Some x ∧ utterances w' = alter f u (utterances w) ∧
             (∀ y, queued (f y) = true → queued y = true) ∧
             audios w' = audios w ∧ objectUrls w' = objectUrls w ∧
             audioElement w' = audioElement w)).
Proof.
  intros Hh. destruct h as [task s|vs|a|a|a|a t|u|u|u]; simpl.
  - destruct (Hh task s). reflexivity.
  - destruct (hasSpeechSynthesis w) eqn:Hcap; [|discriminate]. intros [= <-].
    unfold loadVoices. simpl. rewrite Hcap. simpl.
    split; [exact Hcap|]. left. repeat split.
  - destruct (audios w !! a) as [x|] eqn:Hlook; simpl; [|discriminate].
    destruct (negb (dispatchedPlay x)); [|discriminate]. intros [= <-].
    split; [reflexivity|]. right; left. exists a, x, markPlay.
    split; [exact Hlook|]. split; [reflexivity|]. split; [intros y; repeat split|].
    repeat split.
  - destruct (audios w !! a) as [x|] eqn:Hlook; simpl; [|discriminate].
    destruct (dispatchedPlay x && negb (paused x) && negb (finished x)) eqn:Hg;
      [|discriminate]. intros [= <-].
    apply andb_true_iff in Hg as [_ Hfin]. apply negb_true_iff in Hfin.
    split; [reflexivity|]. right; right; left. exists a, x.
    split; [exact Hlook|]. split; [exact Hfin|]. repeat split.
  - destruct (audios w !! a) as [x|] eqn:Hlook; simpl; [|discriminate].
    destruct (finished x) eqn:Hfin; simpl; [discriminate|]. intros [= <-].
    split; [reflexivity|]. right; right; left. exists a, x.
    split; [exact Hlook|]. split; [exact Hfin|]. repeat split.
  - destruct (audios w !! a) as [x|] eqn:Hlook; simpl; [|discriminate].
    destruct (dispatchedPlay x && negb (paused x) && negb (finished x));
      [|discriminate]. intros [= <-].
    split; [reflexivity|]. right; left. exists a, x, (seek t).
    split; [exact Hlook|]. split; [reflexivity|]. split; [intros y; repeat split|].
    repeat split.
  - destruct (utterances w !! u) as [x|] eqn:Hlook; simpl; [|discriminate].
    destruct (queued x && negb (dispatchedStart x) && negb (dispatchedEnd x));
      [|discriminate]. intros [= <-].
    split; [reflexivity|]. right; right; right. exists u, x, markStart.
    split; [exact Hlook|]. split; [reflexivity|].
    split; [intros y Hy; exact Hy|]. repeat split.
  - destruct (utterances w !! u) as [x|] eqn:Hlook; simpl; [|discriminate].
    destruct (dispatchedStart x && negb (dispatchedEnd x)); [|discriminate].
    intros [= <-].
    split; [reflexivity|]. right; right; right. exists u, x, markEnd.
    split; [exact Hlook|]. split; [reflexivity|].
    split; [intros y Hy; discriminate Hy|]. repeat split.
  - destruct (utterances w !! u) as [x|] eqn:Hlook; simpl; [|discriminate].
    destruct (negb (dispatchedEnd x)); [|discriminate]. intros [= <-].
    split; [reflexivity|]. right; right; right. exists u, x, markEnd.
    split; [exact Hlook|]. split; [reflexivity|].
    split; [intros y Hy; discriminate Hy|]. repeat split.
Qed.

End Shapes.

(** ** Invariants of the module *)

Lemma count_alter_le {A : Type} (p : A -> bool) (f : A -> A) (l : list A) i :
  (∀ x, p (f x) = true → p x = true) → count p (alter f i l) ≤ count p l.
Proof.
  intros H. revert i. induction l as [|y l IH]; intros [|i]; simpl; try lia.
  - specialize (H y). destruct (p (f y)); [rewrite H by reflexivity|]; destruct (p y); lia.
  - specialize (IH i). change (list_alter f i l) with (alter f i l). lia.
Qed.

Lemma count_alter_drop {A : Type} (p : A -> bool) (f : A -> A) (l : list A) i x :
  l !! i = Some x → p (f x) = false →
  count p (alter f i l) + (if p x then 1 else 0) = count p l.
Proof.
  revert i. induction l as [|y l IH]; intros [|i]; simpl; try discriminate.
  - intros [= ->] ->. destruct (p x); lia.
  - intros Hl Hx. specialize (IH i Hl Hx).
    change (list_alter f i l) with (alter f i l). lia.
Qed.

Lemma count_fmap_none {A : Type} (p : A -> bool) (f : A -> A) (l : list A) :
  (∀ x, p (f x) = false) → count p (f <$> l) = 0.
Proof.
  intros H. induction l as [|y l IH]; simpl; [reflexivity|]. rewrite H. exact IH.
Qed.

Section Invariants.

Context {C : Type}.
Implicit Types (w : World C) (cb : Callbacks C).

(** *** Blob URLs *)

Lemma urls_alter (f : HTMLAudioElement C → HTMLAudioElement C) a
      (urls : list bool) (au : list (HTMLAudioElement C)) :
  (∀ y, src (f y) = src y ∧ finished (f y) = finished y) →
  (∀ b x, au !! b = Some x → src x = b ∧ urls !! b = Some (negb (finished x))) →
  ∀ b x, alter f a au !! b = Some x →
         src x = b ∧ urls !! b = Some (negb (finished x)).
Proof.
  intros Hf Hau b x. destruct (decide (a = b)) as [->|Hne].
  - rewrite list_lookup_alter_eq. destruct (au !! b) as [y|] eqn:Hy; simpl; [|discriminate].
    intros [= <-]. destruct (Hf y) as [-> ->]. exact (Hau b y Hy).
  - rewrite list_lookup_alter_ne by exact Hne. apply Hau.
Qed.

Lemma urlsAccounted_host (h : HostEvent) w w' :
  (∀ task s, h ≠ Settle task s) →
  urlsAccounted w → hostStep h w = Some w' → urlsAccounted w'.
Proof.
  intros Hh [Hlen Hau] Hstep.
  apply hostStep_shape in Hstep as [_ Hshape]; [|exact Hh].
  destruct Hshape
    as [(Ha & Ho & _)
       |[(b & x & f & Hx & Ha & Hf & Ho & _)
        |[(b & x & Hx & Hfin & Ha & Ho & _)|(_ & _ & _ & _ & _ & _ & Ha & Ho & _)]]];
    unfold urlsAccounted; rewrite Ha, Ho.
  - split; assumption.
  - split; [rewrite length_alter; exact Hlen|].
    apply urls_alter; [intros y; split; apply Hf | exact Hau].
  - destruct (Hau b x Hx) as [Hsrc Hurl]. rewrite Hsrc.
    split; [rewrite length_alter, length_insert; exact Hlen|].
    intros d y. destruct (decide (b = d)) as [<-|Hne].
    + rewrite list_lookup_alter_eq, Hx. simpl. intros [= <-]. simpl.
      split; [exact Hsrc|]. apply list_lookup_insert_eq.
      rewrite Hlen. apply lookup_lt_Some in Hx. exact Hx.
    + rewrite list_lookup_alter_ne, list_lookup_insert_ne by exact Hne. apply Hau.
  - split; assumption.
Qed.

Lemma urlsAccounted_step (e : Event) w w' :
  urlsAccounted w → step e w = Some w' → urlsAccounted w'.
Proof.
  intros Hw. destruct e as [text speakerType s e| |h]; simpl.
  - intros [= <-]. destruct Hw as [Hlen Hau].
    destruct (playNativeTts_spec w text speakerType s e)
      as (_ & _ & _ & Ha & _ & _ & _ & _ & Ho & _).
    destruct (stopNativeTts_spec w) as (_ & Ha0 & _).
    unfold urlsAccounted. rewrite Ha, Ha0, Ho.
    destruct (audioElement w) as [a|]; [|split; assumption].
    split; [rewrite length_alter; exact Hlen|].
    apply urls_alter; [intros y; split; reflexivity | exact Hau].
  - intros [= <-]. destruct Hw as [Hlen Hau].
    destruct (stopNativeTts_spec w) as (_ & Ha0 & _ & _ & _ & _ & _ & _ & Ho & _).
    unfold urlsAccounted. rewrite Ha0, Ho.
    destruct (audioElement w) as [a|]; [|split; assumption].
    split; [rewrite length_alter; exact Hlen|].
    apply urls_alter; [intros y; split; reflexivity | exact Hau].
  - destruct h as [task s|vs|a|a|a|a t|u|u|u];
      [|apply urlsAccounted_host; [discriminate | exact Hw]..].
    simpl. intros Hres. destruct Hw as [Hlen Hau].
    destruct (tasks w !! task) as [t|] eqn:Hlook;
      [|unfold resume in Hres; rewrite Hlook in Hres; discriminate Hres].
    destruct (resume_heap task s w w' t Hlook Hres)
      as [_ [(Ha & Ho & _)|(Ho & Ha & _)]];
      unfold urlsAccounted; rewrite Ha, Ho; [split; assumption|].
    split; [rewrite length_alter, !length_app; simpl; lia|].
    apply urls_alter; [intros y; split; reflexivity|].
    intros b x Hb. apply lookup_app_Some in Hb as [Hb|[Hge Hb]].
    + destruct (Hau b x Hb) as [Hsrc Hurl]. split; [exact Hsrc|].
      rewrite lookup_app_l; [exact Hurl|]. apply lookup_lt_Some in Hb. lia.
    + destruct (b - length (audios w)) as [|n] eqn:Hn; simpl in Hb; [|discriminate].
      injection Hb as <-. simpl. assert (b = length (audios w)) as -> by lia.
      split; [exact Hlen|].
      rewrite lookup_app_r by lia. rewrite Hlen, Nat.sub_diag. reflexivity.
Qed.

Lemma count_urls (urls : list bool) (au : list (HTMLAudioElement C)) :
  length urls = length au →
  (∀ b x, au !! b = Some x → urls !! b = Some (negb (finished x))) →
  count (fun b : bool => b) urls = count (fun x => negb (finished x)) au.
Proof.
  revert au. induction urls as [|u urls IH]; intros [|x au]; simpl; try discriminate.
  - reflexivity.
  - intros [= Hlen] H. specialize (H 0 x eq_refl) as H0. simpl in H0.
    injection H0 as ->. f_equal. apply IH; [exact Hlen|].
    intros b y Hb. exact (H (S b) y Hb).
Qed.

(** Every blob URL belongs to the audio element of the same number and is
    revoked exactly when that element has ended or failed, on every run: the
    URLs still held are those of the elements that have not ended, so
    stopping an element does not release its URL. *)
Theorem blob_url_revoked_iff_element_finished :
  ∀ (c : C) (has : bool) (vs : list SpeechSynthesisVoice) (es : list Event) w,
    run es (init c has vs) = Some w →
    urlsAccounted w ∧
    liveUrls w = count (fun x => negb (finished x)) (audios w).
Proof.
  intros c has vs es w Hrun.
  assert (urlsAccounted w) as Hacc.
  { apply (run_invariant urlsAccounted urlsAccounted_step es (init c has vs) w);
      [|exact Hrun].
    unfold init, loadVoices, urlsAccounted. simpl.
    destruct has; simpl; (split; [reflexivity|]);
      intros a x Hx; rewrite lookup_nil in Hx; discriminate Hx. }
  split; [exact Hacc|]. destruct Hacc as [Hlen Hau].
  apply count_urls; [exact Hlen|]. intros b x Hb. exact (proj2 (Hau b x Hb)).
Qed.

End Invariants.

Lemma blob_url_witness :
  ∃ w, run Scenario.twoCallsInTurn Scenario.freshHost = Some w ∧
       liveUrls w = count (fun x => negb (finished x)) (audios w).
Proof.
  eexists. split; [vm_compute; reflexivity|].
  refine (proj2 (blob_url_revoked_iff_element_finished
                   (0, 0) true [Scenario.zira] Scenario.twoCallsInTurn _ _)).
  vm_compute. reflexivity.
Defined.

Section Handles.

Context {C : Type}.
Implicit Types (w : World C) (cb : Callbacks C).

(** *** The module variable *)

Lemma currentIsNewest_host (h : HostEvent) w w' :
  (∀ task s, h ≠ Settle task s) →
  currentIsNewest w → hostStep h w = Some w' → currentIsNewest w'.
Proof.
  intros Hh Hw Hstep.
  apply hostStep_shape in Hstep as [_ Hshape]; [|exact Hh].
  destruct Hshape
    as [(Ha & _ & He & _)
       |[(b & x & f & Hx & Ha & Hf & _ & He & _)
        |[(b & x & Hx & Hfin & Ha & _ & He & _)|(_ & _ & _ & _ & _ & _ & Ha & _ & He)]]];
    unfold currentIsNewest; rewrite Ha, He; try exact Hw; [|discriminate].
  intros a Hcur. destruct (Hw a Hcur) as (Hlen & y & Hy & Hlive).
  split; [rewrite length_alter; exact Hlen|].
  destruct (decide (b = a)) as [->|Hne].
  - exists (f y). rewrite list_lookup_alter_eq, Hy. split; [reflexivity|].
    unfold live in *. destruct (Hf y) as (_ & -> & -> & _). exact Hlive.
  - exists y. rewrite list_lookup_alter_ne by exact Hne. split; assumption.
Qed.

Lemma currentIsNewest_step (e : Event) w w' :
  currentIsNewest w → step e w = Some w' → currentIsNewest w'.
Proof.
  intros Hw. destruct e as [text speakerType s e| |h]; simpl.
  - intros [= <-].
    destruct (playNativeTts_spec w text speakerType s e) as (_ & _ & He & _).
    intros a Ha. rewrite He in Ha. discriminate Ha.
  - intros [= <-]. destruct (stopNativeTts_spec w) as (He & _).
    intros a Ha. rewrite He in Ha. discriminate Ha.
  - destruct h as [task s|vs|a|a|a|a t|u|u|u];
      [|apply currentIsNewest_host; [discriminate | exact Hw]..].
    simpl. intros Hres.
    destruct (tasks w !! task) as [t|] eqn:Hlook;
      [|unfold resume in Hres; rewrite Hlook in Hres; discriminate Hres].
    destruct (resume_heap task s w w' t Hlook Hres)
      as [_ [(Ha & _ & He)|(_ & Ha & He)]];
      unfold currentIsNewest; rewrite Ha, He; [exact Hw|].
    intros a [= <-]. split; [rewrite length_alter, length_app; simpl; lia|].
    eexists. split.
    + rewrite list_lookup_alter_eq, lookup_app_r by lia.
      rewrite Nat.sub_diag. reflexivity.
    + reflexivity.
Qed.


(** *** The synthesizer's queue *)

Lemma queuedUtterances_host (h : HostEvent) w w' :
  (∀ task s, h ≠ Settle task s) →
  queuedUtterances w ≤ 1 → hostStep h w = Some w' → queuedUtterances w' ≤ 1.
Proof.
  intros Hh Hw Hstep. unfold queuedUtterances in *.
  apply hostStep_shape in Hstep as [_ Hshape]; [|exact Hh].
  destruct Hshape
    as [(_ & _ & _ & Hu)
       |[(_ & _ & _ & _ & _ & _ & _ & _ & Hu)
        |[(_ & _ & _ & _ & _ & _ & _ & Hu)|(b & x & f & _ & Hu & Hf & _)]]];
    rewrite Hu; try exact Hw.
  pose proof (count_alter_le queued f (utterances w) b Hf). lia.
Qed.

Lemma queuedUtterances_step (e : Event) w w' :
  queuedUtterances w ≤ 1 → step e w = Some w' → queuedUtterances w' ≤ 1.
Proof.
  intros Hw.
  assert (∀ l : list (SpeechSynthesisUtterance C), count queued (dequeue <$> l) = 0)
    as Hdq by (intros l; apply count_fmap_none; reflexivity).
  destruct e as [text speakerType s e| |h]; simpl.
  - intros [= <-]. unfold queuedUtterances in *.
    destruct (playNativeTts_spec w text speakerType s e) as (_ & _ & _ & _ & Hu & _).
    destruct (stopNativeTts_spec w) as (_ & _ & Hu0 & _).
    rewrite Hu, Hu0. destruct (hasSpeechSynthesis w); [rewrite Hdq; lia | exact Hw].
  - intros [= <-]. unfold queuedUtterances in *.
    destruct (stopNativeTts_spec w) as (_ & _ & Hu0 & _).
    rewrite Hu0. destruct (hasSpeechSynthesis w); [rewrite Hdq; lia | exact Hw].
  - destruct h as [task s|vs|a|a|a|a t|u|u|u];
      [|apply queuedUtterances_host; [discriminate | exact Hw]..].
    simpl. intros Hres. unfold queuedUtterances in *.
    destruct (tasks w !! task) as [t|] eqn:Hlook;
      [|unfold resume in Hres; rewrite Hlook in Hres; discriminate Hres].
    destruct (resume_cases task s w w' t Hlook Hres)
      as [(_ & _ & Hu & _)
         |[(_ & _ & _ & [(_ & u & Hu & _)|(_ & Hu)])|(_ & Hu & _)]];
      rewrite Hu; try exact Hw.
    rewrite count_snoc, Hdq. destruct (queued u); lia.
Qed.

(** The synthesizer's queue never holds more than one utterance of the
    module: a new utterance is queued only after [cancel()] has emptied the
    queue, on every path and on every run. *)
Theorem at_most_one_utterance_queued :
  ∀ (c : C) (has : bool) (vs : list SpeechSynthesisVoice) (es : list Event) w,
    run es (init c has vs) = Some w → queuedUtterances w ≤ 1.
Proof.
  intros c has vs es w Hrun.
  apply (run_invariant (fun w => queuedUtterances w ≤ 1) queuedUtterances_step
                       es (init c has vs) w); [|exact Hrun].
  unfold init, loadVoices, queuedUtterances. simpl. destruct has; simpl; lia.
Qed.

End Handles.


Lemma at_most_one_utterance_queued_witness :
  ∃ w, run Scenario.tts500 Scenario.freshHost = Some w ∧ queuedUtterances w ≤ 1.
Proof.
  eexists. split; [vm_compute; reflexivity|].
  refine (at_most_one_utterance_queued
            (0, 0) true [Scenario.zira] Scenario.tts500 _ _).
  vm_compute. reflexivity.
Defined.

(** ** Requests to the server *)

Section Requests.

Context {C : Type}.
Implicit Types (w : World C) (cb : Callbacks C).

Lemma requestsAccounted_step (e : Event) w w' :
  requestsAccounted w → step e w = Some w' → requestsAccounted w'.
Proof.
  intros [Hcount Hall]. destruct e as [text speakerType s e| |h]; simpl.
  - intros [= <-].
    destruct (playNativeTts_spec w text speakerType s e) as (Hk & Hr & _).
    unfold requestsAccounted. rewrite Hk, Hr. split.
    + rewrite !count_app, length_app. simpl.
      destruct (isEdgeTtsAvailable w); simpl; lia.
    + apply Forall_app. split.
      * eapply Forall_impl; [exact Hall|]. intros [|tx sp]; [tauto|].
        intros (i & t & Hi & Ht). exists i, t.
        split; [apply lookup_app_l_Some; exact Hi | exact Ht].
      * destruct (isEdgeTtsAvailable w); repeat constructor.
  - intros [= <-].
    destruct (stopNativeTts_spec w) as (_ & _ & _ & _ & _ & Hk & Hr & _).
    unfold requestsAccounted. rewrite Hk, Hr. split; assumption.
  - destruct h as [task s|vs|a|a|a|a t|u|u|u];
      try (intros Hstep; apply hostStep_probe in Hstep as (Hr & _ & Hk);
           [|discriminate]; unfold requestsAccounted; rewrite Hr, Hk;
           split; assumption).
    simpl. intros Hres.
    destruct (tasks w !! task) as [t|] eqn:Hlook;
      [|unfold resume in Hres; rewrite Hlook in Hres; discriminate Hres].
    destruct (resume_requests task s w w' t Hlook Hres) as (st & Hk & Hst & Hr).
    assert (∀ i x, tasks w !! i = Some x →
                   ∃ x', alter (withState st) task (tasks w) !! i = Some x' ∧
                         t_text x' = t_text x ∧ t_speakerType x' = t_speakerType x)
      as Hkeep.
    { intros i x Hi. destruct (decide (task = i)) as [->|Hne].
      - exists (withState st x). rewrite list_lookup_alter_eq, Hi. repeat split.
      - exists x. rewrite list_lookup_alter_ne by exact Hne. repeat split. exact Hi. }
    assert (Forall (fun r => match r with
                             | GetHealth => True
                             | PostTts text speaker =>
                                 ∃ i x, alter (withState st) task (tasks w) !! i = Some x ∧
                                        t_text x = text ∧ t_speakerType x = speaker
                             end) (requests w)) as Hall'.
    { eapply Forall_impl; [exact Hall|]. intros [|tx sp]; [tauto|].
      intros (i & x & Hi & <- & <-). destruct (Hkeep i x Hi) as (x' & Hx' & Ht' & Hs').
      exists i, x'. repeat split; assumption. }
    pose proof (count_alter_drop (fun x => awaitsProbe (t_state x)) (withState st)
                                 (tasks w) task t Hlook Hst) as Hdrop.
    cbv beta in Hdrop. unfold requestsAccounted. rewrite Hk, length_alter.
    destruct Hr as [->|[Hprobe ->]].
    + split; [destruct (awaitsProbe (t_state t)); lia | exact Hall'].
    + rewrite Hprobe in Hdrop. split; [rewrite count_app; simpl; lia|].
      apply Forall_app. split; [exact Hall'|]. constructor; [|constructor].
      destruct (Hkeep task t Hlook) as (x' & Hx' & Ht' & Hs').
      exists task, x'. repeat split; assumption.
Qed.

(** Every request to [/tts] carries the text and the speaker type of an
    invocation of [playNativeTts], and there are at most as many such requests
    as invocations past the probe: an invocation never asks the server
    twice. *)
Theorem tts_requests_belong_to_invocations :
  ∀ (c : C) (has : bool) (vs : list SpeechSynthesisVoice) (es : list Event) w,
    run es (init c has vs) = Some w →
    count isPostTts (requests w) +
    count (fun t => awaitsProbe (t_state t)) (tasks w) ≤ length (tasks w) ∧
    ∀ text speaker, In (PostTts text speaker) (requests w) →
                    ∃ i t, tasks w !! i = Some t ∧
                           t_text t = text ∧ t_speakerType t = speaker.
Proof.
  intros c has vs es w Hrun.
  assert (requestsAccounted w) as [Hcount Hall].
  { apply (run_invariant requestsAccounted requestsAccounted_step es (init c has vs) w);
      [|exact Hrun].
    unfold init, loadVoices, requestsAccounted. simpl.
    destruct has; simpl; (split; [lia | constructor]). }
  split; [exact Hcount|]. intros text speaker Hin.
  rewrite Forall_forall in Hall. apply list_elem_of_In in Hin.
  exact (Hall _ Hin).
Qed.

(** *** A server that never answers *)

(** A settlement that is not a successful response, for an invocation off the
    remote path, runs the local path. *)
Lemma resume_off_remote task (s : Settlement) w w' (t : Task C) :
  tasks w !! task = Some t →
  t_state t = AwaitMemo false ∨ t_state t = AwaitHealth ∨ t_state t = Resolved →
  answersOk (C:=C) (Host (Settle task s)) = false →
  resume task s w = Some w' →
  t_state t ≠ Resolved ∧
  ∃ w1, w' = set_state task Resolved
               (playBrowserTts (t_text t) (t_speakerType t) (t_callbacks t) w1) ∧
        (w1 = w ∨ w1 = set_isEdgeTtsAvailable (Some false) w).
Proof.
  intros Hlook Hst Hok. unfold resume. rewrite Hlook. simpl. simpl in Hok.
  destruct Hst as [Hst|[Hst|Hst]]; rewrite Hst.
  - destruct s; try discriminate. intros [= <-]. split; [discriminate|].
    exists w. split; [reflexivity | left; reflexivity].
  - destruct s as [status| |]; simpl; try discriminate.
    + rewrite Hok. intros [= <-]. split; [discriminate|].
      eexists. split; [reflexivity | right; reflexivity].
    + intros [= <-]. split; [discriminate|].
      eexists. split; [reflexivity | right; reflexivity].
  - discriminate.
Qed.

Lemma localOnly_host (h : HostEvent) w w' :
  (∀ task s, h ≠ Settle task s) →
  localOnly w → hostStep h w = Some w' → localOnly w'.
Proof.
  intros Hh (Hflag & Hk & Hr & Ha) Hstep.
  destruct (hostStep_probe h w w' Hh Hstep) as (Hr' & He' & Hk').
  apply hostStep_shape in Hstep as [_ Hshape]; [|exact Hh].
  unfold localOnly. rewrite Hr', He', Hk'.
  destruct Hshape
    as [(Ha' & _)
       |[(b & x & f & Hx & _)
        |[(b & x & Hx & _)|(_ & _ & _ & _ & _ & _ & Ha' & _)]]];
    try (rewrite Ha, lookup_nil in Hx; discriminate Hx);
    rewrite Ha'; repeat split; assumption.
Qed.

Lemma localOnly_step (e : Event) w w' :
  answersOk e = false → localOnly w → step e w = Some w' → localOnly w'.
Proof.
  intros Hok (Hflag & Hk & Hr & Ha). destruct e as [text speakerType s e| |h]; simpl.
  - intros [= <-].
    destruct (playNativeTts_spec w text speakerType s e)
      as (Hk' & Hr' & _ & Ha' & _ & _ & _ & He' & _).
    destruct (stopNativeTts_spec w) as (_ & Ha0 & _).
    unfold localOnly. rewrite Hk', Hr', Ha', Ha0, He', Ha.
    split; [exact Hflag|]. split; [|split].
    + apply Forall_app. split; [exact Hk|]. constructor; [|constructor]. simpl.
      destruct (isEdgeTtsAvailable w) as [[]|]; [congruence | left | right; left];
        reflexivity.
    + apply Forall_app. split; [exact Hr|].
      destruct (isEdgeTtsAvailable w); repeat constructor.
    + destruct (audioElement w); reflexivity.
  - intros [= <-].
    destruct (stopNativeTts_spec w) as (_ & Ha0 & _ & _ & _ & Hk' & Hr' & He' & _).
    unfold localOnly. rewrite Hk', Hr', Ha0, He', Ha.
    repeat split; try assumption. destruct (audioElement w); reflexivity.
  - destruct h as [task s|vs|a|a|a|a t|u|u|u];
      [|apply localOnly_host; [discriminate | repeat split; assumption]..].
    simpl. intros Hres.
    destruct (tasks w !! task) as [t|] eqn:Hlook;
      [|unfold resume in Hres; rewrite Hlook in Hres; discriminate Hres].
    pose proof (Forall_lookup_1 _ _ _ _ Hk Hlook) as Hst. simpl in Hst.
    destruct (resume_off_remote task s w w' t Hlook Hst Hok Hres)
      as (_ & w1 & -> & Hw1).
    unfold localOnly. simpl.
    rewrite playBrowserTts_flag, playBrowserTts_tasks, playBrowserTts_requests,
            playBrowserTts_audios.
    destruct Hw1 as [->| ->]; simpl;
      (split; [first [exact Hflag | discriminate]|]);
      (split; [apply Forall_alter; [exact Hk | intros; right; right; reflexivity]|]);
      split; assumption.
Qed.

(** As long as no request is answered with a status in 200-299, the module
    stays on the local path: no [/tts] request is sent, no audio element and no
    blob URL is created, the flag is never "available". *)
Theorem unavailable_server_is_never_asked_to_synthesize :
  ∀ (c : C) (has : bool) (vs : list SpeechSynthesisVoice) (es : list Event) w,
    run es (init c has vs) = Some w →
    Forall (fun e => answersOk e = false) es →
    isEdgeTtsAvailable w ≠ Some true ∧
    count isPostTts (requests w) = 0 ∧
    audios w = [] ∧ audioElement w = None.
Proof.
  intros c has vs es w Hrun Hok.
  assert (∀ es w0 w1, localOnly w0 ∧ audioElement w0 = None →
                      Forall (fun e => answersOk e = false) es →
                      run es w0 = Some w1 → localOnly w1 ∧ audioElement w1 = None)
    as Hruns.
  { clear. intros es. induction es as [|e es IH]; intros w0 w1 Hw0 Hok; simpl.
    - intros [= <-]. exact Hw0.
    - destruct (step e w0) as [w2|] eqn:He; simpl; [|discriminate].
      apply Forall_cons in Hok as [Hok1 Hok]. apply IH; [|exact Hok].
      destruct Hw0 as [Hloc Hcur].
      pose proof (localOnly_step e w0 w2 Hok1 Hloc He) as Hloc2.
      split; [exact Hloc2|].
      assert (currentIsNewest w0) as Hnew
          by (intros a Ha; rewrite Hcur in Ha; discriminate Ha).
      pose proof (currentIsNewest_step e w0 w2 Hnew He) as Hnew2.
      destruct (audioElement w2) as [a|] eqn:Ha; [|reflexivity].
      destruct (Hnew2 a Ha) as (_ & x & Hx & _).
      destruct Hloc2 as (_ & _ & _ & Hau). rewrite Hau, lookup_nil in Hx.
      discriminate Hx. }
  destruct (Hruns es (init c has vs) w) as [(Hflag & _ & Hr & Ha) Hcur];
    [|exact Hok | exact Hrun|].
  - unfold init, loadVoices, localOnly. simpl.
    destruct has; simpl; repeat split; try discriminate; constructor.
  - repeat split; try assumption.
    clear -Hr. induction Hr as [|r rs -> _ IH]; simpl; [reflexivity | exact IH].
Qed.

End Requests.

Lemma tts_requests_belong_to_invocations_witness :
  ∃ w, run Scenario.twoQuickCalls Scenario.freshHost = Some w ∧
       count isPostTts (requests w) ≤ length (tasks w).
Proof.
  eexists. split; [vm_compute; reflexivity|].
  refine (Nat.le_trans _ _ _ (Nat.le_add_r _ _)
            (proj1 (tts_requests_belong_to_invocations
                      (0, 0) true [Scenario.zira] Scenario.twoQuickCalls _ _))).
  vm_compute. reflexivity.
Defined.

Lemma unavailable_server_witness :
  ∃ w, run Scenario.serverDown Scenario.freshHost = Some w ∧ audios w = [].
Proof.
  eexists. split; [vm_compute; reflexivity|].
  refine (proj1 (proj2 (proj2 (unavailable_server_is_never_asked_to_synthesize
                   (0, 0) true [Scenario.zira] Scenario.serverDown _ _ _)))).
  - vm_compute. reflexivity.
  - repeat constructor.
Defined.

(** ** A host without [speechSynthesis] *)

Section Mute.

Context {C : Type}.
Implicit Types (w : World C) (cb : Callbacks C).

Local Abbreviation mute := muteInvariant.

(** An event fired at an audio element leaves the utterances alone. *)
Local Ltac audio_event_keeps_utterances Hstep Hutt :=
  let Hshape := fresh "Hshape" in
  let Hx := fresh "Hx" in
  apply hostStep_shape in Hstep as [_ Hshape]; [|discriminate];
  destruct Hshape as [(_ & _ & _ & ->)|[(_ & _ & _ & _ & _ & _ & _ & _ & ->)
                     |[(_ & _ & _ & _ & _ & _ & _ & ->)|(? & ? & ? & Hx & _)]]];
  try exact Hutt; rewrite Hutt, lookup_nil in Hx; discriminate Hx.

Lemma mute_step (e : Event) w w' :
  answersOk e = false → mute w → step e w = Some w' → mute w'.
Proof.
  intros Hok (Hloc & Hhas & Hutt & Hidx & Hend) Hstep.
  split; [exact (localOnly_step e w w' Hok Hloc Hstep)|].
  split; [|split; [|split; [exact (indexed_step e w w' Hidx Hstep)|]]].
  - destruct e as [text speakerType s e| |h]; simpl in Hstep.
    + injection Hstep as <-.
      rewrite (proj2 (proj2 (proj2 (proj2 (proj2 (proj2 (proj2 (proj2 (proj2
                (playNativeTts_spec w text speakerType s e)))))))))).
      exact Hhas.
    + injection Hstep as <-.
      destruct (stopNativeTts_spec w) as (_ & _ & _ & _ & _ & _ & _ & _ & _ & H & _).
      rewrite H. exact Hhas.
    + destruct h as [task s|vs|a|a|a|a t|u|u|u];
        [|apply hostStep_shape in Hstep as [H _]; [rewrite H; exact Hhas | discriminate]..].
      simpl in Hstep.
      destruct (tasks w !! task) as [t|] eqn:Hlook;
        [|unfold resume in Hstep; rewrite Hlook in Hstep; discriminate Hstep].
      rewrite (proj1 (resume_heap task s w w' t Hlook Hstep)). exact Hhas.
  - destruct e as [text speakerType s e| |h]; simpl in Hstep.
    + injection Hstep as <-.
      destruct (playNativeTts_spec w text speakerType s e) as (_ & _ & _ & _ & Hu & _).
      destruct (stopNativeTts_spec w) as (_ & _ & Hu0 & _).
      rewrite Hu, Hu0, Hhas. exact Hutt.
    + injection Hstep as <-.
      destruct (stopNativeTts_spec w) as (_ & _ & Hu0 & _).
      rewrite Hu0, Hhas. exact Hutt.
    + destruct h as [task s|vs|a|a|a|a t|u|u|u].
      * simpl in Hstep.
        destruct (tasks w !! task) as [t|] eqn:Hlook;
          [|unfold resume in Hstep; rewrite Hlook in Hstep; discriminate Hstep].
        destruct Hloc as (_ & Hk & _).
        pose proof (Forall_lookup_1 _ _ _ _ Hk Hlook) as Hst. simpl in Hst.
        destruct (resume_off_remote task s w w' t Hlook Hst Hok Hstep)
          as (_ & w1 & -> & Hw1).
        rewrite playBrowserTts_mute by (destruct Hw1 as [->| ->]; exact Hhas).
        destruct Hw1 as [->| ->]; exact Hutt.
      * simpl in Hstep. rewrite Hhas in Hstep. discriminate Hstep.
      * audio_event_keeps_utterances Hstep Hutt.
      * audio_event_keeps_utterances Hstep Hutt.
      * audio_event_keeps_utterances Hstep Hutt.
      * audio_event_keeps_utterances Hstep Hutt.
      * simpl in Hstep. rewrite Hutt, lookup_nil in Hstep. discriminate Hstep.
      * simpl in Hstep. rewrite Hutt, lookup_nil in Hstep. discriminate Hstep.
      * simpl in Hstep. rewrite Hutt, lookup_nil in Hstep. discriminate Hstep.
  - intros k. specialize (Hend k). destruct Hend as [Hs He]. unfold endedOnce.
    destruct e as [text speakerType s e| |h]; simpl in Hstep.
    + injection Hstep as <-.
      destruct (playNativeTts_spec w text speakerType s e)
        as (Hk & _ & _ & _ & _ & _ & Ht & _).
      unfold starts, ends in *. rewrite Ht, Hk. split; [exact Hs|]. rewrite He.
      destruct (tasks w !! k) as [t|] eqn:Hlook.
      * rewrite (lookup_app_l_Some _ _ _ _ Hlook). reflexivity.
      * apply lookup_ge_None in Hlook. rewrite lookup_app_r by exact Hlook.
        destruct (k - length (tasks w)) as [|n]; simpl; [|reflexivity].
        destruct (isEdgeTtsAvailable w); reflexivity.
    + injection Hstep as <-.
      destruct (stopNativeTts_spec w) as (_ & _ & _ & _ & Ht & Hk & _).
      unfold starts, ends in *. rewrite Ht, Hk. split; assumption.
    + destruct Hloc as (_ & Hk & _ & Hau).
      destruct h as [task s|vs|a|a|a|a t|u|u|u]; simpl in Hstep;
        try (rewrite Hhas in Hstep; discriminate Hstep);
        try (rewrite Hau, lookup_nil in Hstep; discriminate Hstep);
        try (rewrite Hutt, lookup_nil in Hstep; discriminate Hstep).
      destruct (tasks w !! task) as [t|] eqn:Hlook;
        [|unfold resume in Hstep; rewrite Hlook in Hstep; discriminate Hstep].
      pose proof (Forall_lookup_1 _ _ _ _ Hk Hlook) as Hst. simpl in Hst.
      destruct (resume_off_remote task s w w' t Hlook Hst Hok Hstep)
        as (Hnot & w1 & -> & Hw1).
      rewrite playBrowserTts_mute by (destruct Hw1 as [->| ->]; exact Hhas).
      assert (trace w1 = trace w ∧ tasks w1 = tasks w) as [Ht1 Hk1]
        by (destruct Hw1 as [->| ->]; split; reflexivity).
      unfold starts, ends in *. simpl. rewrite Ht1, Hk1, !count_trace_snoc.
      rewrite (Hidx task t Hlook).
      destruct (decide (task = k)) as [->|Hne].
      * rewrite Nat.eqb_refl, list_lookup_alter_eq, Hlook. simpl.
        rewrite Hlook in He. simpl in He.
        split; [lia|]. rewrite He.
        destruct (t_state t); try reflexivity. destruct Hnot. reflexivity.
      * rewrite list_lookup_alter_ne by exact Hne.
        apply Nat.eqb_neq in Hne. rewrite Hne. simpl. split; lia.
Qed.

(** On a host without [speechSynthesis] whose server never answers with a
    status in 200-299, [onStart] is never called and every invocation gets
    exactly one [onEnd], when its probe settles; nothing is ever handed to a
    synthesizer. *)
Theorem mute_host_ends_every_invocation_once :
  ∀ (c : C) (vs : list SpeechSynthesisVoice) (es : list Event) w k,
    run es (init c false vs) = Some w →
    Forall (fun e => answersOk e = false) es →
    starts k w = 0 ∧
    ends k w = match t_state <$> tasks w !! k with
               | Some Resolved => 1
               | _ => 0
               end ∧
    utterances w = [] ∧ audios w = [].
Proof.
  intros c vs es w k Hrun Hok.
  assert (∀ es w0 w1, mute w0 → Forall (fun e => answersOk e = false) es →
                      run es w0 = Some w1 → mute w1) as Hruns.
  { clear. intros es. induction es as [|e es IH]; intros w0 w1 Hw0 Hok; simpl.
    - intros [= <-]. exact Hw0.
    - destruct (step e w0) as [w2|] eqn:He; simpl; [|discriminate].
      apply Forall_cons in Hok as [Hok1 Hok]. apply IH; [|exact Hok].
      exact (mute_step e w0 w2 Hok1 Hw0 He). }
  destruct (Hruns es (init c false vs) w) as ((_ & _ & _ & Hau) & _ & Hutt & _ & Hend);
    [|exact Hok | exact Hrun|].
  - unfold muteInvariant, localOnly, indexed, endedOnce, starts, ends, init, loadVoices.
    simpl. repeat split; try discriminate; try constructor;
      try (intros i t Hi; rewrite lookup_nil in Hi; discriminate Hi).
  - destruct (Hend k) as [Hs He]. repeat split; assumption.
Qed.

End Mute.

Lemma mute_host_witness :
  ∃ w, run Scenario.serverDown Scenario.muteHost = Some w ∧
       starts 0 w = 0 ∧ ends 0 w = 1.
Proof.
  eexists. split; [vm_compute; reflexivity|].
  destruct (mute_host_ends_every_invocation_once
              (0, 0) [] Scenario.serverDown
              (default Scenario.muteHost (run Scenario.serverDown Scenario.muteHost))
              0 eq_refl ltac:(repeat constructor)) as (Hs & He & _).
  split; [exact Hs | exact He].
Defined.

(** ** Stopping *)

Section Stopping.

Context {C : Type}.
Implicit Types (w : World C) (cb : Callbacks C).

Lemma dequeue_fmap_idem (l : list (SpeechSynthesisUtterance C)) :
  dequeue <$> (dequeue <$> l) = dequeue <$> l.
Proof. induction l as [|u l IH]; simpl; [reflexivity|]. f_equal; auto. Qed.

Lemma dequeue_fmap_none (l : list (SpeechSynthesisUtterance C)) :
  count queued l = 0 → dequeue <$> l = l.
Proof.
  induction l as [|u l IH]; simpl; [reflexivity|].
  destruct u as [tx r p v ls q ds de]. simpl. destruct q; simpl; [discriminate|].
  intros H. f_equal. exact (IH H).
Qed.

Lemma alter_snoc (f : HTMLAudioElement C → HTMLAudioElement C)
      (l : list (HTMLAudioElement C)) x :
  alter f (length l) (l ++ [x]) = l ++ [f x].
Proof.
  rewrite <- (Nat.add_0_r (length l)) at 1. rewrite alter_app_r. reflexivity.
Qed.

(** [stopNativeTts] is idempotent and silent: it calls no callback, sends no
    request, revokes no URL and leaves every invocation and the memoized flag
    as they are; afterwards the module holds no element and the queue is
    empty; it never starts anything; and when the module holds no element and
    nothing is queued it changes nothing at all. *)
Theorem stopNativeTts_idempotent_and_silent :
  ∀ w,
    stopNativeTts (stopNativeTts w) = stopNativeTts w ∧
    trace (stopNativeTts w) = trace w ∧ client (stopNativeTts w) = client w ∧
    requests (stopNativeTts w) = requests w ∧
    objectUrls (stopNativeTts w) = objectUrls w ∧
    tasks (stopNativeTts w) = tasks w ∧
    isEdgeTtsAvailable (stopNativeTts w) = isEdgeTtsAvailable w ∧
    audioElement (stopNativeTts w) = None ∧
    liveHandles (stopNativeTts w) ≤ liveHandles w ∧
    (hasSpeechSynthesis w = true → queuedUtterances (stopNativeTts w) = 0) ∧
    (audioElement w = None → queuedUtterances w = 0 → stopNativeTts w = w).
Proof.
  intros w.
  destruct (stopNativeTts_spec w)
    as (Ha & Hau & Hu & Hc & Ht & Hk & Hr & He & Ho & Hh & _).
  split; [|repeat split; try assumption].
  - unfold stopNativeTts.
    destruct (audioElement w) as [a|] eqn:Hcur; simpl;
      destruct (hasSpeechSynthesis w) eqn:Hcap;
      do 3 (simpl; unfold cancel, set_utterances; rewrite ?Hcur, ?Hcap);
      simpl; rewrite ?dequeue_fmap_idem; reflexivity.
  - unfold liveHandles. rewrite Hau. destruct (audioElement w); [|lia].
    apply count_alter_le. intros x Hx. discriminate Hx.
  - intros Hcap. unfold queuedUtterances. rewrite Hu, Hcap.
    apply count_fmap_none. reflexivity.
  - intros Hcur Hq. unfold stopNativeTts. rewrite Hcur.
    destruct (hasSpeechSynthesis w); [|reflexivity].
    unfold cancel, set_utterances. unfold queuedUtterances in Hq.
    rewrite (dequeue_fmap_none _ Hq). destruct w; reflexivity.
Qed.

(** [stopNativeTts] does not cancel an invocation whose request is in flight:
    the invocation stays where it is, and when its payload arrives after the
    stop it creates its element, stores it in the module variable and plays
    it. *)
Theorem stopNativeTts_does_not_cancel_a_request_in_flight :
  ∀ w task (t : Task C),
    tasks w !! task = Some t → t_state t = AwaitBlob →
    tasks (stopNativeTts w) !! task = Some t ∧
    ∃ w', hostStep (Settle task Value) (stopNativeTts w) = Some w' ∧
          audioElement w' = Some (length (audios w)) ∧
          (∃ x, audios w' !! length (audios w) = Some x ∧
                handlers x = t_callbacks t ∧ live x = true) ∧
          liveHandles w' = S (liveHandles (stopNativeTts w)) ∧
          trace w' = trace w.
Proof.
  intros w task t Hlook Hst.
  destruct (stopNativeTts_spec w) as (Ha & Hau & _ & _ & Ht & Hk & _).
  assert (length (audios (stopNativeTts w)) = length (audios w)) as Hlen
    by (rewrite Hau; destruct (audioElement w); [apply length_alter | reflexivity]).
  split; [rewrite Hk; exact Hlook|].
  eexists. split.
  - simpl. unfold resume. rewrite Hk, Hlook. simpl. rewrite Hst. simpl. reflexivity.
  - simpl. rewrite alter_snoc. split; [rewrite Hlen; reflexivity|].
    split; [|split; [|exact Ht]].
    + eexists. split; [|split].
      * rewrite <- Hlen, lookup_app_r by lia. rewrite Nat.sub_diag. reflexivity.
      * reflexivity.
      * reflexivity.
    + unfold liveHandles. simpl. rewrite alter_snoc, count_snoc.
      simpl. lia.
Qed.

(** *** Voices that arrive late *)


End Stopping.

Lemma stopNativeTts_does_not_cancel_witness :
  ∃ w w', run [ Call "passage" "female" Scenario.countStart Scenario.countEnd;
                Host (Settle 0 (Response 200));
                Host (Settle 0 (Response 200)) ] Scenario.freshHost = Some w ∧
          hostStep (Settle 0 Value) (stopNativeTts w) = Some w' ∧
          audioElement w' = Some 0.
Proof.
  eexists.
  destruct (stopNativeTts_does_not_cancel_a_request_in_flight
              (default Scenario.freshHost
                 (run [ Call "passage" "female" Scenario.countStart Scenario.countEnd;
                        Host (Settle 0 (Response 200));
                        Host (Settle 0 (Response 200)) ] Scenario.freshHost))
              0 (mkTask "passage" "female" Scenario.counting AwaitBlob)
              eq_refl eq_refl) as (_ & w' & Hstep & Hcur & _).
  exists w'. split; [vm_compute; reflexivity|]. split; [exact Hstep | exact Hcur].
Defined.


(** ** Which callback a step calls *)

Section Calls.

Context {C : Type}.
Implicit Types (w : World C) (cb : Callbacks C).

Lemma playBrowserTts_calls w (text speakerType : string) cb :
  let w' := playBrowserTts text speakerType cb w in
  (client w' = client w ∧ trace w' = trace w) ∨
  (client w' = onEnd cb (client w) ∧ trace w' = trace w ++ [(call cb, Ended)]).
Proof.
  destruct (hasSpeechSynthesis w) eqn:Hcap.
  - left. destruct (playBrowserTts_speaks w text speakerType cb Hcap) as (Ht & Hc & _).
    split; assumption.
  - right. simpl. rewrite (playBrowserTts_mute w text speakerType cb Hcap).
    split; reflexivity.
Qed.

Lemma resume_calls task (s : Settlement) w w' (t : Task C) :
  tasks w !! task = Some t → resume task s w = Some w' →
  (client w' = client w ∧ trace w' = trace w) ∨
  (client w' = onEnd (t_callbacks t) (client w) ∧
   trace w' = trace w ++ [(call (t_callbacks t), Ended)]).
Proof.
  intros Hlook. unfold resume. rewrite Hlook. simpl.
  destruct (t_state t) eqn:Hst; destruct s as [status| |]; simpl;
    try discriminate; intros Hw';
    try (destruct (negb (ok status)); simpl in Hw');
    injection Hw' as <-;
    try (destruct b); try (destruct (ok status)); simpl;
    first [ left; split; reflexivity
          | exact (playBrowserTts_calls w _ _ _)
          | exact (playBrowserTts_calls (set_isEdgeTtsAvailable (Some false) w) _ _ _) ].
Qed.

(** One step of the host calls at most one callback, one that an invocation,
    an element or an utterance holds. *)
Lemma hostStep_calls (P : Callbacks C → Prop) (h : HostEvent) w w' :
  callbacksSatisfy P w → hostStep h w = Some w' →
  (client w' = client w ∧ trace w' = trace w) ∨
  ∃ cb ev, P cb ∧
           client w' = match ev with
                       | Started => onStart cb
                       | Ended => onEnd cb
                       end (client w) ∧
           trace w' = trace w ++ [(call cb, ev)].
Proof.
  intros (Hk & Ha & Hu). destruct h as [task s|vs|a|a|a|a t|u|u|u]; simpl.
  - intros Hres.
    destruct (tasks w !! task) as [t|] eqn:Hlook;
      [|unfold resume in Hres; rewrite Hlook in Hres; discriminate Hres].
    destruct (resume_calls task s w w' t Hlook Hres) as [H|[Hc Ht]]; [left; exact H|].
    right. exists (t_callbacks t), Ended.
    split; [exact (Forall_lookup_1 _ _ _ _ Hk Hlook) | split; assumption].
  - destruct (hasSpeechSynthesis w) eqn:Hcap; [|discriminate]. intros [= <-].
    unfold loadVoices. simpl. rewrite Hcap. left. split; reflexivity.
  - destruct (audios w !! a) as [x|] eqn:Hlook; simpl; [|discriminate].
    destruct (negb (dispatchedPlay x)); [|discriminate]. intros [= <-].
    right. exists (handlers x), Started.
    split; [exact (Forall_lookup_1 _ _ _ _ Ha Hlook) | split; reflexivity].
  - destruct (audios w !! a) as [x|] eqn:Hlook; simpl; [|discriminate].
    destruct (dispatchedPlay x && negb (paused x) && negb (finished x));
      [|discriminate]. intros [= <-].
    right. exists (handlers x), Ended.
    split; [exact (Forall_lookup_1 _ _ _ _ Ha Hlook) | split; reflexivity].
  - destruct (audios w !! a) as [x|] eqn:Hlook; simpl; [|discriminate].
    destruct (negb (finished x)); [|discriminate]. intros [= <-].
    right. exists (handlers x), Ended.
    split; [exact (Forall_lookup_1 _ _ _ _ Ha Hlook) | split; reflexivity].
  - destruct (audios w !! a) as [x|] eqn:Hlook; simpl; [|discriminate].
    destruct (dispatchedPlay x && negb (paused x) && negb (finished x));
      [|discriminate]. intros [= <-]. left. split; reflexivity.
  - destruct (utterances w !! u) as [x|] eqn:Hlook; simpl; [|discriminate].
    destruct (queued x && negb (dispatchedStart x) && negb (dispatchedEnd x));
      [|discriminate]. intros [= <-].
    right. exists (listeners x), Started.
    split; [exact (Forall_lookup_1 _ _ _ _ Hu Hlook) | split; reflexivity].
  - destruct (utterances w !! u) as [x|] eqn:Hlook; simpl; [|discriminate].
    destruct (dispatchedStart x && negb (dispatchedEnd x)); [|discriminate].
    intros [= <-].
    right. exists (listeners x), Ended.
    split; [exact (Forall_lookup_1 _ _ _ _ Hu Hlook) | split; reflexivity].
  - destruct (utterances w !! u) as [x|] eqn:Hlook; simpl; [|discriminate].
    destruct (negb (dispatchedEnd x)); [|discriminate]. intros [= <-].
    right. exists (listeners x), Ended.
    split; [exact (Forall_lookup_1 _ _ _ _ Hu Hlook) | split; reflexivity].
Qed.

End Calls.

(** ** The component and its controls *)

Module PlayerMore.

Import Player PlayerInv View.

(** A control that runs [handlePlay] can be clicked exactly in the states Idle
    and Finished, and the replay link exactly in Finished.  A click the
    component offers is never ignored: it invokes the controller once and the
    controls are gone at once; when no control is offered [handlePlay] would
    do nothing, so the guard of line 32 and the rendering agree. *)
Theorem offered_click_is_accepted :
  ∀ w : World AudioPlayer,
    (playOffered (client w) = true ↔
     playbackState (client w) = Idle ∨ playbackState (client w) = Finished) ∧
    (replayRendered (client w) = true ↔ playbackState (client w) = Finished) ∧
    (playOffered (client w) = true →
     length (tasks (handlePlay w)) = S (length (tasks w)) ∧
     playbackState (client (handlePlay w)) = Loading ∧
     playOffered (client (handlePlay w)) = false ∧
     playButtonDisabled (client (handlePlay w)) = true) ∧
    (playOffered (client w) = false → handlePlay w = w).
Proof.
  intros w.
  destruct (playNativeTts_spec (set_client (setIsLoading true) w)
              (props_text (client w)) (props_speakerType (client w))
              handleStart handleEnd)
    as (Hk & _ & _ & _ & _ & Hc & _).
  unfold playOffered, playButtonRendered, playButtonDisabled, replayRendered,
    playbackState, handlePlay.
  destruct (isLoading (client w)) eqn:Hl, (isPlaying (client w)) eqn:Hp,
           (hasPlayed (client w)) eqn:Hh; simpl;
    (split; [split; [intros H; first [discriminate H | tauto]
                    | intros [H|H]; first [discriminate H | reflexivity]]|]);
    (split; [split; intros H; first [discriminate H | reflexivity]|]);
    (split; [|intros H; first [discriminate H | reflexivity]]);
    intros H; try discriminate H;
    rewrite Hc, Hk, length_app; simpl; rewrite Hp;
    repeat split; lia.
Qed.

(** [onEnd] does not clear [isLoading].  When the controller reports the end
    of an invocation that never started (here: a host without
    [speechSynthesis] whose server does not answer) the component stays in
    Loading with the button disabled, although it has told its parent that
    the audio ended; no click is accepted and no event of the host can change
    that, only a change of text. *)
Theorem end_without_start_leaves_loading :
  ∀ (text speakerType : string) (vs : list SpeechSynthesisVoice) (s : Settlement),
    s ≠ Value → answersOk (C:=AudioPlayer) (Host (Settle 0 s)) = false →
    (∀ p, isLoading (handleEnd p) = isLoading p) ∧
    ∃ w, uiRun [Click; FromHost (Settle 0 s)] (mount text speakerType false vs)
         = Some w ∧
         playbackState (client w) = Loading ∧
         hasPlayed (client w) = true ∧ audioEnds (client w) = 1 ∧
         playOffered (client w) = false ∧ handlePlay w = w ∧
         (∀ h, hostStep h w = None) ∧
         (∀ t, playbackState (client (textChanged t w)) = Idle).
Proof.
  intros text speakerType vs s Hs Hok. split; [reflexivity|].
  destruct s as [status| |]; [|destruct Hs; reflexivity|].
  - simpl in Hok. eexists. split.
    { cbv - [ok]. rewrite Hok. cbv. reflexivity. }
    do 5 (split; [vm_compute; reflexivity|]). split.
    + intros [task st|vs'|a|a|a|a t|u|u|u]; try reflexivity.
      destruct task as [|[|task]]; reflexivity.
    + intros t. vm_compute. reflexivity.
  - eexists. split.
    { vm_compute. reflexivity. }
    do 5 (split; [vm_compute; reflexivity|]). split.
    + intros [task st|vs'|a|a|a|a t|u|u|u]; try reflexivity.
      destruct task as [|[|task]]; reflexivity.
    + intros t. vm_compute. reflexivity.
Qed.

(** A change of text does not cancel a request in flight.  When the payload
    of the superseded request arrives, its audio plays and the component shows
    Speaking under the new text, for which no request was made. *)
Theorem superseded_request_still_plays :
  ∀ (w : World AudioPlayer) task (tk : Task AudioPlayer) (t : string),
    tasks w !! task = Some tk → t_state tk = AwaitBlob →
    onStart (t_callbacks tk) = handleStart →
    ∃ w1 w2,
      uiStep (FromHost (Settle task Value)) (textChanged t w) = Some w1 ∧
      uiStep (FromHost (AudioPlay (length (audios w)))) w1 = Some w2 ∧
      playbackState (client w2) = Speaking ∧
      props_text (client w2) = t ∧
      requests w2 = requests w ∧
      liveHandles w2 = S (liveHandles (textChanged t w)) ∧
      trace w2 = trace w ++ [(call (t_callbacks tk), Started)].
Proof.
  intros w task tk t Hlook Hst Hstart.
  set (w0 := set_client (fun p => resetState (setText t p)) w).
  destruct (stopNativeTts_spec w0) as (Ha & Hau & _ & Hc & Ht & Hk & Hr & _).
  assert (length (audios (stopNativeTts w0)) = length (audios w)) as Hlen
    by (rewrite Hau; simpl; destruct (audioElement w); [apply length_alter | reflexivity]).
  assert (tasks (textChanged t w) !! task = Some tk) as Hlook'
    by (unfold textChanged; fold w0; rewrite Hk; exact Hlook).
  eexists. eexists. split; [|split].
  - unfold uiStep. simpl. unfold resume. rewrite Hlook'. simpl. rewrite Hst. simpl.
    rewrite list_lookup_alter_eq, Hlook'. simpl. reflexivity.
  - unfold textChanged. fold w0. unfold uiStep. simpl.
    rewrite alter_snoc, <- Hlen, lookup_app_r by lia.
    rewrite Nat.sub_diag. simpl. reflexivity.
  - unfold textChanged. fold w0. simpl.
    rewrite Hstart, Hc, Hr, Ht. simpl.
    repeat split.
    unfold liveHandles. simpl.
    rewrite !alter_snoc, count_snoc. simpl. lia.
Qed.

(** *** The parent's callback *)

Lemma endedCalls_snoc (tr : list (nat * Lifecycle)) (c : nat) (ev : Lifecycle) :
  endedCalls (tr ++ [(c, ev)]) =
  endedCalls tr + match ev with Ended => 1 | Started => 0 end.
Proof. unfold endedCalls. rewrite count_snoc. destruct ev; reflexivity. Qed.

Lemma audioEnds_step (e : UiEvent) (w w' : World AudioPlayer) :
  wellFormed w → audioEnds (client w) = endedCalls (trace w) →
  uiStep e w = Some w' → audioEnds (client w') = endedCalls (trace w').
Proof.
  intros Hwf Hw. destruct e as [|t|h]; simpl.
  - intros [= <-]. unfold handlePlay.
    destruct (isPlaying (client w) || isLoading (client w)); [exact Hw|].
    destruct (playNativeTts_spec (set_client (setIsLoading true) w)
                (props_text (client w)) (props_speakerType (client w))
                handleStart handleEnd)
      as (_ & _ & _ & _ & _ & Hc & Ht & _).
    rewrite Hc, Ht. exact Hw.
  - intros [= <-]. unfold textChanged.
    destruct (stopNativeTts_spec (set_client (fun p => resetState (setText t p)) w))
      as (_ & _ & _ & Hc & Ht & _).
    rewrite Hc, Ht. exact Hw.
  - destruct (hostStep h w) as [w1|] eqn:Hh; simpl; [|discriminate].
    intros [= <-].
    assert (audioEnds (client w1) = endedCalls (trace w1)) as Hw1.
    { destruct (hostStep_calls fromPlayer h w w1 (proj1 Hwf) Hh)
        as [[Hc Ht]|(cb & ev & [Hs He] & Hc & Ht)];
        rewrite Hc, Ht; [exact Hw|].
      rewrite endedCalls_snoc. destruct ev; [rewrite Hs | rewrite He]; simpl; lia. }
    unfold afterAwait. destruct h; try exact Hw1.
    destruct (t_state <$> tasks w1 !! task) as [[]|]; exact Hw1.
Qed.

(** The component tells its parent that the audio ended once for every call
    of [onEnd] by the controller, and at no other time, on every run. *)
Theorem parent_told_once_per_onEnd :
  ∀ (text speakerType : string) (has : bool) (vs : list SpeechSynthesisVoice)
    (es : list UiEvent) (w : World AudioPlayer),
    uiRun es (mount text speakerType has vs) = Some w →
    audioEnds (client w) = endedCalls (trace w).
Proof.
  intros text speakerType has vs es w Hrun.
  assert (∀ es w0 w1, wellFormed w0 ∧ audioEnds (client w0) = endedCalls (trace w0) →
                      uiRun es w0 = Some w1 →
                      wellFormed w1 ∧ audioEnds (client w1) = endedCalls (trace w1))
    as Hruns.
  { clear. intros es. induction es as [|e es IH]; intros w0 w1 Hw0; simpl.
    - intros [= <-]. exact Hw0.
    - destruct (uiStep e w0) as [w2|] eqn:He; simpl; [|discriminate].
      apply IH. destruct Hw0 as [Hwf Hw0].
      split; [exact (PlayerFacts.uiStep_wellFormed e w0 w2 Hwf He)|].
      exact (audioEnds_step e w0 w2 Hwf Hw0 He). }
  refine (proj2 (Hruns es _ w _ Hrun)).
  split; [apply PlayerFacts.mount_wellFormed|].
  unfold mount, init, loadVoices. simpl. destruct has; reflexivity.
Qed.

Lemma end_without_start_witness :
  ∃ w, uiRun [Click; FromHost (Settle 0 Rejection)]
             (mount "passage" "female" false []) = Some w ∧
       playbackState (client w) = Loading.
Proof.
  destruct (end_without_start_leaves_loading
              "passage" "female" [] Rejection ltac:(discriminate) eq_refl)
    as (_ & w & Hrun & Hstate & _).
  exists w. split; [exact Hrun | exact Hstate].
Defined.

Lemma superseded_request_witness :
  ∃ w w1 w2,
    uiRun [ Click; FromHost (Settle 0 (Response 200));
            FromHost (Settle 0 (Response 200)) ]
          (mount "passage" "female" true [Scenario.zira]) = Some w ∧
    uiStep (FromHost (Settle 0 Value)) (textChanged "next passage" w) = Some w1 ∧
    uiStep (FromHost (AudioPlay 0)) w1 = Some w2 ∧
    playbackState (client w2) = Speaking.
Proof.
  eexists.
  destruct (superseded_request_still_plays
              (default (mount "passage" "female" true [Scenario.zira])
                 (uiRun [ Click; FromHost (Settle 0 (Response 200));
                          FromHost (Settle 0 (Response 200)) ]
                        (mount "passage" "female" true [Scenario.zira])))
              0 (mkTask "passage" "female" (mkCallbacks 0 handleStart handleEnd)
                        AwaitBlob)
              "next passage" eq_refl eq_refl eq_refl)
    as (w1 & w2 & H1 & H2 & Hstate & _).
  exists w1, w2. split; [vm_compute; reflexivity|].
  split; [exact H1|]. split; [exact H2 | exact Hstate].
Defined.

Lemma parent_told_once_witness :
  ∃ w, uiRun Scenario.clickUndecodable
             (mount "passage" "female" true [Scenario.zira]) = Some w ∧
       audioEnds (client w) = endedCalls (trace w).
Proof.
  eexists. split; [vm_compute; reflexivity|].
  refine (parent_told_once_per_onEnd
            "passage" "female" true [Scenario.zira] Scenario.clickUndecodable _ _).
  vm_compute. reflexivity.
Defined.

End PlayerMore.

Module ViewFacts.

Import Player PlayerInv View.

(** On every run of the component the visualizer is animated exactly when the
    status bar reads "Speaking (Edge TTS)...", the play button is hidden
    exactly then, and the status bar reads "Loading Edge TTS..." exactly when
    the button is disabled: the spinner and the animation never show
    together. *)
Theorem visualizer_runs_exactly_while_speaking :
  ∀ (text speakerType : string) (has : bool) (vs : list SpeechSynthesisVoice)
    (es : list UiEvent) (w : World AudioPlayer),
    uiRun es (mount text speakerType has vs) = Some w →
    (visualizerPlaying (client w) = true ↔
     statusText (client w) = "Speaking (Edge TTS)...") ∧
    (playButtonRendered (client w) = false ↔
     statusText (client w) = "Speaking (Edge TTS)...") ∧
    (playButtonDisabled (client w) = true ↔
     statusText (client w) = "Loading Edge TTS...") ∧
    ¬ (visualizerPlaying (client w) = true ∧ playButtonDisabled (client w) = true).
Proof.
  intros text speakerType has vs es w Hrun.
  pose proof (proj2 (PlayerFacts.uiRun_wellFormed
                       es _ w (PlayerFacts.mount_wellFormed text speakerType has vs)
                       Hrun)) as Hex.
  unfold flagsExclusive in Hex.
  unfold visualizerPlaying, playButtonRendered, playButtonDisabled, statusText.
  destruct (isLoading (client w)), (isPlaying (client w)), (hasPlayed (client w));
    simpl; repeat split; intros H; try discriminate H; try reflexivity;
    try (destruct Hex; split; reflexivity); try (destruct H as [H1 H2]; discriminate).
Qed.

Lemma visualizer_witness :
  ∃ w, uiRun Scenario.clickChangeClick
             (mount "passage" "female" true [Scenario.zira]) = Some w ∧
       (visualizerPlaying (client w) = true ↔
        statusText (client w) = "Speaking (Edge TTS)...").
Proof.
  eexists. split; [vm_compute; reflexivity|].
  refine (proj1 (visualizer_runs_exactly_while_speaking
                   "passage" "female" true [Scenario.zira]
                   Scenario.clickChangeClick _ _)).
  vm_compute. reflexivity.
Defined.

End ViewFacts.
